(** * nca-to-nsp: the PFS0 archive builder of [pkg/nsp/nsp.go]

    A shallow embedding of the [nsp] package (entry registration, header
    generation, the build loop with its streaming copy, and the progress
    bar), followed by the properties of the archive layout.

    Conventions.
    - Go's [int] holds lengths of objects that live in memory; it is
      modelled by [Z] without wrap-around.  The fixed-width unsigned
      conversions the code performs ([uint32(..)], [uint64(..)]) and the
      arithmetic on [uint32]/[uint64] variables are written out with their
      modulus.
    - A byte is a [Byte.byte]; a buffer or a file content is a [list byte];
      a Go string is a [string] whose characters are its bytes.
    - A run-time panic (slice bounds, negative repeat count, allocation
      limit) is the [None] of an [option]. *)

From Stdlib Require Import ZArith List Lia.
From Stdlib.Strings Require Import String Ascii Byte.
From Stdlib Require Import Permutation Sorted.
From Stdlib Require Import SpecFloat DecimalString.
From stdpp Require Import base option list sorting gmap strings.

Local Open Scope Z_scope.

(** ** Fixed-width integers and bytes *)

Definition uint32 (z : Z) : Z := z mod 2 ^ 32.
Definition uint64 (z : Z) : Z := z mod 2 ^ 64.
(** [int64(x)] of a [uint64] value: two's complement reinterpretation. *)
Definition int64 (z : Z) : Z := (z + 2 ^ 63) mod 2 ^ 64 - 2 ^ 63.

(** [byte(v)]: the low eight bits. *)
Definition byte_of_Z (z : Z) : byte :=
  default x00 (Byte.of_N (Z.to_N (z mod 256))).

Definition Z_of_byte (b : byte) : Z := Z.of_N (Byte.to_N b).

(** [len(s)] for a slice and for a string. *)
Definition len {A} (l : list A) : Z := Z.of_nat (length l).
Definition slen (s : string) : Z := Z.of_nat (String.length s).

(** The bytes of a Go string. *)
Definition bytes_of (s : string) : list byte := list_byte_of_string s.

(** ** [encoding/binary]: little-endian stores

    [binary.LittleEndian.PutUint32(b, v)] stores [byte(v)], [byte(v>>8)],
    [byte(v>>16)], [byte(v>>24)]; [PutUint64] stores eight bytes. *)

Fixpoint le_bytes (n : nat) (v : Z) : list byte :=
  match n with
  | O => []
  | S n' => byte_of_Z v :: le_bytes n' (Z.shiftr v 8)
  end.

(** The matching loads, [binary.LittleEndian.Uint32] and [Uint64]. *)
Fixpoint le_value (bs : list byte) : Z :=
  match bs with
  | [] => 0
  | b :: bs' => Z.lor (Z_of_byte b) (Z.shiftl (le_value bs') 8)
  end.

(** ** Slices of a byte buffer *)

(** [overwrite pos data buf]: the effect of [copy(buf[pos:], data)] for
    [pos <= len(buf)]; [copy] stops at the end of the destination. *)
Definition overwrite (pos : nat) (data buf : list byte) : list byte :=
  take pos buf ++ take (length buf - pos) data ++ drop (pos + length data) buf.

(** [copy(buf[pos:], src)]; slicing panics when [pos] is out of range. *)
Definition copy_at (buf : list byte) (pos : Z) (src : list byte)
  : option (list byte) :=
  if (0 <=? pos) && (pos <=? len buf)
  then Some (overwrite (Z.to_nat pos) src buf) else None.

(** [PutUintN(buf[pos:], v)]: the store checks that all [n] bytes fit. *)
Definition put_le (n : nat) (buf : list byte) (pos v : Z)
  : option (list byte) :=
  if (0 <=? pos) && (pos + Z.of_nat n <=? len buf)
  then Some (overwrite (Z.to_nat pos) (le_bytes n v) buf) else None.

Definition PutUint32 := put_le 4.
Definition PutUint64 := put_le 8.

(** [buf[pos : pos+n]] as a reader sees it. *)
Definition slice (buf : list byte) (pos n : Z) : list byte :=
  take (Z.to_nat n) (drop (Z.to_nat pos) buf).

Definition u32_at (buf : list byte) (pos : Z) : Z := le_value (slice buf pos 4).
Definition u64_at (buf : list byte) (pos : Z) : Z := le_value (slice buf pos 8).

(** The largest allocation the 64-bit runtime grants ([maxAlloc], 48 address
    bits); [make([]byte, n)] panics outside [0..maxAlloc]. *)
Definition maxAlloc : Z := 2 ^ 48.

Definition make_bytes (n : Z) : option (list byte) :=
  if (0 <=? n) && (n <=? maxAlloc) then Some (repeat x00 (Z.to_nat n)) else None.

(** ** The builder and its entries *)

Definition PFS0Magic : string := "PFS0".
Definition DefaultBufferSize : Z := 4096.

Record partitionEntry := {
  path : string;          (* filesystem path of the source file *)
  name : string;          (* file name stored in the archive *)
  size : Z;               (* uint64 *)
  dataOffset : Z;         (* uint64, absolute position of the data *)
  stringOffset : Z        (* uint32, offset of the name in the string table *)
}.

Record Builder := {
  OutputPath : string;
  BufferSize : Z;
  ShowProgress : bool;
  ProgressUpdateFrequency : Z;
  lastProgressWidth : Z;
  partEntries : list partitionEntry
}.

Definition set_offsets (e : partitionEntry) (d s : Z) : partitionEntry :=
  {| path := path e; name := name e; size := size e;
     dataOffset := d; stringOffset := s |}.

Definition set_entries (b : Builder) (es : list partitionEntry) : Builder :=
  {| OutputPath := OutputPath b; BufferSize := BufferSize b;
     ShowProgress := ShowProgress b;
     ProgressUpdateFrequency := ProgressUpdateFrequency b;
     lastProgressWidth := lastProgressWidth b;
     partEntries := es |}.

(** ** [generateHeader] *)

(** First loop: [stringTableSize += len(file.name) + 1]. *)
Definition stringTableSize (es : list partitionEntry) : Z :=
  fold_left (fun acc file => acc + (slen (name file) + 1)) es 0.

Definition headerMetadataSize : Z := 16.

Definition partitionTableSize (es : list partitionEntry) : Z := len es * 24.

(** [padding := 0; if remainder := headerSize % 0x10; remainder > 0
    { padding = 0x10 - remainder }]. *)
Definition padding_of (headerSize : Z) : Z :=
  let remainder := Z.rem headerSize 16 in
  if 0 <? remainder then 16 - remainder else 0.

Definition header_padding (es : list partitionEntry) : Z :=
  padding_of (headerMetadataSize + partitionTableSize es + stringTableSize es).

Definition headerSize (es : list partitionEntry) : Z :=
  headerMetadataSize + partitionTableSize es + stringTableSize es
  + header_padding es.

(** The partition-entry loop.  It stores one 24-byte record per entry and
    assigns [dataOffset] and [stringOffset] in the entry itself. *)
Fixpoint entryLoop (fileDataBaseOffset : Z) (es : list partitionEntry)
    (header : list byte) (headerPosition stringOffset' fileDataOffset : Z)
  : option (list byte * list partitionEntry) :=
  match es with
  | [] => Some (header, [])
  | file :: rest =>
      header ← PutUint64 header headerPosition fileDataOffset;
      let d := uint64 (fileDataBaseOffset + fileDataOffset) in
      let fileDataOffset := uint64 (fileDataOffset + size file) in
      let headerPosition := headerPosition + 8 in
      header ← PutUint64 header headerPosition (size file);
      let headerPosition := headerPosition + 8 in
      header ← PutUint32 header headerPosition stringOffset';
      let file := set_offsets file d stringOffset' in
      let stringOffset' := uint32 (stringOffset' + uint32 (slen (name file) + 1)) in
      let headerPosition := headerPosition + 4 in
      header ← PutUint32 header headerPosition 0;
      let headerPosition := headerPosition + 4 in
      '(header, rest) ← entryLoop fileDataBaseOffset rest header
                          headerPosition stringOffset' fileDataOffset;
      Some (header, file :: rest)
  end.

(** The string-table loop: [copy(header[nameOffset:], entry.name)]. *)
Fixpoint nameLoop (stringTableOffset : Z) (es : list partitionEntry)
    (header : list byte) : option (list byte) :=
  match es with
  | [] => Some header
  | entry :: rest =>
      let nameOffset := stringTableOffset + stringOffset entry in
      header ← copy_at header nameOffset (bytes_of (name entry));
      nameLoop stringTableOffset rest header
  end.

(** [generateHeader] on the entries in their current order: the header and
    the entries with their offsets assigned. *)
Definition generateHeader (es : list partitionEntry)
  : option (list byte * list partitionEntry) :=
  let stringTableSize := stringTableSize es in
  let entryCount := len es in
  let partitionTableSize := entryCount * 24 in
  let headerSize := headerMetadataSize + partitionTableSize + stringTableSize in
  let padding := padding_of headerSize in
  let headerSize := headerSize + padding in
  header ← make_bytes headerSize;
  header ← copy_at header 0 (bytes_of PFS0Magic);
  header ← PutUint32 header 4 (uint32 entryCount);
  header ← PutUint32 header 8 (uint32 (stringTableSize + padding));
  header ← PutUint32 header 12 0;
  '(header, es) ← entryLoop (uint64 headerSize) es header 16 0 0;
  let stringTableOffset := headerMetadataSize + partitionTableSize in
  header ← nameLoop stringTableOffset es header;
  Some (header, es).

Definition mkEntry (p n : string) (sz : Z) : partitionEntry :=
  {| path := p; name := n; size := sz; dataOffset := 0; stringOffset := 0 |}.


(** ** The layout in the words of the format description

    Prologue, one 24-byte record per entry, the null-terminated names, and
    zero padding.  [records] threads the two running offsets exactly as the
    record loop does. *)

Definition record_bytes (rel sz soff : Z) : list byte :=
  le_bytes 8 rel ++ le_bytes 8 sz ++ le_bytes 4 soff ++ le_bytes 4 0.

Definition next_soff (soff : Z) (e : partitionEntry) : Z :=
  uint32 (soff + uint32 (slen (name e) + 1)).

Definition next_rel (rel : Z) (e : partitionEntry) : Z :=
  uint64 (rel + size e).

Fixpoint records (es : list partitionEntry) (soff rel : Z) : list byte :=
  match es with
  | [] => []
  | e :: rest =>
      record_bytes rel (size e) soff
      ++ records rest (next_soff soff e) (next_rel rel e)
  end.

Fixpoint assign (base : Z) (es : list partitionEntry) (soff rel : Z)
  : list partitionEntry :=
  match es with
  | [] => []
  | e :: rest =>
      set_offsets e (uint64 (base + rel)) soff
      :: assign base rest (next_soff soff e) (next_rel rel e)
  end.

Definition name_table (es : list partitionEntry) : list byte :=
  flat_map (fun e => bytes_of (name e) ++ [x00]) es.

Definition prologue (es : list partitionEntry) : list byte :=
  bytes_of PFS0Magic
  ++ le_bytes 4 (uint32 (len es))
  ++ le_bytes 4 (uint32 (stringTableSize es + header_padding es))
  ++ le_bytes 4 0.

Definition header_layout (es : list partitionEntry) : list byte :=
  prologue es ++ records es 0 0 ++ name_table es
  ++ repeat x00 (Z.to_nat (header_padding es)).

(** The running offsets after a run of entries. *)
Definition soff_after (soff : Z) (es : list partitionEntry) : Z :=
  fold_left next_soff es soff.

Definition rel_after (rel : Z) (es : list partitionEntry) : Z :=
  fold_left next_rel es rel.

Fixpoint sum_sizes (es : list partitionEntry) : Z :=
  match es with
  | [] => 0
  | e :: rest => size e + sum_sizes rest
  end.

(** An entry as the Go type admits it: [size] is a [uint64]. *)
Definition entry_wf (e : partitionEntry) : Prop := 0 <= size e < 2 ^ 64.

(** Sums over a prefix of the entry list. *)
Definition sizes_before (es : list partitionEntry) (i : nat) : Z :=
  sum_sizes (take i es).

Definition names_before (es : list partitionEntry) (i : nat) : Z :=
  stringTableSize (take i es).

(** ** [sort.Slice] with the by-name comparison

    [Build] sorts with [less(i, j) = partEntries[i].name < partEntries[j].name],
    the byte-wise lexicographic order of Go strings. *)

Definition less (a b : partitionEntry) : bool := String.ltb (name a) (name b).

(** Sorted by name: no entry is [less] than one before it. *)
Definition name_le (a b : partitionEntry) : Prop := less b a = false.

(** What [sort.Slice] promises: the same elements, in an order in which no
    later element is [less] than an earlier one.  It is not stable. *)
Definition sort_contract (sortSlice : list partitionEntry -> list partitionEntry)
  : Prop :=
  forall l, Permutation l (sortSlice l) /\ StronglySorted name_le (sortSlice l).

(** On slices of at most twelve elements [sort.Slice] runs this insertion
    sort: [for j := i; j > a && less(j, j-1); j-- { swap(j, j-1) }].  The
    sorted prefix is kept in reverse, nearest element first. *)
Fixpoint sink (x : partitionEntry) (rprefix : list partitionEntry)
  : list partitionEntry :=
  match rprefix with
  | [] => [x]
  | p :: r => if less x p then p :: sink x r else x :: p :: r
  end.

Definition insertionSort (l : list partitionEntry) : list partitionEntry :=
  rev (fold_left (fun rprefix x => sink x rprefix) l []).

(** ** The file system

    Regular files by path.  Directories, permissions, devices and a full
    disk are outside the model: an operation fails only for the reasons
    written below. *)

Abbreviation FS := (gmap string (list byte)).

Record FileInfo := { fi_Name : string; fi_Size : Z (* int64 *) }.

Definition is_slash (c : ascii) : bool := Ascii.eqb c "/"%char.

Fixpoint strip_slashes (r : list ascii) : list ascii :=
  match r with
  | c :: (_ :: _) as r' => if is_slash c then strip_slashes r' else r
  | _ => r
  end.

Fixpoint until_slash (r : list ascii) : list ascii :=
  match r with
  | [] => []
  | c :: r' => if is_slash c then [] else c :: until_slash r'
  end.

(** [basename] of package [os]: trailing slashes are removed, then the
    leading directory.  The characters are handled last one first. *)
Definition basename (p : string) : string :=
  match strip_slashes (rev (list_ascii_of_string p)) with
  | [] => EmptyString
  | c :: r => string_of_list_ascii (rev (c :: until_slash r))
  end.

Fixpoint has_nul (s : string) : bool :=
  match s with
  | EmptyString => false
  | String c s' => Ascii.eqb c zero || has_nul s'
  end.

(** [os.Stat]: fails on a path with a NUL byte and on a missing file;
    otherwise reports the base name and the length. *)
Definition Stat (fs : FS) (p : string) : option FileInfo :=
  if has_nul p then None
  else c ← fs !! p; Some {| fi_Name := basename p; fi_Size := len c |}.

(** [os.Create]: creates or truncates. *)
Definition Create (fs : FS) (p : string) : option FS :=
  if has_nul p || String.eqb p EmptyString then None
  else Some (<[p := []]> fs).

(** [os.Open] for reading. *)
Definition Open (fs : FS) (p : string) : option unit :=
  if has_nul p then None else _ ← fs !! p; Some tt.

(** Writing [data] at position [pos] of a file; a position beyond the end
    leaves a hole of zero bytes. *)
Definition write_at (content : list byte) (pos : nat) (data : list byte)
  : list byte :=
  take pos content ++ repeat x00 (pos - length content) ++ data
  ++ drop (pos + length data) content.

(** [f.Write(data)] with the file position at [pos]: the new file system
    and the number of bytes written. *)
Definition file_write (fs : FS) (p : string) (pos : Z) (data : list byte)
  : option (FS * Z) :=
  content ← fs !! p;
  Some (<[p := write_at content (Z.to_nat pos) data]> fs, len data).

(** [f.Read(buffer)] with the file position at [pos] and [len(buffer) = n]:
    the bytes read, none at the end of the file or for an empty buffer. *)
Definition file_read (fs : FS) (p : string) (pos n : Z) : option (list byte) :=
  content ← fs !! p;
  Some (take (Z.to_nat n) (drop (Z.to_nat pos) content)).

(** ** Errors and outcomes *)

Inductive error :=
| AddFileError (p : string)
| NoInputFiles
| CreateError (p : string)
| WriteHeaderError
| HeaderSizeMismatch (p : string) (expected wrote : Z)
| OpenError (p : string)
| SeekError (p : string)
| ReadError (p : string)
| WriteError (p : string)
| SizeMismatch (p : string) (expected wrote : Z).

(** [Done]: the call returned normally; [Failed]: it returned an error;
    [Panicked]: a run-time panic; [OutOfFuel]: the loop was still running
    when the step budget ran out. *)
Inductive outcome (A : Type) :=
| Done (a : A)
| Failed (e : error)
| Panicked
| OutOfFuel.
Arguments Done {A} a.
Arguments Failed {A} e.
Arguments Panicked {A}.
Arguments OutOfFuel {A}.

(** ** [AddFile] and [AddFiles] *)

Definition AddFile (fs : FS) (b : Builder) (p : string)
  : FS * Builder * option error :=
  match Stat fs p with
  | None => (fs, b, Some (AddFileError p))
  | Some info =>
      (fs,
       set_entries b
         (partEntries b
          ++ [ {| path := p; name := fi_Name info;
                  size := uint64 (fi_Size info);
                  dataOffset := 0; stringOffset := 0 |} ]),
       None)
  end.

Fixpoint AddFiles (fs : FS) (b : Builder) (paths : list string)
  : FS * Builder * option error :=
  match paths with
  | [] => (fs, b, None)
  | p :: rest =>
      match AddFile fs b p with
      | (fs, b, Some err) => (fs, b, Some err)
      | (fs, b, None) => AddFiles fs b rest
      end
  end.

(** An entry as [AddFile] leaves it for a file of [fs]. *)
Definition registered (fs : FS) (e : partitionEntry) : Prop :=
  exists c, has_nul (path e) = false /\ fs !! path e = Some c
            /\ name e = basename (path e) /\ size e = uint64 (len c).

(** ** [copyFileToNSP] and [Build]

    The terminal output of [Build] and the bookkeeping of the progress line
    depend on the wall clock; they influence neither the files nor the
    result and are left to [drawProgressBar] below. *)

(** The copy loop.  [inPos] and [outPos] are the positions of the two file
    handles; a handle is its path. *)
Fixpoint copyLoop (fuel : nat) (b : Builder) (fileInfo : partitionEntry)
    (fs : FS) (inPos outPos bytesWritten processedSize : Z)
  : FS * Z * outcome Z :=
  match fuel with
  | O => (fs, processedSize, OutOfFuel)
  | S fuel =>
      match file_read fs (path fileInfo) inPos (BufferSize b) with
      | None => (fs, processedSize, Failed (ReadError (path fileInfo)))
      | Some chunk =>
          let n := len chunk in
          if n =? 0 then (fs, processedSize, Done bytesWritten)
          else
            match file_write fs (OutputPath b) outPos chunk with
            | None => (fs, processedSize, Failed (WriteError (OutputPath b)))
            | Some (fs, _) =>
                copyLoop fuel b fileInfo fs (inPos + n) (outPos + n)
                  (uint64 (bytesWritten + uint64 n))
                  (uint64 (processedSize + uint64 n))
            end
      end
  end.

Definition copyFileToNSP (fuel : nat) (b : Builder) (fileInfo : partitionEntry)
    (fs : FS) (processedSize : Z) : FS * Z * outcome unit :=
  match Open fs (path fileInfo) with
  | None => (fs, processedSize, Failed (OpenError (path fileInfo)))
  | Some _ =>
      (* Seek(int64(dataOffset), io.SeekStart) rejects a negative offset *)
      let offset := int64 (dataOffset fileInfo) in
      if offset <? 0 then (fs, processedSize, Failed (SeekError (path fileInfo)))
      else
        match copyLoop fuel b fileInfo fs 0 offset 0 processedSize with
        | (fs, processedSize, Done bytesWritten) =>
            if negb (bytesWritten =? size fileInfo)
            then (fs, processedSize,
                  Failed (SizeMismatch (path fileInfo) (size fileInfo) bytesWritten))
            else (fs, processedSize, Done tt)
        | (fs, processedSize, Failed e) => (fs, processedSize, Failed e)
        | (fs, processedSize, Panicked) => (fs, processedSize, Panicked)
        | (fs, processedSize, OutOfFuel) => (fs, processedSize, OutOfFuel)
        end
  end.

(** [for i, file := range b.partEntries { err := copyFileToNSP(..);
    if err != nil { return err } }]. *)
Fixpoint copyEntries (fuel : nat) (b : Builder) (es : list partitionEntry)
    (fs : FS) (processedSize : Z) : FS * Z * outcome unit :=
  match es with
  | [] => (fs, processedSize, Done tt)
  | file :: rest =>
      match copyFileToNSP fuel b file fs processedSize with
      | (fs, processedSize, Done _) => copyEntries fuel b rest fs processedSize
      | other => other
      end
  end.

Definition totalSize_of (es : list partitionEntry) : Z :=
  fold_left (fun total file => uint64 (total + size file)) es 0.

Section Build.

(** The library sort, of which [Build] uses the contract only. *)
Variable sortSlice : list partitionEntry -> list partitionEntry.

(** The first statements of [Build] after the emptiness check: the sort and
    [header := b.generateHeader()]. *)
Definition buildHeader (b : Builder) : option (list byte * list partitionEntry) :=
  generateHeader (sortSlice (partEntries b)).

Definition Build (fuel : nat) (fs : FS) (b : Builder)
  : FS * Builder * outcome unit :=
  if len (partEntries b) =? 0 then (fs, b, Failed NoInputFiles)
  else
    match buildHeader b with
    | None => (fs, set_entries b (sortSlice (partEntries b)), Panicked)
    | Some (header, es) =>
        let b := set_entries b es in
        match Create fs (OutputPath b) with
        | None => (fs, b, Failed (CreateError (OutputPath b)))
        | Some fs =>
            match file_write fs (OutputPath b) 0 header with
            | None => (fs, b, Failed WriteHeaderError)
            | Some (fs, bytesWritten) =>
                if negb (bytesWritten =? len header)
                then (fs, b, Failed (HeaderSizeMismatch (OutputPath b)
                                       (len header) bytesWritten))
                else
                  match make_bytes (BufferSize b) with
                  | None => (fs, b, Panicked)
                  | Some _ =>
                      let '(fs, _, r) :=
                        copyEntries fuel b (partEntries b) fs 0 in
                      (fs, b, r)
                  end
            end
        end
    end.

End Build.

(** The bytes of the source file of an entry, and the payload region that
    a list of entries makes. *)
Definition source_bytes (fs : FS) (e : partitionEntry) : list byte :=
  default [] (fs !! path e).

Definition payload_region (fs : FS) (es : list partitionEntry) : list byte :=
  flat_map (source_bytes fs) es.

(** The data offsets of [es] follow each other from [L] on, in 64 bits. *)
Fixpoint offsets_chain (L : Z) (es : list partitionEntry) : Prop :=
  match es with
  | [] => True
  | e :: rest => dataOffset e = uint64 L /\ offsets_chain (L + size e) rest
  end.

(** File sizes are [int64] values. *)
Definition fs_wf (fs : FS) : Prop :=
  forall p c, fs !! p = Some c -> len c < 2 ^ 63.

(** A source as the copy step needs it: another file than the output,
    present, and as long as recorded. *)
Definition copyable (fs : FS) (b : Builder) (e : partitionEntry) : Prop :=
  path e <> OutputPath b
  /\ exists c, fs !! path e = Some c /\ size e = len c /\ len c < 2 ^ 63.

(** The output file exists and has at least [L] bytes. *)
Definition output_at_least (b : Builder) (L : Z) (fs : FS) : Prop :=
  exists o, fs !! OutputPath b = Some o /\ L <= len o.

(** ** Reading an archive back

    Modelled from the spec: the repository has no reader; these follow the
    archive file format of the specification (entry count at 4, string-table
    size at 8, 24-byte records from 16, then the string table and the
    payload region). *)

Definition archive_count (a : list byte) : Z := u32_at a 4.

Definition archive_data_start (a : list byte) : Z :=
  16 + 24 * archive_count a + u32_at a 8.

Fixpoint cstring (bs : list byte) : list byte :=
  match bs with
  | [] => []
  | c :: bs' => if Byte.eqb c x00 then [] else c :: cstring bs'
  end.

Definition archive_name (a : list byte) (i : Z) : string :=
  string_of_list_byte
    (cstring (drop (Z.to_nat (16 + 24 * archive_count a
                               + u32_at a (16 + 24 * i + 16))) a)).

Definition archive_payload (a : list byte) (i : Z) : list byte :=
  slice a (archive_data_start a + u64_at a (16 + 24 * i))
          (u64_at a (16 + 24 * i + 8)).

(** ** Progress reporting

    [float64] is IEEE 754 binary64, given by the standard library's
    executable specification [SpecFloat] at precision 53 and maximal
    exponent 1024 (round to nearest, ties to even). *)

Definition float64 := spec_float.

(** [float64(n)] for an integer [n]. *)
Definition float64_of_Z (n : Z) : float64 := binary_normalize 53 1024 n 0 false.

Definition fdiv : float64 -> float64 -> float64 := SFdiv 53 1024.
Definition fmul : float64 -> float64 -> float64 := SFmul 53 1024.
(** [x >= y]. *)
Definition fge (x y : float64) : bool := SFleb y x.

(** The integer part of a finite float, towards zero. *)
Definition ftrunc (f : float64) : option Z :=
  match f with
  | S754_zero _ => Some 0
  | S754_finite s m e =>
      Some (cond_Zopp s (if 0 <=? e then Z.pos m * 2 ^ e
                         else Z.pos m / 2 ^ (- e)))
  | _ => None
  end.

Definition min_int64 : Z := - 2 ^ 63.

(** [int(f)].  Go leaves the result open when the value does not fit; the
    amd64 conversion instruction then yields the most negative integer,
    also for infinities and NaN. *)
Definition int_of_float64 (f : float64) : Z :=
  match ftrunc f with
  | Some z => if (min_int64 <=? z) && (z <? 2 ^ 63) then z else min_int64
  | None => min_int64
  end.

(** [strings.Repeat(s, count)] panics on a negative count. *)
Fixpoint repeat_string (s : string) (n : nat) : string :=
  match n with
  | O => EmptyString
  | S n' => (s ++ repeat_string s n')%string
  end.

Definition Repeat (s : string) (count : Z) : option string :=
  if count <? 0 then None else Some (repeat_string s (Z.to_nat count)).

Definition decimal (n : Z) : string :=
  DecimalString.NilZero.string_of_uint (N.to_uint (Z.to_N n)).

(** [%W.Pf]: the exact value rounded to [P] decimals, ties to even, padded
    with spaces on the left to [W] characters. *)
Definition pad_left (w : nat) (s : string) : string :=
  (repeat_string " " (w - String.length s) ++ s)%string.

Definition round_half_even (num den : Z) : Z :=
  let q := num / den in
  let r := num mod den in
  match 2 * r ?= den with
  | Lt => q
  | Gt => q + 1
  | Eq => if Z.even q then q else q + 1
  end.

Definition fixed_digits (P : nat) (s : bool) (q : Z) : string :=
  let scale := 10 ^ Z.of_nat P in
  let frac := decimal (q mod scale) in
  ((if s then "-" else "") ++ decimal (q / scale)
   ++ (if Nat.eqb P 0 then ""
       else "." ++ repeat_string "0" (P - String.length frac) ++ frac))%string.

Definition format_f (W P : nat) (f : float64) : string :=
  pad_left W
    match f with
    | S754_nan => "NaN"%string
    | S754_infinity s => if s then "-Inf"%string else "+Inf"%string
    | S754_zero s => fixed_digits P s 0
    | S754_finite s m e =>
        let scale := 10 ^ Z.of_nat P in
        fixed_digits P s
          (if 0 <=? e then Z.pos m * 2 ^ e * scale
           else round_half_even (Z.pos m * scale) (2 ^ (- e)))
    end.

(** [formatSize]: divide by 1000 while the value is at least 1000 and a
    larger unit remains. *)
Fixpoint formatSize_loop (units : list string) (sz : float64) (unit : string)
  : float64 * string :=
  match units with
  | [] => (sz, unit)
  | u :: rest =>
      if fge sz (float64_of_Z 1000)
      then formatSize_loop rest (fdiv sz (float64_of_Z 1000)) u
      else (sz, unit)
  end.

Definition formatSize (bytes : Z) : float64 * string :=
  formatSize_loop ["KB"; "MB"; "GB"; "TB"]%string (float64_of_Z bytes) "B"%string.

(** The terminal: what has been printed so far. *)
Definition set_lastProgressWidth (b : Builder) (w : Z) : Builder :=
  {| OutputPath := OutputPath b; BufferSize := BufferSize b;
     ShowProgress := ShowProgress b;
     ProgressUpdateFrequency := ProgressUpdateFrequency b;
     lastProgressWidth := w;
     partEntries := partEntries b |}.

Definition CR : string := String (ascii_of_nat 13) EmptyString.

Definition clearLine (b : Builder) : option (Builder * string) :=
  blanks ← Repeat " " (lastProgressWidth b);
  Some (set_lastProgressWidth b 0, (CR ++ blanks ++ CR)%string).

(** [percent := float64(currentSize) / float64(totalSize)] after the guard
    [if totalSize == 0 { totalSize = 1 }]. *)
Definition progress_percent (currentSize totalSize : Z) : float64 :=
  let totalSize := if totalSize =? 0 then 1 else totalSize in
  fdiv (float64_of_Z currentSize) (float64_of_Z totalSize).

(** [filled := min(int(percent*float64(width)), width)]. *)
Definition progress_filled (currentSize totalSize width : Z) : Z :=
  Z.min (int_of_float64 (fmul (progress_percent currentSize totalSize)
                              (float64_of_Z width)))
        width.

(** [bar := strings.Repeat("=", filled) + strings.Repeat(" ", width-filled)]. *)
Definition progress_bar (currentSize totalSize width : Z) : option string :=
  let filled := progress_filled currentSize totalSize width in
  full ← Repeat "=" filled;
  blank ← Repeat " " (width - filled);
  Some (full ++ blank)%string.

(** [drawProgressBar]: the builder afterwards and the text printed, or a
    panic. *)
Definition drawProgressBar (b : Builder) (currentSize totalSize : Z)
    (total : float64) (totalUnit : string) (width : Z)
  : option (Builder * string) :=
  if negb (ShowProgress b) then Some (b, EmptyString)
  else
    let percent := progress_percent currentSize totalSize in
    bar ← progress_bar currentSize totalSize width;
    let '(current, currentUnit) := formatSize currentSize in
    let progressString :=
      (CR ++ "[" ++ bar ++ "] "
       ++ format_f 5 1 (fmul percent (float64_of_Z 100)) ++ "% ("
       ++ format_f 3 2 current ++ " " ++ currentUnit ++ "/"
       ++ format_f 3 2 total ++ " " ++ totalUnit ++ ")")%string in
    '(b, cleared) ← clearLine b;
    Some (set_lastProgressWidth b (slen progressString),
          (cleared ++ progressString)%string).

(** ** The scenario of the specification

    Two files, ["b.bin"] with bytes 01 02 03 and ["a.bin"] with bytes AA BB,
    registered in that order. *)

Definition scenario_fs : FS :=
  <["b.bin"%string := [x01; x02; x03]]> (<["a.bin"%string := [xaa; xbb]]> ∅).

Definition scenario_builder : Builder :=
  {| OutputPath := "out.nsp"; BufferSize := DefaultBufferSize;
     ShowProgress := false; ProgressUpdateFrequency := 100;
     lastProgressWidth := 0; partEntries := [] |}.

Definition scenario_registered : FS * Builder * option error :=
  AddFiles scenario_fs scenario_builder ["b.bin"; "a.bin"]%string.

Definition scenario_header : list byte :=
  bytes_of "PFS0"
  ++ le_bytes 4 2 ++ le_bytes 4 16 ++ le_bytes 4 0
  ++ (le_bytes 8 0 ++ le_bytes 8 2 ++ le_bytes 4 0 ++ le_bytes 4 0)
  ++ (le_bytes 8 2 ++ le_bytes 8 3 ++ le_bytes 4 6 ++ le_bytes 4 0)
  ++ bytes_of "a.bin" ++ [x00] ++ bytes_of "b.bin" ++ [x00]
  ++ [x00; x00; x00; x00].

Definition scenario_entries : list partitionEntry :=
  [ {| path := "a.bin"; name := "a.bin"; size := 2;
       dataOffset := 80; stringOffset := 0 |};
    {| path := "b.bin"; name := "b.bin"; size := 3;
       dataOffset := 82; stringOffset := 6 |} ].

(** ** Entry lists that fill the 32-bit string-table field

    One file with a name of 255 bytes, registered 2^24 times: the names with
    their terminators take 2^24 * 256 = 2^32 bytes. *)

Definition long_name : string := repeat_string "n" 255.

Definition crowd_entry : partitionEntry := mkEntry long_name long_name 0.

Definition crowd : list partitionEntry := repeat crowd_entry (Z.to_nat (2 ^ 24)).

(** The same, followed by one more file, ["z"]; both files are empty. *)
Definition last_entry : partitionEntry := mkEntry "z" "z" 0.

Definition crowd_z : list partitionEntry := crowd ++ [last_entry].

Definition crowd_fs : FS :=
  <[long_name := []]> (<["z"%string := []]> ∅).

Definition crowd_builder : Builder :=
  {| OutputPath := "out.nsp"; BufferSize := DefaultBufferSize;
     ShowProgress := false; ProgressUpdateFrequency := 100;
     lastProgressWidth := 0; partEntries := crowd_z |}.

(** ** Entries whose sizes add up beyond 64 bits

    Three entries of 2^63 - 1 bytes each, the largest size a file can
    report. *)

Definition huge : list partitionEntry :=
  [ mkEntry "a" "a" (2 ^ 63 - 1); mkEntry "b" "b" (2 ^ 63 - 1);
    mkEntry "c" "c" (2 ^ 63 - 1) ].

(** ** Two files with the same base name

    ["x/a.bin"] and ["y/a.bin"] lie in different directories and are both
    stored under the name ["a.bin"]. *)

Definition twins_fs : FS :=
  <["x/a.bin"%string := [x01]]> (<["y/a.bin"%string := [x02; x03]]> ∅).

Definition twins_registered : FS * Builder * option error :=
  AddFiles twins_fs scenario_builder ["x/a.bin"; "y/a.bin"]%string.

(** ** A source that has grown since it was registered

    The scenario again, but ["a.bin"] holds three bytes by the time of the
    build. *)

Definition grown_fs : FS :=
  <["a.bin"%string := [xaa; xbb; xcc]]> scenario_fs.

(** A float that is not negative: zero, finite or infinite with the sign
    bit clear, or NaN. *)
Definition not_negative (f : float64) : Prop :=
  match f with
  | S754_zero s | S754_infinity s | S754_finite s _ _ => s = false
  | S754_nan => True
  end.

(** A builder that shows progress and has printed nothing yet. *)
Definition progress_builder : Builder :=
  {| OutputPath := "out.nsp"; BufferSize := DefaultBufferSize;
     ShowProgress := true; ProgressUpdateFrequency := 100;
     lastProgressWidth := 0; partEntries := [] |}.

(** ** The command line

    [main] after [flag.Parse()]: the values of the flags and the remaining
    arguments.  What it prints is kept as the message it ends with; the
    exit code follows from the message. *)

Record Flags := {
  helpFlag : bool;          (* -h *)
  versionFlag : bool;       (* -v *)
  outputName : string;      (* -o, default "out.nsp" *)
  bufferSize : Z;           (* -buffer, default DefaultBufferSize *)
  showProgress : bool;      (* -progress *)
  ncaFiles : list string    (* flag.Args() *)
}.

Inductive message :=
| Usage                         (* description and usage, exit 0 *)
| Version                       (* version line, exit 0 *)
| NoNCAFiles                    (* "Error: no NCA files specified", exit 1 *)
| FailedToAdd (e : error)       (* exitWithError, exit 1 *)
| FailedToBuild (e : error)     (* exitWithError, exit 1 *)
| SuccessfullyBuilt (out : string).

Definition exit_code (m : message) : Z :=
  match m with
  | Usage | Version | SuccessfullyBuilt _ => 0
  | NoNCAFiles | FailedToAdd _ | FailedToBuild _ => 1
  end.

Definition main_builder (fl : Flags) : Builder :=
  {| OutputPath := outputName fl; BufferSize := bufferSize fl;
     ShowProgress := showProgress fl; ProgressUpdateFrequency := 100;
     lastProgressWidth := 0; partEntries := [] |}.

Definition main (sortSlice : list partitionEntry -> list partitionEntry)
    (fuel : nat) (fs : FS) (fl : Flags) : FS * outcome message :=
  if helpFlag fl then (fs, Done Usage)
  else if versionFlag fl then (fs, Done Version)
  else if len (ncaFiles fl) =? 0 then (fs, Done NoNCAFiles)
  else
    match AddFiles fs (main_builder fl) (ncaFiles fl) with
    | (fs, _, Some err) => (fs, Done (FailedToAdd err))
    | (fs, builder, None) =>
        match Build sortSlice fuel fs builder with
        | (fs, _, Done _) => (fs, Done (SuccessfullyBuilt (outputName fl)))
        | (fs, _, Failed err) => (fs, Done (FailedToBuild err))
        | (fs, _, Panicked) => (fs, Panicked)
        | (fs, _, OutOfFuel) => (fs, OutOfFuel)
        end
    end.

(** The command line of the scenario: [-o out.nsp b.bin a.bin]. *)
Definition scenario_flags : Flags :=
  {| helpFlag := false; versionFlag := false; outputName := "out.nsp";
     bufferSize := DefaultBufferSize; showProgress := false;
     ncaFiles := ["b.bin"; "a.bin"]%string |}.

(** * Properties *)

(** ** Bytes and little-endian words *)

Lemma Z_of_byte_of_Z z : Z_of_byte (byte_of_Z z) = z mod 256.
Proof.
  unfold Z_of_byte, byte_of_Z.
  assert (Hr : 0 <= z mod 256 < 256) by (apply Z.mod_pos_bound; lia).
  destruct (Byte.of_N (Z.to_N (z mod 256))) as [b|] eqn:E.
  - apply Byte.to_of_N in E. simpl. rewrite E. lia.
  - apply Byte.of_N_None_iff in E. lia.
Qed.

Lemma Z_of_byte_range b : 0 <= Z_of_byte b < 256.
Proof.
  unfold Z_of_byte. pose proof (Byte.to_N_bounded b). lia.
Qed.

Lemma length_le_bytes n v : length (le_bytes n v) = n.
Proof. revert v. induction n; intros; simpl; auto. Qed.

Lemma lor_shiftl_8 a b :
  0 <= a < 256 -> 0 <= b -> Z.lor a (Z.shiftl b 8) = a + 256 * b.
Proof.
  intros Ha Hb.
  rewrite Z.shiftl_mul_pow2 by lia.
  assert (Hd : Z.land a (b * 2 ^ 8) = 0).
  { apply Z.bits_inj'. intros n Hn. rewrite Z.land_spec, Z.bits_0.
    destruct (Z.lt_ge_cases n 8).
    - rewrite Z.mul_pow2_bits_low by lia. apply andb_false_r.
    - replace a with (a mod 2 ^ 8) by (apply Z.mod_small; simpl; lia).
      rewrite Z.mod_pow2_bits_high by lia. reflexivity. }
  rewrite <- Z.lxor_lor, <- Z.add_nocarry_lxor by exact Hd.
  change (2 ^ 8) with 256. lia.
Qed.

Lemma le_value_nonneg bs : 0 <= le_value bs.
Proof.
  induction bs as [|b bs IH]; simpl; [lia|].
  pose proof (Z_of_byte_range b).
  rewrite lor_shiftl_8 by lia. lia.
Qed.

(** Loading what was stored gives the value back, truncated to the width. *)
Lemma le_value_le_bytes n v :
  le_value (le_bytes n v) = v mod 2 ^ (8 * Z.of_nat n).
Proof.
  revert v. induction n as [|n IH]; intros v.
  - simpl. rewrite Z.mod_1_r. reflexivity.
  - cbn [le_bytes le_value]. rewrite IH, Z_of_byte_of_Z.
    rewrite lor_shiftl_8.
    + replace (8 * Z.of_nat (S n)) with (8 + 8 * Z.of_nat n) by lia.
      rewrite Z.pow_add_r by lia. change (2 ^ 8) with 256.
      rewrite Z.rem_mul_r by lia.
      rewrite Z.shiftr_div_pow2 by lia. reflexivity.
    + apply Z.mod_pos_bound. lia.
    + apply Z.mod_pos_bound. lia.
Qed.

Lemma le_bytes_mod n v :
  le_bytes n (v mod 2 ^ (8 * Z.of_nat n)) = le_bytes n v.
Proof.
  revert v. induction n as [|n IH]; intros v; [reflexivity|].
  cbn [le_bytes]. f_equal.
  - unfold byte_of_Z. do 3 f_equal.
    replace (8 * Z.of_nat (S n)) with (8 + 8 * Z.of_nat n) by lia.
    rewrite Z.pow_add_r by lia. change (2 ^ 8) with 256.
    rewrite Z.rem_mul_r by lia.
    rewrite (Z.mul_comm 256), Z.mod_add by lia.
    apply Z.mod_mod. lia.
  - rewrite <- IH. rewrite <- (IH (Z.shiftr v 8)). f_equal.
    rewrite !Z.shiftr_div_pow2 by lia. change (2 ^ 8) with 256.
    replace (8 * Z.of_nat (S n)) with (8 + 8 * Z.of_nat n) by lia.
    rewrite Z.pow_add_r by lia. change (2 ^ 8) with 256.
    rewrite Z.rem_mul_r by lia.
    rewrite (Z.mul_comm 256), Z.div_add by lia.
    rewrite (Z.div_small (v mod 256)) by (apply Z.mod_pos_bound; lia).
    rewrite Z.add_0_l. apply Z.mod_mod. apply Z.pow_nonzero; lia.
Qed.

(** ** Stores into a buffer *)

Lemma length_overwrite pos d buf :
  (pos <= length buf)%nat -> length (overwrite pos d buf) = length buf.
Proof.
  intros H. unfold overwrite.
  rewrite !length_app, !length_take, length_drop. lia.
Qed.

Lemma overwrite_mid pre mid post d :
  length mid = length d ->
  overwrite (length pre) d (pre ++ mid ++ post) = pre ++ d ++ post.
Proof.
  intros H. unfold overwrite.
  rewrite take_app_length. f_equal.
  rewrite take_ge by (rewrite !length_app; lia). f_equal.
  rewrite drop_app_add', <- H by reflexivity.
  apply drop_app_length.
Qed.

Lemma take_overwrite n pos d buf :
  (n <= pos)%nat -> (pos <= length buf)%nat ->
  take n (overwrite pos d buf) = take n buf.
Proof.
  intros Hn Hp. unfold overwrite.
  rewrite take_app_le by (rewrite length_take; lia).
  rewrite take_take. f_equal. lia.
Qed.

Lemma repeat_add_app {A} (x : A) n m :
  repeat x (n + m) = repeat x n ++ repeat x m.
Proof. apply repeat_app. Qed.

(** Storing a word at the start of a run of zeros. *)
Lemma put_le_zeros n pre m pos v :
  pos = len pre -> (n <= m)%nat ->
  put_le n (pre ++ repeat x00 m) pos v
  = Some (pre ++ le_bytes n v ++ repeat x00 (m - n)).
Proof.
  intros -> Hm. unfold put_le, len.
  rewrite length_app, repeat_length.
  replace ((0 <=? Z.of_nat (length pre))
           && (Z.of_nat (length pre) + Z.of_nat n
               <=? Z.of_nat (length pre + m)%nat)) with true
    by (symmetry; apply andb_true_iff; split; apply Z.leb_le; lia).
  f_equal. rewrite Nat2Z.id.
  replace m with (n + (m - n))%nat at 1 by lia.
  rewrite repeat_add_app.
  apply overwrite_mid. rewrite repeat_length, length_le_bytes. reflexivity.
Qed.

Lemma length_record_bytes rel sz soff : length (record_bytes rel sz soff) = 24%nat.
Proof. unfold record_bytes. rewrite !length_app, !length_le_bytes. reflexivity. Qed.

Lemma length_records es soff rel : length (records es soff rel) = (24 * length es)%nat.
Proof.
  revert soff rel. induction es as [|e es IH]; intros; [reflexivity|].
  cbn [records]. rewrite length_app, length_record_bytes, IH, !length_cons. lia.
Qed.

Lemma length_assign base es soff rel : length (assign base es soff rel) = length es.
Proof.
  revert soff rel. induction es as [|e es IH]; intros; simpl; [reflexivity|].
  f_equal. apply IH.
Qed.

(** The record loop fills the zeroed partition table with [records] and
    leaves everything around it as it was. *)
Lemma entryLoop_zeros base es : forall pre k pos soff rel,
  pos = len pre ->
  entryLoop base es (pre ++ repeat x00 (24 * length es + k)) pos soff rel
  = Some (pre ++ records es soff rel ++ repeat x00 k, assign base es soff rel).
Proof.
  induction es as [|e es IH]; intros pre k pos soff rel ->.
  - reflexivity.
  - cbn [entryLoop records assign]. unfold PutUint64, PutUint32.
    set (m := (24 * length (e :: es) + k)%nat).
    assert (Hm : m = (24 + (24 * length es + k))%nat)
      by (subst m; rewrite length_cons; lia).
    rewrite (put_le_zeros 8 pre m) by (reflexivity || lia).
    cbn [mbind option_bind].
    rewrite (app_assoc pre).
    rewrite (put_le_zeros 8 (pre ++ _) (m - 8))
      by (unfold len; rewrite ?length_app, ?length_le_bytes; lia).
    cbn [mbind option_bind].
    rewrite (app_assoc (pre ++ _)).
    rewrite (put_le_zeros 4 (_ ++ _) (m - 8 - 8))
      by (unfold len; rewrite ?length_app, ?length_le_bytes; lia).
    cbn [mbind option_bind].
    rewrite (app_assoc ((pre ++ _) ++ _)).
    rewrite (put_le_zeros 4 (_ ++ _) (m - 8 - 8 - 4))
      by (unfold len; rewrite ?length_app, ?length_le_bytes; lia).
    cbn [mbind option_bind].
    rewrite (app_assoc (((pre ++ _) ++ _) ++ _)).
    replace (m - 8 - 8 - 4 - 4)%nat with (24 * length es + k)%nat by lia.
    rewrite IH by (unfold len; rewrite !length_app, !length_le_bytes; lia).
    cbn [mbind option_bind]. f_equal. f_equal.
    unfold record_bytes, next_soff, next_rel. cbn [name set_offsets].
    rewrite <- !app_assoc. reflexivity.
Qed.

(** ** The string table *)

Lemma length_bytes_of s : length (bytes_of s) = String.length s.
Proof.
  unfold bytes_of, list_byte_of_string. rewrite length_map.
  induction s as [|c s IH]; simpl; congruence.
Qed.

Lemma len_bytes_of s : len (bytes_of s) = slen s.
Proof. unfold len, slen. rewrite length_bytes_of. reflexivity. Qed.

Lemma slen_nonneg s : 0 <= slen s.
Proof. unfold slen. lia. Qed.

Lemma fold_names_shift es : forall acc,
  fold_left (fun acc file => acc + (slen (name file) + 1)) es acc
  = acc + stringTableSize es.
Proof.
  unfold stringTableSize.
  induction es as [|e es IH]; intros acc; cbn [fold_left]; [lia|].
  rewrite IH, (IH (0 + _)). lia.
Qed.

Lemma stringTableSize_cons e es :
  stringTableSize (e :: es) = slen (name e) + 1 + stringTableSize es.
Proof.
  unfold stringTableSize at 1. cbn [fold_left]. rewrite fold_names_shift. lia.
Qed.

Lemma stringTableSize_app es1 es2 :
  stringTableSize (es1 ++ es2) = stringTableSize es1 + stringTableSize es2.
Proof.
  induction es1 as [|e es1 IH]; [reflexivity|].
  rewrite <- app_comm_cons, !stringTableSize_cons, IH. lia.
Qed.

Lemma stringTableSize_ge_len es : len es <= stringTableSize es.
Proof.
  unfold len. induction es as [|e es IH]; [reflexivity|].
  rewrite stringTableSize_cons, length_cons.
  pose proof (slen_nonneg (name e)). lia.
Qed.

Lemma stringTableSize_nonneg es : 0 <= stringTableSize es.
Proof. pose proof (stringTableSize_ge_len es). unfold len in *. lia. Qed.

Lemma length_name_table es :
  length (name_table es) = Z.to_nat (stringTableSize es).
Proof.
  induction es as [|e es IH]; [reflexivity|].
  cbn [name_table flat_map]. fold (name_table es).
  rewrite !length_app, IH, length_bytes_of, stringTableSize_cons.
  pose proof (stringTableSize_nonneg es). unfold slen. cbn [length]. lia.
Qed.

Lemma copy_at_zeros pre m pos d :
  pos = len pre -> (length d <= m)%nat ->
  copy_at (pre ++ repeat x00 m) pos d
  = Some (pre ++ d ++ repeat x00 (m - length d)).
Proof.
  intros -> Hm. unfold copy_at, len.
  rewrite length_app, repeat_length.
  replace ((0 <=? Z.of_nat (length pre))
           && (Z.of_nat (length pre) <=? Z.of_nat (length pre + m)%nat))
    with true by (symmetry; apply andb_true_iff; split; apply Z.leb_le; lia).
  f_equal. rewrite Nat2Z.id.
  replace m with (length d + (m - length d))%nat at 1 by lia.
  rewrite repeat_add_app.
  apply overwrite_mid. rewrite repeat_length. reflexivity.
Qed.

(** While the string offsets of the entries have not wrapped, the name loop
    fills the zeroed string table with the null-terminated names. *)
Lemma nameLoop_zeros base sto es : forall pre k soff rel,
  len pre = sto + soff -> 0 <= soff ->
  soff + stringTableSize es <= 2 ^ 32 ->
  nameLoop sto (assign base es soff rel)
    (pre ++ repeat x00 (Z.to_nat (stringTableSize es) + k))
  = Some (pre ++ name_table es ++ repeat x00 k).
Proof.
  induction es as [|e es IH]; intros pre k soff rel Hpre Hs Hfit.
  - reflexivity.
  - cbn [assign nameLoop stringOffset name set_offsets].
    pose proof (stringTableSize_nonneg es) as Hn.
    pose proof (slen_nonneg (name e)) as Hl.
    rewrite stringTableSize_cons in Hfit |- *.
    rewrite copy_at_zeros
      by (rewrite ?length_bytes_of; unfold slen in *; lia).
    cbn [mbind option_bind].
    rewrite length_bytes_of.
    replace (Z.to_nat (slen (name e) + 1 + stringTableSize es) + k
             - String.length (name e))%nat
      with (1 + (Z.to_nat (stringTableSize es) + k))%nat
      by (unfold slen in *; lia).
    rewrite repeat_add_app. cbn [repeat].
    rewrite (app_assoc (bytes_of (name e))), (app_assoc pre).
    destruct es as [|e2 es].
    + cbn [assign nameLoop name_table flat_map].
      rewrite <- !app_assoc. reflexivity.
    + pose proof (stringTableSize_ge_len (e2 :: es)) as Hge.
      unfold len in Hge. rewrite length_cons in Hge.
      assert (Hnext : next_soff soff e = soff + (slen (name e) + 1)).
      { unfold next_soff, uint32.
        rewrite (Z.mod_small (slen (name e) + 1)) by lia.
        apply Z.mod_small. lia. }
      rewrite Hnext, IH.
      * cbn [name_table flat_map]. rewrite <- !app_assoc. reflexivity.
      * unfold len in *. rewrite !length_app, length_bytes_of.
        cbn [length]. unfold slen. lia.
      * lia.
      * lia.
Qed.

(** ** Size and alignment of the header *)

Lemma padding_of_range n : 0 <= n -> 0 <= padding_of n < 16.
Proof.
  intros Hn. unfold padding_of.
  pose proof (Z.rem_bound_pos n 16 Hn ltac:(lia)).
  destruct (0 <? Z.rem n 16) eqn:E; lia.
Qed.

Lemma padding_of_aligned n : 0 <= n -> (n + padding_of n) mod 16 = 0.
Proof.
  intros Hn. unfold padding_of.
  rewrite Z.rem_mod_nonneg by lia.
  pose proof (Z.mod_pos_bound n 16 ltac:(lia)).
  destruct (0 <? n mod 16) eqn:E.
  - rewrite (Z.div_mod n 16) at 1 by lia.
    replace (16 * (n / 16) + n mod 16 + (16 - n mod 16))
      with (0 + (n / 16 + 1) * 16) by lia.
    rewrite Z.mod_add by lia. reflexivity.
  - apply Z.ltb_ge in E. rewrite Z.add_0_r. lia.
Qed.

(** [padding_of] rounds up to the next multiple of 16. *)
Lemma padding_of_round_up n :
  0 <= n -> n + padding_of n = 16 * ((n + 15) / 16).
Proof.
  intros Hn.
  pose proof (padding_of_range n Hn) as Hr.
  pose proof (padding_of_aligned n Hn) as Ha.
  apply Z.div_exact in Ha; [|lia].
  rewrite Ha at 1. f_equal.
  assert (H1 : (n + padding_of n) / 16 <= (n + 15) / 16)
    by (apply Z.div_le_mono; lia).
  assert (H2 : 16 * ((n + 15) / 16) <= n + 15)
    by (apply Z.mul_div_le; lia).
  nia.
Qed.

Lemma unpadded_nonneg es :
  0 <= headerMetadataSize + partitionTableSize es + stringTableSize es.
Proof.
  pose proof (stringTableSize_nonneg es).
  unfold headerMetadataSize, partitionTableSize, len. lia.
Qed.

Lemma header_padding_range es : 0 <= header_padding es < 16.
Proof. apply padding_of_range, unpadded_nonneg. Qed.

Lemma length_prologue es : length (prologue es) = 16%nat.
Proof.
  unfold prologue. rewrite !length_app, !length_le_bytes. reflexivity.
Qed.

Lemma length_header_layout es :
  len (header_layout es) = headerSize es.
Proof.
  unfold len, header_layout, headerSize.
  rewrite !length_app, length_prologue, length_records, length_name_table,
    repeat_length.
  pose proof (header_padding_range es).
  pose proof (stringTableSize_nonneg es).
  unfold headerMetadataSize, partitionTableSize, len. lia.
Qed.

(** [generateHeader] up to the name loop: the allocation, the prologue and
    the record loop always produce the same buffer. *)
Lemma generateHeader_steps es :
  generateHeader es
  = if (0 <=? headerSize es) && (headerSize es <=? maxAlloc)
    then
      h ← nameLoop (headerMetadataSize + partitionTableSize es)
            (assign (uint64 (headerSize es)) es 0 0)
            ((prologue es ++ records es 0 0)
             ++ repeat x00 (Z.to_nat (stringTableSize es)
                            + Z.to_nat (header_padding es)));
      Some (h, assign (uint64 (headerSize es)) es 0 0)
    else None.
Proof.
  pose proof (header_padding_range es) as Hp.
  pose proof (stringTableSize_nonneg es) as Hs.
  unfold generateHeader.
  fold (partitionTableSize es). fold (header_padding es). fold (headerSize es).
  assert (HH : headerSize es
               = 16 + (24 * len es + (stringTableSize es + header_padding es)))
    by (unfold headerSize, headerMetadataSize, partitionTableSize; lia).
  unfold make_bytes.
  destruct ((0 <=? headerSize es) && (headerSize es <=? maxAlloc));
    [|reflexivity].
  cbn [mbind option_bind].
  set (k := (Z.to_nat (stringTableSize es) + Z.to_nat (header_padding es))%nat).
  replace (Z.to_nat (headerSize es))
    with (16 + (24 * length es + k))%nat by (subst k; unfold len in *; lia).
  rewrite <- (app_nil_l (repeat x00 _)).
  rewrite (copy_at_zeros [] _ 0 (bytes_of PFS0Magic))
    by (reflexivity || (cbn; lia)).
  cbn [mbind option_bind app].
  unfold PutUint32.
  rewrite (put_le_zeros 4 (bytes_of PFS0Magic)) by (reflexivity || (cbn; lia)).
  cbn [mbind option_bind].
  rewrite (app_assoc (bytes_of PFS0Magic)).
  rewrite (put_le_zeros 4 (_ ++ _))
    by (unfold len; rewrite ?length_app, ?length_le_bytes; cbn; lia).
  cbn [mbind option_bind].
  rewrite (app_assoc (_ ++ _)).
  rewrite (put_le_zeros 4 (_ ++ _))
    by (unfold len; rewrite ?length_app, ?length_le_bytes; cbn; lia).
  cbn [mbind option_bind].
  rewrite (app_assoc (_ ++ _)).
  replace (16 + (24 * length es + k) - length (bytes_of PFS0Magic) - 4 - 4 - 4)%nat
    with (24 * length es + k)%nat by (cbn; lia).
  rewrite entryLoop_zeros
    by (unfold len; rewrite !length_app, !length_le_bytes; reflexivity).
  cbn [mbind option_bind].
  rewrite (app_assoc (_ ++ _)). subst k.
  unfold prologue. rewrite <- !app_assoc. reflexivity.
Qed.

(** As long as no string offset wraps, [generateHeader] returns exactly
    [header_layout]. *)
Lemma generateHeader_layout es :
  stringTableSize es <= 2 ^ 32 ->
  generateHeader es
  = Some (header_layout es, assign (uint64 (headerSize es)) es 0 0).
Proof.
  intros Hfit.
  pose proof (header_padding_range es) as Hp.
  pose proof (stringTableSize_nonneg es) as Hs.
  pose proof (stringTableSize_ge_len es) as Hl.
  rewrite generateHeader_steps. unfold maxAlloc.
  replace ((0 <=? headerSize es) && (headerSize es <=? 2 ^ 48)) with true
    by (symmetry; apply andb_true_iff; split; apply Z.leb_le;
        unfold headerSize, headerMetadataSize, partitionTableSize, len in *;
        lia).
  rewrite (nameLoop_zeros _ _ _ _ _ 0 0).
  - cbn [mbind option_bind].
    unfold header_layout. rewrite <- !app_assoc. reflexivity.
  - unfold len. rewrite !length_app, length_records, length_prologue.
    unfold headerMetadataSize, partitionTableSize, len. lia.
  - lia.
  - lia.
Qed.

(** ** The order of names *)

Lemma ascii_compare_refl c : Ascii.compare c c = Eq.
Proof. unfold Ascii.compare. apply N.compare_refl. Qed.

Lemma string_compare_refl s : String.compare s s = Eq.
Proof.
  induction s as [|c s IH]; [reflexivity|].
  cbn [String.compare]. rewrite ascii_compare_refl. exact IH.
Qed.

Lemma string_compare_trans_le a : forall b c,
  String.compare a b <> Gt -> String.compare b c <> Gt ->
  String.compare a c <> Gt.
Proof.
  induction a as [|x a IH]; intros [|y b] [|z c]; cbn [String.compare];
    try congruence.
  unfold Ascii.compare.
  destruct (N.compare_spec (N_of_ascii x) (N_of_ascii y)) as [Exy|Lxy|Gxy];
  destruct (N.compare_spec (N_of_ascii y) (N_of_ascii z)) as [Eyz|Lyz|Gyz];
    try congruence; intros Hab Hbc.
  - rewrite Exy, Eyz, N.compare_refl. eauto.
  - rewrite Exy. apply N.compare_lt_iff in Lyz. rewrite Lyz. congruence.
  - rewrite <- Eyz. apply N.compare_lt_iff in Lxy. rewrite Lxy. congruence.
  - assert (L : (N_of_ascii x < N_of_ascii z)%N) by lia.
    apply N.compare_lt_iff in L. rewrite L. congruence.
Qed.

Lemma ltb_false_iff a b : String.ltb a b = false <-> String.compare b a <> Gt.
Proof.
  unfold String.ltb. rewrite (String.compare_antisym b a).
  destruct (String.compare a b); simpl; split; congruence.
Qed.

Lemma ltb_irrefl a : String.ltb a a = false.
Proof. unfold String.ltb. rewrite string_compare_refl. reflexivity. Qed.

Lemma ltb_asym a b : String.ltb a b = true -> String.ltb b a = false.
Proof.
  unfold String.ltb. rewrite (String.compare_antisym b a).
  destruct (String.compare a b); simpl; congruence.
Qed.

Lemma ltb_false_antisym a b :
  String.ltb a b = false -> String.ltb b a = false -> a = b.
Proof.
  unfold String.ltb. rewrite (String.compare_antisym b a).
  destruct (String.compare a b) eqn:E; simpl; try congruence.
  intros _ _. apply String.compare_eq_iff. exact E.
Qed.

Lemma name_le_refl a : name_le a a.
Proof. apply ltb_irrefl. Qed.

Lemma name_le_trans a b c : name_le a b -> name_le b c -> name_le a c.
Proof.
  unfold name_le, less. rewrite !ltb_false_iff.
  apply string_compare_trans_le.
Qed.

#[local] Instance name_le_transitive : Transitive name_le.
Proof. intros a b c. apply name_le_trans. Qed.

Lemma less_name_le a b : less a b = true -> name_le a b.
Proof. apply ltb_asym. Qed.

(** ** The insertion sort meets the contract *)

Lemma sink_perm x rp : Permutation (x :: rp) (sink x rp).
Proof.
  induction rp as [|p r IH]; cbn [sink]; [reflexivity|].
  destruct (less x p); [|reflexivity].
  rewrite perm_swap. apply perm_skip, IH.
Qed.

Lemma sink_sorted x rp :
  StronglySorted (flip name_le) rp -> StronglySorted (flip name_le) (sink x rp).
Proof.
  induction rp as [|p r IH]; intros Hs; cbn [sink].
  - repeat constructor.
  - apply StronglySorted_inv in Hs as [Hr Hp].
    destruct (less x p) eqn:E.
    + constructor; [auto|].
      eapply Permutation_Forall; [apply sink_perm|].
      constructor; [|exact Hp]. apply less_name_le, E.
    + constructor; [constructor; assumption|].
      constructor; [exact E|].
      eapply Forall_impl; [exact Hp|]. cbn. intros q Hq.
      unfold flip in *. eapply name_le_trans; [exact Hq|exact E].
Qed.

Lemma StronglySorted_rev_flip {A} (R : relation A) l :
  StronglySorted (flip R) l -> StronglySorted R (rev l).
Proof.
  induction 1 as [|x l Hs IH Hx]; cbn [rev]; [constructor|].
  apply StronglySorted_app_2; [|exact IH|repeat constructor].
  intros a b Ha Hb. apply list_elem_of_In, in_rev, list_elem_of_In in Ha.
  apply list_elem_of_singleton in Hb as ->.
  rewrite Forall_forall in Hx. apply Hx, Ha.
Qed.

Lemma insertionSort_contract : sort_contract insertionSort.
Proof.
  intros l. unfold insertionSort.
  assert (H : forall rp,
    StronglySorted (flip name_le) rp ->
    Permutation (rev rp ++ l) (rev (fold_left (fun rp x => sink x rp) l rp))
    /\ StronglySorted (flip name_le) (fold_left (fun rp x => sink x rp) l rp)).
  { induction l as [|x l IH]; intros rp Hs; cbn [fold_left].
    - rewrite app_nil_r. auto.
    - destruct (IH (sink x rp) (sink_sorted x rp Hs)) as [Hp Hs'].
      split; [|exact Hs']. rewrite <- Hp.
      rewrite <- (Permutation_rev (sink x rp)), <- sink_perm.
      rewrite <- (Permutation_rev rp). symmetry. apply Permutation_middle. }
  destruct (H [] ltac:(constructor)) as [Hp Hs].
  split; [exact Hp|]. apply StronglySorted_rev_flip, Hs.
Qed.

(** ** Entry registration *)

Lemma Stat_info fs p info :
  Stat fs p = Some info ->
  fi_Name info = basename p /\ 0 <= fi_Size info
  /\ exists c, fs !! p = Some c /\ fi_Size info = len c.
Proof.
  unfold Stat. destruct (has_nul p); [discriminate|].
  destruct (fs !! p) as [c|]; [|discriminate].
  cbn. intros [= <-]. cbn. unfold len. split; [reflexivity|].
  split; [lia|]. eauto.
Qed.

(** C7.  [AddFile] on a path whose stat fails returns an error and leaves
    the builder, with its entry list, as it was; on a path whose stat
    succeeds it returns no error and appends exactly one entry, named by
    the base name of the path and sized as stat reports.  Neither case
    touches the file system. *)
Theorem AddFile_stat fs b p :
  (Stat fs p = None ->
   exists err, AddFile fs b p = (fs, b, Some err))
  /\ (forall info, Stat fs p = Some info ->
      exists b' e,
        AddFile fs b p = (fs, b', None)
        /\ partEntries b' = partEntries b ++ [e]
        /\ path e = p
        /\ name e = basename p
        /\ size e = uint64 (fi_Size info)
        /\ (fi_Size info < 2 ^ 64 -> size e = fi_Size info)
        /\ OutputPath b' = OutputPath b /\ BufferSize b' = BufferSize b
        /\ ShowProgress b' = ShowProgress b).
Proof.
  split.
  - intros H. unfold AddFile. rewrite H. eauto.
  - intros info H. unfold AddFile. rewrite H.
    destruct (Stat_info _ _ _ H) as (Hn & Hs & _).
    eexists _, _. split; [reflexivity|]. cbn.
    repeat split; try reflexivity; try assumption.
    intros Hlt. unfold uint64. apply Z.mod_small. lia.
Qed.

Lemma AddFile_stat_witness :
  (exists err, AddFile scenario_fs scenario_builder "c.bin"
               = (scenario_fs, scenario_builder, Some err))
  /\ (exists b' e,
        AddFile scenario_fs scenario_builder "b.bin" = (scenario_fs, b', None)
        /\ partEntries b' = [e] /\ name e = "b.bin"%string /\ size e = 3).
Proof.
  split.
  - apply (proj1 (AddFile_stat scenario_fs scenario_builder "c.bin")).
    reflexivity.
  - destruct (proj2 (AddFile_stat scenario_fs scenario_builder "b.bin")
                {| fi_Name := "b.bin"; fi_Size := 3 |} eq_refl)
      as (b' & e & H1 & H2 & _ & H4 & _ & H6 & _).
    exists b', e. repeat split; [exact H1|exact H2|exact H4|].
    apply H6. reflexivity.
Defined.

(** ** [Build] without input *)

(** C8.  With no registered entry [Build] returns the no-input error at
    once, whatever the step budget, and the file system (the output path
    with it) and the builder are what they were. *)
Theorem Build_no_input sortSlice fuel fs b :
  partEntries b = [] ->
  Build sortSlice fuel fs b = (fs, b, Failed NoInputFiles).
Proof. intros H. unfold Build. rewrite H. reflexivity. Qed.

Lemma Build_no_input_witness :
  Build insertionSort 0 scenario_fs scenario_builder
  = (scenario_fs, scenario_builder, Failed NoInputFiles)
  /\ scenario_fs !! OutputPath scenario_builder = None.
Proof.
  split.
  - apply (Build_no_input insertionSort 0 scenario_fs scenario_builder).
    reflexivity.
  - reflexivity.
Defined.

(** ** The scenario: two files *)

Lemma sort_two sortSlice a b :
  sort_contract sortSlice -> less a b = true -> sortSlice [b; a] = [a; b].
Proof.
  intros Hc Hlt. destruct (Hc [b; a]) as [Hp Hs].
  apply Permutation_length_2_inv in Hp as [E|E]; [|exact E].
  rewrite E in Hs. apply StronglySorted_inv in Hs as [_ Hs].
  apply Forall_inv in Hs. unfold name_le in Hs. congruence.
Qed.

(** C4, as the code has it.  Registering ["b.bin"] (01 02 03) and then
    ["a.bin"] (AA BB) and building gives the order a.bin, b.bin; the header
    declares 2 entries; the names with their terminators take 12 bytes, the
    padding is 4, and the declared string-table size is their sum, 16; the
    header is 80 bytes long; a.bin lies at 80 with size 2, b.bin at 82 with
    size 3; the output file has 85 bytes. *)
Theorem scenario_two_files sortSlice fuel :
  sort_contract sortSlice -> (2 <= fuel)%nat ->
  exists b1,
    scenario_registered = (scenario_fs, b1, None)
    /\ map name (partEntries b1) = ["b.bin"; "a.bin"]%string
    /\ buildHeader sortSlice b1 = Some (scenario_header, scenario_entries)
    /\ archive_count scenario_header = 2
    /\ stringTableSize scenario_entries = 12
    /\ header_padding scenario_entries = 4
    /\ u32_at scenario_header 8 = 16
    /\ len scenario_header = 80
    /\ map (fun e => (name e, dataOffset e, size e)) scenario_entries
       = [("a.bin"%string, 80, 2); ("b.bin"%string, 82, 3)]
    /\ exists out,
         Build sortSlice fuel scenario_fs b1
         = (<["out.nsp"%string := out]> scenario_fs,
            set_entries b1 scenario_entries, Done tt)
         /\ out = scenario_header ++ [xaa; xbb] ++ [x01; x02; x03]
         /\ len out = 85.
Proof.
  intros Hc Hfuel.
  destruct fuel as [|[|fuel]]; [lia|lia|].
  eexists. split; [reflexivity|].
  split; [reflexivity|].
  assert (Hh : buildHeader sortSlice
                 (set_entries scenario_builder
                    [mkEntry "b.bin" "b.bin" 3; mkEntry "a.bin" "a.bin" 2])
               = Some (scenario_header, scenario_entries)).
  { unfold buildHeader. cbn [partEntries set_entries].
    rewrite (sort_two sortSlice _ _ Hc) by reflexivity.
    vm_compute. reflexivity. }
  split; [exact Hh|].
  do 6 (split; [vm_compute; reflexivity|]).
  eexists. split; [|split; [reflexivity|vm_compute; reflexivity]].
  unfold Build. change (partEntries _) with
    [mkEntry "b.bin" "b.bin" 3; mkEntry "a.bin" "a.bin" 2] at 1.
  cbn [len length Z.of_nat Z.eqb Pos.of_succ_nat Pos.succ].
  match goal with
  | |- context [buildHeader sortSlice ?b] =>
      change (buildHeader sortSlice b) with
        (buildHeader sortSlice
           (set_entries scenario_builder
              [mkEntry "b.bin" "b.bin" 3; mkEntry "a.bin" "a.bin" 2]))
  end.
  rewrite Hh. vm_compute. reflexivity.
Qed.

Lemma scenario_two_files_witness :
  exists b1 out,
    scenario_registered = (scenario_fs, b1, None)
    /\ Build insertionSort 2 scenario_fs b1
       = (<["out.nsp"%string := out]> scenario_fs,
          set_entries b1 scenario_entries, Done tt)
    /\ len out = 85.
Proof.
  destruct (scenario_two_files insertionSort 2 insertionSort_contract
              ltac:(lia))
    as (b1 & H1 & _ & _ & _ & _ & _ & _ & _ & _ & out & H2 & _ & H3).
  exists b1, out. auto.
Defined.

(** C4 as stated fails: the string-table size the header declares is not
    12 but 16, the 12 bytes of names together with the 4 bytes of padding. *)
Lemma scenario_declared_size_is_not_12 :
  exists b1 header es,
    scenario_registered = (scenario_fs, b1, None)
    /\ buildHeader insertionSort b1 = Some (header, es)
    /\ u32_at header 8 <> 12.
Proof.
  eexists _, _, _. split; [reflexivity|]. split; [vm_compute; reflexivity|].
  vm_compute. discriminate.
Qed.

(** ** The progress bar *)

(** C9.  With 50 of 200 bytes processed and a width of 50 the quotient is
    0.25, printed as 25.0%, and the bar has 12 filled cells followed by 38
    blanks; a total of zero is replaced by one before the division. *)
Theorem progress_bar_quarter :
  progress_percent 50 200 = S754_finite false (2 ^ 52) (- 54)
  /\ ftrunc (fmul (progress_percent 50 200) (float64_of_Z 100)) = Some 25
  /\ format_f 5 1 (fmul (progress_percent 50 200) (float64_of_Z 100))
     = " 25.0"%string
  /\ progress_filled 50 200 50 = 12
  /\ progress_bar 50 200 50
     = Some (repeat_string "=" 12 ++ repeat_string " " 38)%string
  /\ (forall currentSize,
        progress_percent currentSize 0
        = fdiv (float64_of_Z currentSize) (float64_of_Z 1))
  /\ (forall b currentSize total totalUnit width,
        drawProgressBar b currentSize 0 total totalUnit width
        = drawProgressBar b currentSize 1 total totalUnit width).
Proof.
  repeat split; try (vm_compute; reflexivity).
Qed.

(** ** Records and names at their positions *)

Lemma records_app l1 l2 soff rel :
  records (l1 ++ l2) soff rel
  = records l1 soff rel ++ records l2 (soff_after soff l1) (rel_after rel l1).
Proof.
  revert soff rel. induction l1 as [|e l1 IH]; intros; [reflexivity|].
  cbn [app records soff_after rel_after fold_left].
  rewrite IH, <- app_assoc. reflexivity.
Qed.

Lemma assign_app base l1 l2 soff rel :
  assign base (l1 ++ l2) soff rel
  = assign base l1 soff rel
    ++ assign base l2 (soff_after soff l1) (rel_after rel l1).
Proof.
  revert soff rel. induction l1 as [|e l1 IH]; intros; [reflexivity|].
  cbn [app assign soff_after rel_after fold_left]. rewrite IH. reflexivity.
Qed.

Lemma name_table_app l1 l2 :
  name_table (l1 ++ l2) = name_table l1 ++ name_table l2.
Proof. unfold name_table. apply flat_map_app. Qed.

Lemma soff_after_nowrap l : forall soff,
  0 <= soff -> soff + stringTableSize l <= 2 ^ 32 ->
  l <> [] \/ soff < 2 ^ 32 ->
  soff_after soff l = uint32 (soff + stringTableSize l).
Proof.
  induction l as [|e l IH]; intros soff H0 Hfit Hne.
  - cbn. unfold uint32. rewrite Z.add_0_r, Z.mod_small; [reflexivity|].
    destruct Hne; [congruence|lia].
  - cbn [soff_after fold_left]. fold (soff_after (next_soff soff e) l).
    rewrite stringTableSize_cons in Hfit |- *.
    pose proof (stringTableSize_nonneg l) as Hn.
    pose proof (slen_nonneg (name e)) as Hl.
    destruct l as [|e2 l].
    + cbn. unfold next_soff, uint32.
      rewrite Z.add_mod_idemp_r by lia. f_equal. lia.
    + pose proof (stringTableSize_ge_len (e2 :: l)) as Hge.
      unfold len in Hge. rewrite length_cons in Hge.
      assert (Hnext : next_soff soff e = soff + (slen (name e) + 1)).
      { unfold next_soff, uint32. rewrite Z.add_mod_idemp_r by lia.
        apply Z.mod_small. lia. }
      rewrite Hnext, IH by (auto; lia). f_equal. lia.
Qed.

Lemma rel_after_sum l : forall rel,
  rel_after rel l = if l is [] then rel else uint64 (rel + sum_sizes l).
Proof.
  induction l as [|e l IH]; intros rel; [reflexivity|].
  cbn [rel_after fold_left sum_sizes]. fold (rel_after (next_rel rel e) l).
  rewrite IH. unfold next_rel, uint64. destruct l as [|e2 l].
  - cbn. f_equal. lia.
  - rewrite Z.add_mod_idemp_l by lia. f_equal. lia.
Qed.

Lemma rel_after_0 l : rel_after 0 l = uint64 (sum_sizes l).
Proof. rewrite rel_after_sum. destruct l; reflexivity. Qed.

Lemma sum_sizes_app l1 l2 : sum_sizes (l1 ++ l2) = sum_sizes l1 + sum_sizes l2.
Proof. induction l1 as [|e l1 IH]; cbn [app sum_sizes]; lia. Qed.

Lemma sum_sizes_nonneg l : Forall entry_wf l -> 0 <= sum_sizes l.
Proof.
  induction 1 as [|e l He _ IH]; cbn [sum_sizes]; [lia|].
  unfold entry_wf in He. lia.
Qed.

Lemma sum_sizes_perm l1 l2 : Permutation l1 l2 -> sum_sizes l1 = sum_sizes l2.
Proof. induction 1; cbn [sum_sizes]; lia. Qed.

Lemma stringTableSize_perm l1 l2 :
  Permutation l1 l2 -> stringTableSize l1 = stringTableSize l2.
Proof. induction 1; rewrite ?stringTableSize_cons; lia. Qed.

(** Reading a slice out of the middle of a buffer. *)
Lemma slice_middle pre x post pos n :
  pos = len pre -> n = len x -> slice (pre ++ x ++ post) pos n = x.
Proof.
  intros -> ->. unfold slice, len. rewrite !Nat2Z.id.
  rewrite drop_app_length. apply take_app_length.
Qed.

Lemma slice_in h pre x post pos n :
  h = pre ++ x ++ post -> pos = len pre -> n = len x -> slice h pos n = x.
Proof. intros ->. apply slice_middle. Qed.

Lemma u_at_in k n h pre v post pos :
  h = pre ++ le_bytes k v ++ post -> pos = len pre -> n = Z.of_nat k ->
  le_value (slice h pos n) = v mod 2 ^ (8 * n).
Proof.
  intros Hh Hpos ->.
  rewrite (slice_in h pre (le_bytes k v) post) by
    (auto; unfold len; rewrite length_le_bytes; reflexivity).
  apply le_value_le_bytes.
Qed.

Lemma len_app {A} (l1 l2 : list A) : len (l1 ++ l2) = len l1 + len l2.
Proof. unfold len. rewrite length_app. lia. Qed.

Lemma len_le_bytes n v : len (le_bytes n v) = Z.of_nat n.
Proof. unfold len. rewrite length_le_bytes. reflexivity. Qed.

Lemma len_records es soff rel : len (records es soff rel) = 24 * len es.
Proof. unfold len. rewrite length_records. lia. Qed.

Lemma len_prologue es : len (prologue es) = 16.
Proof. unfold len. rewrite length_prologue. reflexivity. Qed.

Lemma len_name_table es : len (name_table es) = stringTableSize es.
Proof.
  unfold len. rewrite length_name_table.
  pose proof (stringTableSize_nonneg es). lia.
Qed.

Lemma lookup_assign base es soff rel (i : nat) e :
  es !! i = Some e ->
  assign base es soff rel !! i
  = Some (set_offsets e (uint64 (base + rel_after rel (take i es)))
                        (soff_after soff (take i es))).
Proof.
  revert soff rel i. induction es as [|x es IH]; intros soff rel [|i] H;
    try discriminate.
  - cbn in H. injection H as ->. reflexivity.
  - cbn in H. cbn [assign lookup list_lookup take soff_after rel_after fold_left].
    rewrite (IH _ _ _ H). reflexivity.
Qed.

(** The header of a list split around its [i]-th entry. *)
Lemma header_layout_split l1 e l2 es :
  es = l1 ++ e :: l2 ->
  header_layout es
  = (prologue es ++ records l1 0 0)
    ++ (le_bytes 8 (rel_after 0 l1) ++ le_bytes 8 (size e)
        ++ le_bytes 4 (soff_after 0 l1) ++ le_bytes 4 0)
    ++ (records l2 (soff_after 0 (l1 ++ [e])) (rel_after 0 (l1 ++ [e]))
        ++ name_table l1)
    ++ (bytes_of (name e) ++ [x00])
    ++ name_table l2 ++ repeat x00 (Z.to_nat (header_padding es)).
Proof.
  intros Hes. unfold header_layout. rewrite Hes at 2 3.
  rewrite records_app, name_table_app. cbn [records name_table flat_map].
  unfold record_bytes, soff_after, rel_after.
  rewrite !fold_left_app. cbn [fold_left].
  rewrite <- !app_assoc. reflexivity.
Qed.

Ltac len_simpl :=
  rewrite ?len_app, ?len_prologue, ?len_records, ?len_le_bytes,
    ?len_name_table, ?len_bytes_of;
  unfold len in *; rewrite ?length_app, ?length_cons; cbn [length];
  try reflexivity; try lia.

Ltac read_field k pre :=
  erewrite (u_at_in k _ _ pre);
  [ | rewrite <- !app_assoc; reflexivity | len_simpl | reflexivity ].

(** What a reader finds in a buffer that starts with the prologue. *)
Lemma prologue_fields es rest :
  let a := prologue es ++ rest in
  slice a 0 4 = bytes_of PFS0Magic
  /\ u32_at a 4 = uint32 (len es)
  /\ u32_at a 8 = uint32 (stringTableSize es + header_padding es)
  /\ u32_at a 12 = 0.
Proof.
  intros a. subst a. unfold prologue, u32_at, uint32.
  split; [|split; [|split]].
  - eapply (slice_in _ []); [rewrite <- !app_assoc; reflexivity| |]; reflexivity.
  - read_field 4%nat (bytes_of PFS0Magic).
    change (2 ^ (8 * 4)) with (2 ^ 32). apply Z.mod_mod. lia.
  - read_field 4%nat (bytes_of PFS0Magic ++ le_bytes 4 (len es `mod` 2 ^ 32)).
    change (2 ^ (8 * 4)) with (2 ^ 32). apply Z.mod_mod. lia.
  - read_field 4%nat ((bytes_of PFS0Magic ++ le_bytes 4 (len es `mod` 2 ^ 32))
       ++ le_bytes 4 ((stringTableSize es + header_padding es) `mod` 2 ^ 32)).
    reflexivity.
Qed.

Lemma header_prologue_fields es tail :
  let a := header_layout es ++ tail in
  slice a 0 4 = bytes_of PFS0Magic
  /\ u32_at a 4 = uint32 (len es)
  /\ u32_at a 8 = uint32 (stringTableSize es + header_padding es)
  /\ u32_at a 12 = 0.
Proof.
  cbv zeta. unfold header_layout. rewrite <- !app_assoc.
  apply prologue_fields.
Qed.

(** The record of the entry that follows [l1], in a buffer that starts with
    the prologue and the partition table. *)
Lemma record_fields l1 e l2 rest es (i : nat) :
  es = l1 ++ e :: l2 -> i = length l1 ->
  let a := prologue es ++ records es 0 0 ++ rest in
  u64_at a (16 + 24 * Z.of_nat i) = uint64 (rel_after 0 l1)
  /\ u64_at a (16 + 24 * Z.of_nat i + 8) = uint64 (size e)
  /\ u32_at a (16 + 24 * Z.of_nat i + 16) = uint32 (soff_after 0 l1)
  /\ u32_at a (16 + 24 * Z.of_nat i + 20) = 0.
Proof.
  intros Hes Hi a. subst a. unfold u64_at, u32_at, uint64, uint32.
  assert (Hrec : records es 0 0
                 = records l1 0 0
                   ++ (le_bytes 8 (rel_after 0 l1) ++ le_bytes 8 (size e)
                       ++ le_bytes 4 (soff_after 0 l1) ++ le_bytes 4 0)
                   ++ records l2 (next_soff (soff_after 0 l1) e)
                                 (next_rel (rel_after 0 l1) e))
    by (rewrite Hes, records_app; reflexivity).
  rewrite Hrec.
  set (P := prologue es ++ records l1 0 0).
  assert (HP : len P = 16 + 24 * Z.of_nat i) by (subst P i; len_simpl).
  split; [|split; [|split]].
  - read_field 8%nat P. reflexivity.
  - read_field 8%nat (P ++ le_bytes 8 (rel_after 0 l1)). reflexivity.
  - read_field 4%nat ((P ++ le_bytes 8 (rel_after 0 l1)) ++ le_bytes 8 (size e)).
    reflexivity.
  - read_field 4%nat (((P ++ le_bytes 8 (rel_after 0 l1)) ++ le_bytes 8 (size e))
                       ++ le_bytes 4 (soff_after 0 l1)).
    reflexivity.
Qed.

(** The record and the name of the entry that follows [l1]. *)
Lemma header_entry_fields l1 e l2 tail es (i : nat) :
  es = l1 ++ e :: l2 -> i = length l1 ->
  let a := header_layout es ++ tail in
  u64_at a (16 + 24 * Z.of_nat i) = uint64 (rel_after 0 l1)
  /\ u64_at a (16 + 24 * Z.of_nat i + 8) = uint64 (size e)
  /\ u32_at a (16 + 24 * Z.of_nat i + 16) = uint32 (soff_after 0 l1)
  /\ u32_at a (16 + 24 * Z.of_nat i + 20) = 0
  /\ slice a (16 + 24 * len es + stringTableSize l1) (slen (name e) + 1)
     = bytes_of (name e) ++ [x00].
Proof.
  intros Hes Hi a. subst a.
  destruct (record_fields l1 e l2
              (name_table es ++ repeat x00 (Z.to_nat (header_padding es)) ++ tail)
              es i Hes Hi) as (H1 & H2 & H3 & H4).
  unfold header_layout. rewrite <- !app_assoc.
  split; [exact H1|]. split; [exact H2|]. split; [exact H3|].
  split; [exact H4|].
  assert (Hnt : name_table es
                = name_table l1 ++ (bytes_of (name e) ++ [x00]) ++ name_table l2)
    by (rewrite Hes, name_table_app; reflexivity).
  rewrite Hnt.
  eapply (slice_in _ (prologue es ++ records es 0 0 ++ name_table l1));
    [rewrite <- !app_assoc; reflexivity| |]; len_simpl.
Qed.

Lemma header_padding_zero es tail :
  slice (header_layout es ++ tail)
        (16 + 24 * len es + stringTableSize es) (header_padding es)
  = repeat x00 (Z.to_nat (header_padding es)).
Proof.
  pose proof (header_padding_range es) as Hp.
  unfold header_layout.
  eapply (slice_in _ (prologue es ++ records es 0 0 ++ name_table es));
    [rewrite <- !app_assoc; reflexivity| |].
  - len_simpl.
  - unfold len. rewrite repeat_length. lia.
Qed.

Lemma headerSize_round_up es :
  headerSize es = 16 * ((16 + 24 * len es + stringTableSize es + 15) / 16).
Proof.
  unfold headerSize, header_padding.
  rewrite padding_of_round_up by apply unpadded_nonneg.
  unfold headerMetadataSize, partitionTableSize. do 3 f_equal. lia.
Qed.

Lemma headerSize_aligned es : headerSize es mod 16 = 0.
Proof.
  rewrite headerSize_round_up, Z.mul_comm. apply Z.mod_mul. lia.
Qed.

(** C2, within the range of the 32-bit string-table field.  For every entry
    list whose names with their terminators and the padding stay below
    2^32 bytes, [generateHeader] returns a buffer of
    16 + 24 N + sum (len(name) + 1) bytes rounded up to a multiple of 16.
    It holds the magic at 0, the entry count at 4, the string-table size
    with the padding at 8, zero at 12; for the [i]-th entry of the list a
    record at 16 + 24 i with the data offset relative to the end of the
    header, the size, the string offset (the sum of len(name) + 1 over the
    entries before it) and a zero word; the null-terminated name at
    16 + 24 N plus that string offset; and zero padding.  [Build] calls it
    on the list sorted by name, so the records are then in sorted order. *)
Theorem generateHeader_format es :
  Forall entry_wf es ->
  stringTableSize es + header_padding es < 2 ^ 32 ->
  exists h es',
    generateHeader es = Some (h, es')
    /\ len h = 16 * ((16 + 24 * len es + stringTableSize es + 15) / 16)
    /\ len h mod 16 = 0
    /\ header_padding es = len h - (16 + 24 * len es + stringTableSize es)
    /\ slice h 0 4 = bytes_of "PFS0"
    /\ u32_at h 4 = len es
    /\ u32_at h 8 = stringTableSize es + header_padding es
    /\ u32_at h 12 = 0
    /\ (forall (i : nat) e, es !! i = Some e ->
        u64_at h (16 + 24 * Z.of_nat i) = uint64 (sizes_before es i)
        /\ u64_at h (16 + 24 * Z.of_nat i + 8) = size e
        /\ u32_at h (16 + 24 * Z.of_nat i + 16) = names_before es i
        /\ u32_at h (16 + 24 * Z.of_nat i + 20) = 0
        /\ slice h (16 + 24 * len es + names_before es i) (slen (name e) + 1)
           = bytes_of (name e) ++ [x00]
        /\ exists e',
             es' !! i = Some e'
             /\ path e' = path e /\ name e' = name e /\ size e' = size e
             /\ stringOffset e' = names_before es i
             /\ dataOffset e'
                = uint64 (len h + u64_at h (16 + 24 * Z.of_nat i)))
    /\ slice h (16 + 24 * len es + stringTableSize es) (header_padding es)
       = repeat x00 (Z.to_nat (header_padding es))
    /\ (forall sortSlice b,
          sort_contract sortSlice -> es = sortSlice (partEntries b) ->
          buildHeader sortSlice b = Some (h, es')
          /\ StronglySorted name_le es).
Proof.
  intros Hwf Hfit.
  pose proof (header_padding_range es) as Hp.
  pose proof (stringTableSize_nonneg es) as Hs.
  pose proof (stringTableSize_ge_len es) as Hl.
  assert (HN : 0 <= len es) by (unfold len; lia).
  exists (header_layout es), (assign (uint64 (headerSize es)) es 0 0).
  split; [apply generateHeader_layout; lia|].
  rewrite length_header_layout.
  split; [apply headerSize_round_up|].
  split; [apply headerSize_aligned|].
  split; [unfold headerSize, headerMetadataSize, partitionTableSize; lia|].
  rewrite <- (app_nil_r (header_layout es)).
  destruct (header_prologue_fields es []) as (Hm & Hc & Ht & Hz).
  split; [exact Hm|].
  split; [rewrite Hc; apply Z.mod_small; lia|].
  split; [rewrite Ht; apply Z.mod_small; lia|].
  split; [exact Hz|].
  split; [|split; [apply header_padding_zero|]].
  - intros i e Hi.
    destruct (list_elem_of_split_length _ _ _ Hi) as (l1 & l2 & Hes & Hlen).
    assert (Htake : take i es = l1) by (subst; apply take_app_length).
    unfold sizes_before, names_before. rewrite Htake.
    destruct (header_entry_fields l1 e l2 [] es i Hes Hlen)
      as (H1 & H2 & H3 & H4 & H5).
    assert (Hsts : stringTableSize es
                   = stringTableSize l1 + (slen (name e) + 1 + stringTableSize l2))
      by (rewrite Hes, stringTableSize_app, stringTableSize_cons; lia).
    pose proof (stringTableSize_nonneg l1). pose proof (stringTableSize_nonneg l2).
    pose proof (slen_nonneg (name e)).
    assert (Hsoff : soff_after 0 l1 = stringTableSize l1).
    { rewrite soff_after_nowrap by (try right; lia).
      apply Z.mod_small. lia. }
    assert (He : entry_wf e).
    { rewrite Forall_forall in Hwf. apply Hwf, list_elem_of_In.
      rewrite Hes. apply in_elt. }
    rewrite rel_after_0 in H1.
    split; [rewrite H1; unfold uint64; apply Z.mod_mod; lia|].
    split; [rewrite H2; apply Z.mod_small, He|].
    split; [rewrite H3, Hsoff; apply Z.mod_small; lia|].
    split; [exact H4|].
    split; [exact H5|].
    rewrite (lookup_assign _ _ _ _ _ _ Hi), Htake.
    eexists. split; [reflexivity|]. cbn [path name size set_offsets
      stringOffset dataOffset].
    repeat split; [exact Hsoff|].
    rewrite H1, rel_after_0. unfold uint64.
    rewrite Z.mod_mod by lia.
    rewrite (Z.add_mod_idemp_l (headerSize es)) by lia. reflexivity.
  - intros sortSlice b Hc' Hsort. unfold buildHeader. rewrite <- Hsort.
    split; [rewrite app_nil_r; apply generateHeader_layout; lia|].
    rewrite Hsort. apply Hc'.
Qed.

Lemma generateHeader_format_witness :
  exists h es',
    generateHeader [mkEntry "a.bin" "a.bin" 2; mkEntry "b.bin" "b.bin" 3]
    = Some (h, es')
    /\ len h = 80 /\ u32_at h 4 = 2 /\ u32_at h 8 = 16.
Proof.
  destruct (generateHeader_format
              [mkEntry "a.bin" "a.bin" 2; mkEntry "b.bin" "b.bin" 3])
    as (h & es' & H1 & H2 & _ & _ & _ & H3 & H4 & _).
  - repeat constructor; cbn; lia.
  - vm_compute. reflexivity.
  - exists h, es'. split; [exact H1|]. split; [exact H2|].
    split; [exact H3|exact H4].
Defined.

Lemma stringTableSize_repeat e n :
  stringTableSize (repeat e n) = Z.of_nat n * (slen (name e) + 1).
Proof.
  induction n as [|n IH]; [reflexivity|].
  cbn [repeat]. rewrite stringTableSize_cons, IH. lia.
Qed.

Lemma crowd_sizes :
  len crowd = 2 ^ 24 /\ stringTableSize crowd = 2 ^ 32
  /\ header_padding crowd = 0.
Proof.
  assert (Hlen : len crowd = 2 ^ 24).
  { unfold crowd, len. rewrite repeat_length. apply Z2Nat.id. lia. }
  assert (Hsts : stringTableSize crowd = 2 ^ 32).
  { unfold crowd. rewrite stringTableSize_repeat, Z2Nat.id by lia.
    reflexivity. }
  split; [exact Hlen|]. split; [exact Hsts|].
  unfold header_padding, partitionTableSize. rewrite Hlen, Hsts. reflexivity.
Qed.

(** C2 as stated fails on [crowd]: the names with their terminators and
    the padding take 2^32 bytes, and the field at offset 8 reads 0. *)
Lemma crowd_string_table_size_wraps :
  exists h es',
    generateHeader crowd = Some (h, es')
    /\ stringTableSize crowd + header_padding crowd = 2 ^ 32
    /\ u32_at h 8 = 0
    /\ u32_at h 8 <> stringTableSize crowd + header_padding crowd.
Proof.
  destruct crowd_sizes as (Hlen & Hsts & Hpad).
  eexists _, _. split; [apply generateHeader_layout; lia|].
  rewrite <- (app_nil_r (header_layout crowd)).
  destruct (header_prologue_fields crowd []) as (_ & _ & Ht & _).
  rewrite Ht, Hsts, Hpad. split; [reflexivity|].
  split; [reflexivity|discriminate].
Qed.

(** ** What [generateHeader] returns on any entry list *)

Lemma nameLoop_keeps sto es : forall h h',
  nameLoop sto es h = Some h' ->
  0 <= sto -> Forall (fun e => 0 <= stringOffset e) es ->
  length h' = length h
  /\ take (Z.to_nat sto) h' = take (Z.to_nat sto) h.
Proof.
  induction es as [|e es IH]; intros h h' Hrun Hsto Hoff; cbn [nameLoop] in Hrun.
  - injection Hrun as ->. auto.
  - apply Forall_cons in Hoff as [He Hes].
    unfold copy_at in Hrun.
    destruct ((0 <=? sto + stringOffset e) && (sto + stringOffset e <=? len h))
      eqn:Hin; [|discriminate].
    apply andb_true_iff in Hin as [_ Hin%Z.leb_le]. unfold len in Hin.
    cbn [mbind option_bind] in Hrun.
    destruct (IH _ _ Hrun Hsto Hes) as [Hlen Htake].
    rewrite Hlen, Htake, length_overwrite by lia.
    split; [reflexivity|]. apply take_overwrite; lia.
Qed.

Lemma uint32_nonneg z : 0 <= uint32 z.
Proof. unfold uint32. apply Z.mod_pos_bound. lia. Qed.

Lemma assign_soff_nonneg base es : forall soff rel,
  0 <= soff -> Forall (fun e => 0 <= stringOffset e) (assign base es soff rel).
Proof.
  induction es as [|e es IH]; intros soff rel H; cbn [assign]; constructor.
  - exact H.
  - apply IH, uint32_nonneg.
Qed.

(** Whenever [generateHeader] returns, the header has the computed size and
    starts with the prologue and the partition table, and the entries come
    back with the offsets of [assign]. *)
Lemma generateHeader_inv es h es' :
  generateHeader es = Some (h, es') ->
  len h = headerSize es
  /\ es' = assign (uint64 (headerSize es)) es 0 0
  /\ exists rest, h = prologue es ++ records es 0 0 ++ rest.
Proof.
  rewrite generateHeader_steps.
  destruct ((0 <=? headerSize es) && (headerSize es <=? maxAlloc));
    [|discriminate].
  destruct (nameLoop _ _ _) as [h1|] eqn:Hloop; [|discriminate].
  cbn [mbind option_bind]. intros [= <- <-].
  pose proof (header_padding_range es) as Hp.
  pose proof (stringTableSize_nonneg es) as Hs.
  apply nameLoop_keeps in Hloop as [Hlen Htake].
  - split; [|split; [reflexivity|]].
    + unfold len. rewrite Hlen, !length_app, length_prologue, length_records,
        repeat_length.
      unfold headerSize, headerMetadataSize, partitionTableSize, len. lia.
    + exists (drop (Z.to_nat (headerMetadataSize + partitionTableSize es)) h1).
      rewrite <- (take_drop (Z.to_nat (headerMetadataSize + partitionTableSize es))
                            h1) at 1.
      rewrite Htake, app_assoc. f_equal.
      apply take_app_length'.
      rewrite length_app, length_prologue, length_records.
      unfold headerMetadataSize, partitionTableSize, len. lia.
  - unfold headerMetadataSize, partitionTableSize, len. lia.
  - apply assign_soff_nonneg. lia.
Qed.

Lemma assign_fields base es soff rel (i : nat) e' :
  assign base es soff rel !! i = Some e' ->
  exists e, es !! i = Some e
    /\ path e' = path e /\ name e' = name e /\ size e' = size e
    /\ dataOffset e' = uint64 (base + rel_after rel (take i es))
    /\ stringOffset e' = soff_after soff (take i es).
Proof.
  intros H.
  destruct (es !! i) as [e|] eqn:Hi.
  - rewrite (lookup_assign _ _ _ _ _ _ Hi) in H. injection H as <-.
    exists e. cbn. auto 10.
  - apply lookup_ge_None in Hi.
    apply lookup_lt_Some in H. rewrite length_assign in H. lia.
Qed.

Lemma Forall_name_le_assign x x' base es soff rel :
  name x' = name x ->
  Forall (name_le x) es -> Forall (name_le x') (assign base es soff rel).
Proof.
  intros Hx H. revert soff rel.
  induction H as [|e es He _ IH]; intros; cbn [assign]; constructor; [|apply IH].
  unfold name_le, less in *. cbn [name set_offsets]. rewrite Hx. exact He.
Qed.

Lemma StronglySorted_assign base es soff rel :
  StronglySorted name_le es ->
  StronglySorted name_le (assign base es soff rel).
Proof.
  intros H. revert soff rel.
  induction H as [|e es _ IH He]; intros; cbn [assign]; constructor.
  - apply IH.
  - eapply Forall_name_le_assign; [reflexivity|exact He].
Qed.

Lemma sum_sizes_take_le es (i : nat) :
  Forall entry_wf es -> 0 <= sum_sizes (take i es) <= sum_sizes es.
Proof.
  intros Hwf. rewrite <- (take_drop i es) at 3. rewrite sum_sizes_app.
  pose proof (sum_sizes_nonneg (take i es) (Forall_take _ _ _ Hwf)).
  pose proof (sum_sizes_nonneg (drop i es) (Forall_drop _ _ _ Hwf)). lia.
Qed.

Lemma sum_sizes_take_S es (i : nat) e :
  es !! i = Some e -> sum_sizes (take (S i) es) = sum_sizes (take i es) + size e.
Proof.
  intros Hi. rewrite (take_S_r _ _ _ Hi), sum_sizes_app. cbn. lia.
Qed.

(** ** Data offsets *)

Lemma sum_sizes_take_assign base es soff rel (i : nat) :
  sum_sizes (take i (assign base es soff rel)) = sum_sizes (take i es).
Proof.
  revert soff rel i. induction es as [|e es IH]; intros soff rel [|i];
    try reflexivity.
  cbn [assign take sum_sizes size set_offsets]. rewrite IH. reflexivity.
Qed.

Lemma dataOffset_assign H es (i : nat) e' :
  Forall entry_wf es -> 0 <= H -> H + sum_sizes es < 2 ^ 64 ->
  assign (uint64 H) es 0 0 !! i = Some e' ->
  dataOffset e' = H + sum_sizes (take i es)
  /\ uint64 (rel_after 0 (take i es)) = sum_sizes (take i es).
Proof.
  intros Hwf H0 Hfit Hi.
  destruct (assign_fields _ _ _ _ _ _ Hi) as (e & _ & _ & _ & _ & Hd & _).
  pose proof (sum_sizes_take_le es i Hwf) as Hle.
  rewrite Hd, rel_after_0. unfold uint64.
  rewrite Z.mod_mod by lia.
  rewrite (Z.mod_small (sum_sizes _)) by lia.
  rewrite (Z.mod_small H) by lia.
  split; [apply Z.mod_small; lia|reflexivity].
Qed.

(** C3, within 64 bits.  When the header size and the sizes of the entries
    add up to less than 2^64, the entries come back from header generation
    sorted by name, the first at the end of the header, each next one where
    the one before it ends, so the offsets never decrease; and the record
    of each entry holds, as its offset relative to the end of the header,
    the sum of the sizes of the entries before it. *)
Theorem dataOffsets_contiguous sortSlice b h es' :
  sort_contract sortSlice ->
  buildHeader sortSlice b = Some (h, es') ->
  Forall entry_wf (partEntries b) ->
  len h + sum_sizes (partEntries b) < 2 ^ 64 ->
  StronglySorted name_le es'
  /\ length es' = length (partEntries b)
  /\ (forall e0, es' !! 0%nat = Some e0 -> dataOffset e0 = len h)
  /\ (forall (i : nat) e1 e2,
        es' !! i = Some e1 -> es' !! S i = Some e2 ->
        dataOffset e2 = dataOffset e1 + size e1
        /\ dataOffset e1 <= dataOffset e2)
  /\ (forall (i : nat) e',
        es' !! i = Some e' ->
        u64_at h (16 + 24 * Z.of_nat i) = sizes_before es' i
        /\ dataOffset e' = len h + sizes_before es' i).
Proof.
  intros Hc Hh Hwf Hfit. unfold buildHeader in Hh.
  destruct (Hc (partEntries b)) as [Hperm Hsorted].
  set (es := sortSlice (partEntries b)) in *.
  assert (Hwf' : Forall entry_wf es)
    by (eapply Permutation_Forall; [exact Hperm|exact Hwf]).
  rewrite (sum_sizes_perm _ _ Hperm) in Hfit.
  destruct (generateHeader_inv _ _ _ Hh) as (Hlen & Hes' & rest & Hrest).
  assert (H0 : 0 <= headerSize es) by (rewrite <- Hlen; unfold len; lia).
  rewrite Hlen in *.
  split; [rewrite Hes'; apply StronglySorted_assign, Hsorted|].
  split; [rewrite Hes', length_assign; symmetry;
          apply Permutation_length, Hperm|].
  assert (Hoff : forall (i : nat) e', es' !! i = Some e' ->
            dataOffset e' = headerSize es + sum_sizes (take i es)
            /\ uint64 (rel_after 0 (take i es)) = sum_sizes (take i es)
            /\ exists e, es !! i = Some e /\ size e' = size e).
  { intros i e' Hi. rewrite Hes' in Hi.
    destruct (dataOffset_assign _ _ _ _ Hwf' H0 Hfit Hi) as [Hd Hr].
    destruct (assign_fields _ _ _ _ _ _ Hi) as (e & He & _ & _ & Hs & _).
    eauto. }
  split; [|split].
  - intros e0 H. destruct (Hoff _ _ H) as (Hd & _). rewrite Hd, take_0.
    cbn [sum_sizes]. lia.
  - intros i e1 e2 H1 H2.
    destruct (Hoff _ _ H1) as (Hd1 & _ & e & He & Hs1).
    destruct (Hoff _ _ H2) as (Hd2 & _).
    rewrite Hd1, Hd2, Hs1, (sum_sizes_take_S _ _ _ He).
    assert (entry_wf e) as [? ?] by (eapply Forall_lookup_1; eauto).
    lia.
  - intros i e' Hi. destruct (Hoff _ _ Hi) as (Hd & Hr & e & He & _).
    unfold sizes_before. rewrite Hes', sum_sizes_take_assign.
    split; [|exact Hd].
    destruct (list_elem_of_split_length _ _ _ He) as (l1 & l2 & Hsplit & Hi').
    destruct (record_fields l1 e l2 rest es i Hsplit Hi') as (H1 & _).
    rewrite <- Hrest in H1. rewrite H1.
    replace l1 with (take i es) by (rewrite Hsplit, Hi'; apply take_app_length).
    exact Hr.
Qed.

Lemma dataOffsets_contiguous_witness :
  exists h es',
    buildHeader insertionSort
      (set_entries scenario_builder
         [mkEntry "b.bin" "b.bin" 3; mkEntry "a.bin" "a.bin" 2])
    = Some (h, es')
    /\ (forall e0, es' !! 0%nat = Some e0 -> dataOffset e0 = len h)
    /\ (forall (i : nat) e1 e2,
          es' !! i = Some e1 -> es' !! S i = Some e2 ->
          dataOffset e2 = dataOffset e1 + size e1
          /\ dataOffset e1 <= dataOffset e2).
Proof.
  exists scenario_header, scenario_entries.
  assert (Hh : buildHeader insertionSort
                 (set_entries scenario_builder
                    [mkEntry "b.bin" "b.bin" 3; mkEntry "a.bin" "a.bin" 2])
               = Some (scenario_header, scenario_entries))
    by (vm_compute; reflexivity).
  split; [exact Hh|].
  destruct (dataOffsets_contiguous insertionSort _ _ _
              insertionSort_contract Hh) as (_ & _ & H0 & H1 & _).
  - repeat constructor; cbn; lia.
  - vm_compute. reflexivity.
  - split; [exact H0|exact H1].
Defined.

(** C3 as stated fails on [huge]: the third data offset has wrapped around
    2^64 and lies below the second. *)
Lemma huge_offsets_wrap :
  exists h es' e1 e2,
    buildHeader insertionSort (set_entries scenario_builder huge) = Some (h, es')
    /\ es' !! 1%nat = Some e1 /\ es' !! 2%nat = Some e2
    /\ dataOffset e2 < dataOffset e1
    /\ dataOffset e2 <> dataOffset e1 + size e1.
Proof.
  eexists _, _, _, _.
  split; [vm_compute; reflexivity|].
  split; [reflexivity|]. split; [reflexivity|].
  split; [reflexivity|]. vm_compute. discriminate.
Qed.

(** ** Names without NUL bytes *)

Lemma has_nul_false s :
  has_nul s = false <-> Forall (fun c => c <> zero) (list_ascii_of_string s).
Proof.
  induction s as [|c s IH]; cbn [has_nul list_ascii_of_string].
  - split; [constructor|reflexivity].
  - rewrite orb_false_iff, IH, Forall_cons, Ascii.eqb_neq. reflexivity.
Qed.

Lemma Forall_strip_slashes (P : ascii -> Prop) r :
  Forall P r -> Forall P (strip_slashes r).
Proof.
  induction 1 as [|c r Hc Hr IH]; [constructor|].
  cbn [strip_slashes]. destruct r as [|c2 r]; [repeat constructor; exact Hc|].
  destruct (is_slash c); [exact IH|constructor; assumption].
Qed.

Lemma Forall_until_slash (P : ascii -> Prop) r :
  Forall P r -> Forall P (until_slash r).
Proof.
  induction 1 as [|c r Hc Hr IH]; [constructor|].
  cbn [until_slash]. destruct (is_slash c); constructor; assumption.
Qed.

Lemma basename_no_nul p : has_nul p = false -> has_nul (basename p) = false.
Proof.
  rewrite !has_nul_false. intros H. unfold basename.
  apply Forall_rev, (Forall_strip_slashes _ _) in H.
  destruct (strip_slashes _) as [|c r]; [constructor|].
  rewrite list_ascii_of_string_of_list_ascii.
  apply Forall_rev. apply Forall_cons in H as [Hc Hr].
  constructor; [exact Hc|]. apply Forall_until_slash, Hr.
Qed.

Lemma registered_no_nul fs e : registered fs e -> has_nul (name e) = false.
Proof.
  intros (c & Hp & _ & Hn & _). rewrite Hn. apply basename_no_nul, Hp.
Qed.

Lemma registered_wf fs e : registered fs e -> entry_wf e.
Proof.
  intros (c & _ & _ & _ & Hs). unfold entry_wf. rewrite Hs.
  apply Z.mod_pos_bound. lia.
Qed.

Lemma byte_of_ascii_zero c : byte_of_ascii c = x00 -> c = zero.
Proof.
  intros H. rewrite <- (ascii_of_byte_of_ascii c), H. reflexivity.
Qed.

Lemma bytes_of_no_nul s :
  has_nul s = false -> Forall (fun c => c <> x00) (bytes_of s).
Proof.
  rewrite has_nul_false. unfold bytes_of, list_byte_of_string.
  intros H. apply Forall_map. eapply Forall_impl; [exact H|].
  cbn. intros c Hc E. apply Hc, byte_of_ascii_zero, E.
Qed.

Lemma cstring_terminated bs rest :
  Forall (fun c => c <> x00) bs -> cstring (bs ++ x00 :: rest) = bs.
Proof.
  induction 1 as [|c bs Hc _ IH]; [reflexivity|].
  cbn [app cstring]. destruct (Byte.eqb c x00) eqn:E.
  - apply Byte.byte_dec_bl in E. contradiction.
  - rewrite IH. reflexivity.
Qed.

(** [AddFile] and [AddFiles] leave the file system alone and add registered
    entries only. *)
Lemma AddFile_registered fs b p fs' b' :
  AddFile fs b p = (fs', b', None) ->
  fs' = fs /\ exists e, partEntries b' = partEntries b ++ [e] /\ path e = p
                        /\ registered fs e
           /\ OutputPath b' = OutputPath b /\ BufferSize b' = BufferSize b.
Proof.
  unfold AddFile. destruct (Stat fs p) as [info|] eqn:Hstat; [|discriminate].
  intros [= <- <-]. split; [reflexivity|].
  eexists. split; [reflexivity|]. split; [reflexivity|].
  split; [|split; reflexivity].
  destruct (Stat_info _ _ _ Hstat) as (Hn & _ & c & Hc & Hs).
  unfold Stat in Hstat. destruct (has_nul p) eqn:Hnul; [discriminate|].
  exists c. cbn. rewrite Hn, Hs. auto.
Qed.

Lemma AddFiles_registered paths : forall fs b fs' b',
  AddFiles fs b paths = (fs', b', None) ->
  Forall (registered fs) (partEntries b) ->
  fs' = fs /\ Forall (registered fs) (partEntries b')
  /\ map path (partEntries b') = map path (partEntries b) ++ paths
  /\ OutputPath b' = OutputPath b /\ BufferSize b' = BufferSize b.
Proof.
  induction paths as [|p paths IH]; intros fs b fs' b' H Hreg;
    cbn [AddFiles] in H.
  - injection H as <- <-. rewrite app_nil_r. auto.
  - destruct (AddFile fs b p) as [[fs1 b1] [err|]] eqn:Hadd; [discriminate|].
    apply AddFile_registered in Hadd as (-> & e & He & Hp & Hr & Ho & Hb).
    apply IH in H as (-> & H1 & H2 & H3 & H4).
    + split; [reflexivity|]. split; [exact H1|].
      rewrite H2, He, map_app, <- app_assoc, H3, H4, Ho, Hb. cbn [map app].
      rewrite Hp. auto.
    + rewrite He. apply Forall_app. split; [exact Hreg|].
      repeat constructor. exact Hr.
Qed.

(** ** Reading names and payloads back *)

Lemma drop_in {A} (h pre x : list A) (pos : nat) :
  h = pre ++ x -> pos = length pre -> drop pos h = x.
Proof. intros -> ->. apply drop_app_length. Qed.

Lemma archive_count_layout es tail :
  stringTableSize es + header_padding es < 2 ^ 32 ->
  archive_count (header_layout es ++ tail) = len es
  /\ archive_data_start (header_layout es ++ tail) = headerSize es.
Proof.
  intros Hfit.
  pose proof (header_padding_range es) as Hp.
  pose proof (stringTableSize_nonneg es) as Hs.
  pose proof (stringTableSize_ge_len es) as Hl.
  destruct (header_prologue_fields es tail) as (_ & Hc & Ht & _).
  unfold archive_data_start, archive_count. rewrite Hc, Ht. unfold uint32.
  rewrite !Z.mod_small by (unfold len in *; lia).
  split; [reflexivity|].
  unfold headerSize, headerMetadataSize, partitionTableSize. lia.
Qed.

(** The name a reader finds for the entry that follows [l1]. *)
Lemma archive_name_layout l1 e l2 tail es (i : nat) :
  es = l1 ++ e :: l2 -> i = length l1 ->
  stringTableSize es + header_padding es < 2 ^ 32 ->
  has_nul (name e) = false ->
  archive_name (header_layout es ++ tail) (Z.of_nat i) = name e.
Proof.
  intros Hes Hi Hfit Hnul.
  pose proof (header_padding_range es) as Hp.
  pose proof (stringTableSize_nonneg l1) as Hs1.
  pose proof (stringTableSize_nonneg l2) as Hs2.
  pose proof (slen_nonneg (name e)) as Hn.
  assert (Hsts : stringTableSize es
                 = stringTableSize l1 + (slen (name e) + 1 + stringTableSize l2))
    by (rewrite Hes, stringTableSize_app, stringTableSize_cons; lia).
  destruct (archive_count_layout es tail Hfit) as [Hc _].
  destruct (header_entry_fields l1 e l2 tail es i Hes Hi)
    as (_ & _ & H3 & _ & _).
  unfold archive_name. rewrite Hc, H3.
  rewrite soff_after_nowrap by (try right; lia).
  unfold uint32. rewrite Z.mod_mod by lia.
  rewrite (Z.mod_small (0 + stringTableSize l1)) by lia.
  assert (Hnt : name_table es
                = name_table l1 ++ (bytes_of (name e) ++ [x00]) ++ name_table l2)
    by (rewrite Hes, name_table_app; reflexivity).
  erewrite (drop_in _ (prologue es ++ records es 0 0 ++ name_table l1)).
  - rewrite cstring_terminated by (apply bytes_of_no_nul, Hnul).
    apply string_of_list_byte_of_string.
  - unfold header_layout. rewrite Hnt, <- !app_assoc. reflexivity.
  - rewrite !length_app, length_prologue, length_records, length_name_table.
    unfold len. lia.
Qed.

Lemma header_padding_perm l1 l2 :
  Permutation l1 l2 -> header_padding l1 = header_padding l2.
Proof.
  intros H. unfold header_padding, partitionTableSize, len.
  rewrite (stringTableSize_perm _ _ H), (Permutation_length H). reflexivity.
Qed.

Lemma headerSize_perm l1 l2 :
  Permutation l1 l2 -> headerSize l1 = headerSize l2.
Proof.
  intros H. unfold headerSize, partitionTableSize, len.
  rewrite (stringTableSize_perm _ _ H), (Permutation_length H),
    (header_padding_perm _ _ H). reflexivity.
Qed.

(** ** Sorted lists *)

Lemma StronglySorted_lookup {A} (R : relation A) l (i j : nat) x y :
  StronglySorted R l -> (i < j)%nat ->
  l !! i = Some x -> l !! j = Some y -> R x y.
Proof.
  intros Hs. revert i j. induction Hs as [|a l Hs IH Ha]; intros i j Hij Hi Hj.
  - discriminate.
  - destruct j as [|j]; [lia|]. cbn in Hj. destruct i as [|i].
    + cbn in Hi. injection Hi as <-.
      rewrite Forall_forall in Ha. apply Ha, list_elem_of_lookup. eauto.
    + cbn in Hi. apply (IH i j); [lia|assumption|assumption].
Qed.

Lemma ltb_total_neq a b : a <> b -> String.ltb b a = false -> String.ltb a b = true.
Proof.
  intros Hne Hba. destruct (String.ltb a b) eqn:E; [reflexivity|].
  exfalso. apply Hne, ltb_false_antisym; assumption.
Qed.

(** With pairwise distinct names the sorted order is unique: the result of
    the sort does not depend on the order of registration. *)
Lemma sort_unique sortSlice l1 l2 :
  sort_contract sortSlice -> Permutation l1 l2 -> NoDup (map name l1) ->
  sortSlice l1 = sortSlice l2.
Proof.
  intros Hc Hperm Hnd.
  destruct (Hc l1) as [Hp1 Hs1], (Hc l2) as [Hp2 Hs2].
  eapply StronglySorted_unique_strong; [|exact Hs1|exact Hs2|].
  - intros x1 x2 Hx1 Hx2 H12 H21.
    assert (Hn : name x1 = name x2).
    { unfold name_le, less in *. apply ltb_false_antisym; assumption. }
    rewrite <- Hp1 in Hx1. rewrite <- Hp2, <- Hperm in Hx2.
    apply list_elem_of_lookup in Hx1 as [i Hi], Hx2 as [j Hj].
    assert (i = j).
    { eapply NoDup_lookup; [exact Hnd| |].
      - rewrite list_lookup_fmap, Hi. reflexivity.
      - rewrite list_lookup_fmap, Hj. cbn. f_equal. symmetry. exact Hn. }
    subst j. congruence.
  - rewrite <- Hp1, <- Hp2. exact Hperm.
Qed.

(** ** Entry count and order of the header [Build] produces *)

Lemma header_names sortSlice fs b :
  sort_contract sortSlice ->
  Forall (registered fs) (partEntries b) ->
  stringTableSize (partEntries b) + header_padding (partEntries b) < 2 ^ 32 ->
  let es := sortSlice (partEntries b) in
  buildHeader sortSlice b
  = Some (header_layout es, assign (uint64 (headerSize es)) es 0 0)
  /\ forall tail (i : nat) e, es !! i = Some e ->
       archive_name (header_layout es ++ tail) (Z.of_nat i) = name e.
Proof.
  intros Hc Hreg Hfit es.
  destruct (Hc (partEntries b)) as [Hperm Hsorted]. fold es in Hperm, Hsorted.
  rewrite (stringTableSize_perm _ _ Hperm), (header_padding_perm _ _ Hperm)
    in Hfit.
  pose proof (header_padding_range es) as Hp.
  split; [apply generateHeader_layout; lia|].
  intros tail i e Hi.
  destruct (list_elem_of_split_length _ _ _ Hi) as (l1 & l2 & Hes & Hlen).
  apply (archive_name_layout l1 e l2 tail es i Hes Hlen Hfit).
  apply (registered_no_nul fs).
  eapply Forall_lookup_1; [|exact Hi].
  eapply Permutation_Forall; [exact Hperm|exact Hreg].
Qed.

Lemma map_seq_lookup {A B} (f : nat -> B) (g : A -> B) (l : list A) :
  (forall i x, l !! i = Some x -> f i = g x) ->
  map f (seq 0 (length l)) = map g l.
Proof.
  intros H. apply list_eq. intros i.
  rewrite !list_lookup_fmap.
  destruct (l !! i) as [x|] eqn:Hi.
  - rewrite lookup_seq_lt by (eapply lookup_lt_Some; eauto).
    cbn. f_equal. apply H, Hi.
  - rewrite lookup_seq_ge by (apply lookup_ge_None; exact Hi). reflexivity.
Qed.

(** C5, as the code has it.  For registered inputs whose names fit the
    32-bit string table, the header [Build] produces declares as many
    entries as were registered and lists exactly their names, in ascending
    order; equal base names stay next to each other, so the order is strict
    exactly when the names are pairwise distinct, and then the header does
    not depend on the order of registration. *)
Theorem header_count_and_order sortSlice fs b :
  sort_contract sortSlice ->
  partEntries b <> [] ->
  Forall (registered fs) (partEntries b) ->
  stringTableSize (partEntries b) + header_padding (partEntries b) < 2 ^ 32 ->
  exists h es',
    buildHeader sortSlice b = Some (h, es')
    /\ archive_count h = len (partEntries b)
    /\ Permutation (map name (partEntries b))
         (map (fun i => archive_name h (Z.of_nat i))
              (seq 0 (length (partEntries b))))
    /\ (forall i j : nat,
          (i < j < length (partEntries b))%nat ->
          String.ltb (archive_name h (Z.of_nat j)) (archive_name h (Z.of_nat i))
          = false)
    /\ (NoDup (map name (partEntries b)) ->
        forall i j : nat,
          (i < j < length (partEntries b))%nat ->
          String.ltb (archive_name h (Z.of_nat i)) (archive_name h (Z.of_nat j))
          = true)
    /\ (NoDup (map name (partEntries b)) ->
        forall b2, Permutation (partEntries b) (partEntries b2) ->
                   buildHeader sortSlice b2 = Some (h, es')).
Proof.
  intros Hc Hne Hreg Hfit.
  destruct (header_names sortSlice fs b Hc Hreg Hfit) as [Hh Hnames].
  destruct (Hc (partEntries b)) as [Hperm Hsorted].
  set (es := sortSlice (partEntries b)) in *.
  assert (Hlen : length (partEntries b) = length es)
    by (apply Permutation_length, Hperm).
  assert (Hfit' : stringTableSize es + header_padding es < 2 ^ 32)
    by (rewrite <- (stringTableSize_perm _ _ Hperm),
          <- (header_padding_perm _ _ Hperm); exact Hfit).
  assert (Hnm : forall (i : nat) e, es !! i = Some e ->
                  archive_name (header_layout es) (Z.of_nat i) = name e).
  { intros i e Hi. rewrite <- (app_nil_r (header_layout es)).
    apply Hnames, Hi. }
  assert (Hpair : forall i j : nat, (i < j < length (partEntries b))%nat ->
            exists ei ej, es !! i = Some ei /\ es !! j = Some ej
              /\ archive_name (header_layout es) (Z.of_nat i) = name ei
              /\ archive_name (header_layout es) (Z.of_nat j) = name ej
              /\ name_le ei ej).
  { intros i j Hij.
    destruct (lookup_lt_is_Some_2 es i ltac:(lia)) as [ei Hi].
    destruct (lookup_lt_is_Some_2 es j ltac:(lia)) as [ej Hj].
    exists ei, ej. split; [exact Hi|]. split; [exact Hj|].
    split; [apply Hnm, Hi|]. split; [apply Hnm, Hj|].
    eapply (StronglySorted_lookup _ es i j); eauto. lia. }
  eexists _, _. split; [exact Hh|].
  split; [|split; [|split; [|split]]].
  - rewrite <- (app_nil_r (header_layout es)).
    destruct (archive_count_layout es [] Hfit') as [Hcount _].
    rewrite Hcount. unfold len. rewrite Hlen. reflexivity.
  - rewrite Hlen, (map_seq_lookup _ name es Hnm).
    apply Permutation_map, Hperm.
  - intros i j Hij.
    destruct (Hpair i j Hij) as (ei & ej & _ & _ & -> & -> & Hle). exact Hle.
  - intros Hnd i j Hij.
    destruct (Hpair i j Hij) as (ei & ej & Hi & Hj & -> & -> & Hle).
    apply ltb_total_neq; [|exact Hle].
    intros Heq.
    assert (Hnd' : NoDup (map name es))
      by (exact (proj1 (NoDup_Permutation_proper _ _
                          (Permutation_map name Hperm)) Hnd)).
    assert (i = j); [|lia].
    eapply NoDup_lookup; [exact Hnd'| |].
    + rewrite list_lookup_fmap, Hi. reflexivity.
    + rewrite list_lookup_fmap, Hj. cbn. f_equal. symmetry. exact Heq.
  - intros Hnd b2 Hperm2. unfold buildHeader.
    rewrite <- (sort_unique sortSlice _ _ Hc Hperm2 Hnd). exact Hh.
Qed.

Lemma header_count_and_order_witness :
  exists b1 h es',
    scenario_registered = (scenario_fs, b1, None)
    /\ buildHeader insertionSort b1 = Some (h, es')
    /\ archive_count h = 2
    /\ String.ltb (archive_name h 0) (archive_name h 1) = true.
Proof.
  destruct (AddFiles_registered ["b.bin"; "a.bin"]%string
              scenario_fs scenario_builder scenario_fs
              (snd (fst scenario_registered)) eq_refl ltac:(constructor))
    as (_ & Hreg & _).
  destruct (header_count_and_order insertionSort scenario_fs
              (snd (fst scenario_registered)) insertionSort_contract)
    as (h & es' & Hh & Hcount & _ & _ & Hstrict & _).
  - discriminate.
  - exact Hreg.
  - vm_compute. reflexivity.
  - exists (snd (fst scenario_registered)), h, es'.
    split; [reflexivity|]. split; [exact Hh|]. split; [exact Hcount|].
    apply (Hstrict ltac:(vm_compute; repeat constructor;
                         rewrite ?list_elem_of_In; cbn; intuition discriminate)
                   0%nat 1%nat).
    vm_compute. split; repeat constructor.
Defined.

(** C5 as stated fails for [twins_fs]: both entries carry the name
    ["a.bin"], so the names in the header do not ascend strictly. *)
Lemma twins_not_strictly_ascending :
  exists b1 h es',
    twins_registered = (twins_fs, b1, None)
    /\ buildHeader insertionSort b1 = Some (h, es')
    /\ archive_count h = 2
    /\ archive_name h 0 = "a.bin"%string
    /\ archive_name h 1 = "a.bin"%string
    /\ String.ltb (archive_name h 0) (archive_name h 1) <> true.
Proof.
  eexists _, _, _. split; [reflexivity|].
  split; [vm_compute; reflexivity|].
  split; [vm_compute; reflexivity|].
  split; [vm_compute; reflexivity|].
  split; [vm_compute; reflexivity|].
  vm_compute. discriminate.
Qed.

(** ** The copy loop *)

Lemma write_at_end o d : write_at o (length o) d = o ++ d.
Proof.
  unfold write_at. rewrite take_ge, Nat.sub_diag by lia. cbn [repeat app].
  rewrite drop_ge by lia. rewrite app_nil_r. reflexivity.
Qed.

Lemma uint64_small z : 0 <= z < 2 ^ 64 -> uint64 z = z.
Proof. intros H. apply Z.mod_small, H. Qed.

Lemma uint64_add_l a b : uint64 (uint64 a + b) = uint64 (a + b).
Proof. unfold uint64. apply Z.add_mod_idemp_l. lia. Qed.

Lemma uint64_add_r a b : uint64 (a + uint64 b) = uint64 (a + b).
Proof. unfold uint64. apply Z.add_mod_idemp_r. lia. Qed.

Lemma int64_uint64_nonneg z :
  0 <= int64 (uint64 z) -> int64 (uint64 z) = uint64 z /\ uint64 z < 2 ^ 63.
Proof.
  unfold int64, uint64.
  pose proof (Z.mod_pos_bound z (2 ^ 64) ltac:(lia)) as Hz.
  intros H.
  destruct (Z.lt_ge_cases (z mod 2 ^ 64) (2 ^ 63)) as [Hlt|Hge].
  - rewrite Z.mod_small by lia. lia.
  - exfalso.
    replace (z mod 2 ^ 64 + 2 ^ 63)
      with ((z mod 2 ^ 64 - 2 ^ 63) + 1 * 2 ^ 64) in H by lia.
    rewrite Z.mod_add, Z.mod_small in H by lia. lia.
Qed.

Lemma int64_small z : 0 <= z < 2 ^ 63 -> int64 z = z.
Proof. intros H. unfold int64. rewrite Z.mod_small by lia. lia. Qed.

Lemma take_length_take {A} (B : nat) (D : list A) :
  take (length (take B D)) D = take B D.
Proof.
  rewrite length_take. destruct (Nat.le_gt_cases B (length D)).
  - rewrite Nat.min_l by lia. reflexivity.
  - rewrite Nat.min_r by lia. rewrite !take_ge by lia. reflexivity.
Qed.

(** If the copy loop finishes, it has appended a prefix [take k] of what was
    left of the source to the output file, counted [k] bytes, and touched
    nothing else.  The source is another file than the output, and the
    output position is the end of the output file. *)
Lemma copyLoop_done b file c : forall fuel fs o inPos outPos bw p fs' p' n,
  path file <> OutputPath b ->
  fs !! path file = Some c -> fs !! OutputPath b = Some o ->
  outPos = len o -> 0 <= inPos -> 0 <= bw < 2 ^ 64 ->
  copyLoop fuel b file fs inPos outPos bw p = (fs', p', Done n) ->
  exists k : nat,
    (k <= length (drop (Z.to_nat inPos) c))%nat
    /\ fs' = <[OutputPath b := o ++ take k (drop (Z.to_nat inPos) c)]> fs
    /\ n = uint64 (bw + Z.of_nat k).
Proof.
  induction fuel as [|fuel IH];
    intros fs o inPos outPos bw p fs' p' n Hne Hin Hout HoutPos HinPos Hbw Hrun;
    cbn [copyLoop] in Hrun; [discriminate|].
  unfold file_read in Hrun. rewrite Hin in Hrun. cbn [mbind option_bind] in Hrun.
  set (D := drop (Z.to_nat inPos) c) in *.
  set (chunk := take (Z.to_nat (BufferSize b)) D) in *.
  destruct (len chunk =? 0) eqn:Hz.
  - injection Hrun as <- <- <-. exists 0%nat.
    split; [lia|]. rewrite take_0, app_nil_r, Z.add_0_r.
    split; [symmetry; apply insert_id, Hout|].
    symmetry. apply uint64_small, Hbw.
  - apply Z.eqb_neq in Hz.
    unfold file_write in Hrun. rewrite Hout in Hrun.
    cbn [mbind option_bind] in Hrun.
    assert (Hw : write_at o (Z.to_nat outPos) chunk = o ++ chunk).
    { rewrite HoutPos. unfold len. rewrite Nat2Z.id. apply write_at_end. }
    rewrite Hw in Hrun.
    apply (IH _ (o ++ chunk)) in Hrun as (k' & Hk' & Hfs & Hn).
    + exists (length chunk + k')%nat.
      replace (drop (Z.to_nat (inPos + len chunk)) c)
        with (drop (length chunk) D) in *
        by (subst D; rewrite drop_drop; f_equal; unfold len; lia).
      rewrite length_drop in Hk'.
      assert (Hcl : (length chunk <= length D)%nat)
        by (subst chunk; rewrite length_take; lia).
      split; [lia|]. split.
      * rewrite Hfs, insert_insert_eq, <- app_assoc. do 2 f_equal.
        rewrite <- take_take_drop. f_equal.
        subst chunk. symmetry. apply take_length_take.
      * rewrite Hn, uint64_add_l.
        replace (bw + uint64 (len chunk) + Z.of_nat k')
          with (bw + Z.of_nat k' + uint64 (len chunk)) by lia.
        rewrite uint64_add_r. unfold len. f_equal. lia.
    + exact Hne.
    + rewrite lookup_insert_ne by congruence. exact Hin.
    + apply lookup_insert_eq.
    + rewrite HoutPos, len_app. reflexivity.
    + unfold len. lia.
    + apply Z.mod_pos_bound. lia.
Qed.

Lemma assign_chain base es : forall soff rel L,
  uint64 L = uint64 (base + rel) ->
  offsets_chain L (assign (uint64 base) es soff rel).
Proof.
  induction es as [|e es IH]; intros soff rel L HL; cbn [assign offsets_chain];
    [exact I|].
  cbn [dataOffset size set_offsets]. split.
  - rewrite uint64_add_l. symmetry. exact HL.
  - apply IH. unfold next_rel. rewrite uint64_add_r.
    rewrite <- (uint64_add_l L), HL, uint64_add_l. f_equal. lia.
Qed.

Lemma copyFileToNSP_done fuel b fs e fs1 p1 o fs' p' :
  copyable fs b e ->
  (forall p, p <> OutputPath b -> fs1 !! p = fs !! p) ->
  fs1 !! OutputPath b = Some o ->
  dataOffset e = len o -> len o < 2 ^ 64 ->
  copyFileToNSP fuel b e fs1 p1 = (fs', p', Done tt) ->
  fs' = <[OutputPath b := o ++ source_bytes fs e]> fs1
  /\ len o < 2 ^ 63.
Proof.
  intros (Hne & c & Hc & Hsize & Hclen) Hsame Hout Hoff HL Hrun.
  unfold copyFileToNSP in Hrun.
  destruct (Open fs1 (path e)); [|discriminate].
  destruct (int64 (dataOffset e) <? 0) eqn:Hneg; [discriminate|].
  apply Z.ltb_ge in Hneg.
  destruct (copyLoop _ _ _ _ _ _ _ _) as [[fs2 p2] [n| | |]] eqn:Hloop;
    try discriminate.
  destruct (negb (n =? size e)) eqn:Hn; [discriminate|].
  injection Hrun as <- <-.
  apply negb_false_iff, Z.eqb_eq in Hn.
  assert (Hrange : 0 <= len o < 2 ^ 63).
  { rewrite Hoff in Hneg. split; [unfold len; lia|].
    rewrite <- (uint64_small (len o)) in Hneg |- * by (unfold len in *; lia).
    apply int64_uint64_nonneg, Hneg. }
  rewrite Hoff, int64_small in Hloop by exact Hrange.
  eapply (copyLoop_done b e c) in Hloop as (k & Hk & Hfs & Hnk);
    [|exact Hne|rewrite Hsame by exact Hne; exact Hc|exact Hout|reflexivity
     |lia|lia].
  change (Z.to_nat 0) with 0%nat in *. rewrite drop_0 in *.
  rewrite Z.add_0_l, uint64_small in Hnk by (unfold len in *; lia).
  assert (k = length c) by (unfold len in *; lia). subst k.
  rewrite take_ge in Hfs by lia.
  split; [|lia]. unfold source_bytes. rewrite Hc. exact Hfs.
Qed.

(** If the loop over the entries comes to its end, the payloads have been
    appended to the output file in the order of the list. *)
Lemma copyEntries_done fuel b fs : forall todo fs1 p1 o fs' p',
  Forall (copyable fs b) todo ->
  (forall p, p <> OutputPath b -> fs1 !! p = fs !! p) ->
  fs1 !! OutputPath b = Some o ->
  len o < 2 ^ 64 -> offsets_chain (len o) todo ->
  copyEntries fuel b todo fs1 p1 = (fs', p', Done tt) ->
  fs' = <[OutputPath b := o ++ payload_region fs todo]> fs1
  /\ len o + sum_sizes todo < 2 ^ 64.
Proof.
  induction todo as [|e todo IH];
    intros fs1 p1 o fs' p' Hcp Hsame Hout HL Hchain Hrun;
    cbn [copyEntries] in Hrun.
  - injection Hrun as <- <-. cbn. rewrite app_nil_r.
    split; [symmetry; apply insert_id, Hout|lia].
  - apply Forall_cons in Hcp as [He Hcp]. destruct Hchain as [Hoff Hchain].
    destruct (copyFileToNSP fuel b e fs1 p1) as [[fs2 p2] [[]| | |]] eqn:Hcopy;
      try discriminate.
    rewrite uint64_small in Hoff by (unfold len in *; lia).
    destruct (copyFileToNSP_done _ _ _ _ _ _ _ _ _ He Hsame Hout Hoff HL Hcopy)
      as [Hfs2 Hlt].
    destruct He as (Hne & c & Hc & Hsize & Hclen).
    assert (Hsb : source_bytes fs e = c) by (unfold source_bytes; rewrite Hc; reflexivity).
    rewrite Hsb in Hfs2.
    apply (IH _ _ (o ++ c)) in Hrun as [Hrun Hsum].
    + split.
      * rewrite Hrun, Hfs2, insert_insert_eq.
        cbn [payload_region flat_map]. rewrite Hsb, <- app_assoc. reflexivity.
      * rewrite len_app in Hsum. cbn [sum_sizes]. lia.
    + exact Hcp.
    + intros p Hp. rewrite Hfs2, lookup_insert_ne by congruence. auto.
    + rewrite Hfs2. apply lookup_insert_eq.
    + rewrite len_app. unfold len in *. lia.
    + rewrite len_app, <- Hsize. exact Hchain.
Qed.

Lemma generateHeader_size_bound es h es' :
  generateHeader es = Some (h, es') -> len h <= maxAlloc.
Proof.
  intros H. destruct (generateHeader_inv _ _ _ H) as (Hlen & _).
  rewrite generateHeader_steps in H.
  destruct ((0 <=? headerSize es) && (headerSize es <=? maxAlloc)) eqn:E;
    [|discriminate].
  apply andb_true_iff in E as [_ E%Z.leb_le]. lia.
Qed.

(** ** What a finished [Build] has done *)

Lemma Build_done_inv sortSlice fuel fs b fs' b' :
  Build sortSlice fuel fs b = (fs', b', Done tt) ->
  partEntries b <> []
  /\ exists h es p',
       buildHeader sortSlice b = Some (h, es)
       /\ b' = set_entries b es
       /\ has_nul (OutputPath b) = false
       /\ copyEntries fuel (set_entries b es) es
            (<[OutputPath b := h]> fs) 0 = (fs', p', Done tt).
Proof.
  unfold Build.
  destruct (partEntries b) as [|e0 l0] eqn:Hes; [discriminate|].
  rewrite <- Hes. unfold len. rewrite Hes, length_cons.
  destruct (Z.of_nat (S (length l0)) =? 0) eqn:E; [apply Z.eqb_eq in E; lia|].
  destruct (buildHeader sortSlice b) as [[h es]|]; [|discriminate].
  cbn [OutputPath BufferSize partEntries set_entries].
  unfold Create.
  destruct (has_nul (OutputPath b) || (OutputPath b =? "")%string) eqn:Hv;
    [discriminate|].
  apply orb_false_iff in Hv as [Hnul _].
  unfold file_write. rewrite lookup_insert_eq. cbn [mbind option_bind].
  rewrite Z.eqb_refl. cbn [negb].
  destruct (make_bytes (BufferSize b)); [|discriminate].
  destruct (copyEntries _ _ _ _ _) as [[fs1 p1] r] eqn:Hcopy.
  intros [= <- <- ->].
  split; [discriminate|]. exists h, es, p1.
  split; [reflexivity|]. split; [reflexivity|]. split; [exact Hnul|].
  rewrite insert_insert_eq in Hcopy.
  change (Z.to_nat 0) with 0%nat in Hcopy.
  change (write_at [] 0 h) with (write_at [] (length (@nil byte)) h) in Hcopy.
  rewrite write_at_end in Hcopy. exact Hcopy.
Qed.

Lemma registered_copyable fs b e e' :
  fs_wf fs -> registered fs e -> path e <> OutputPath b ->
  path e' = path e -> size e' = size e -> copyable fs b e'.
Proof.
  intros Hwf (c & _ & Hc & _ & Hs) Hne Hp Hsz.
  unfold copyable. rewrite Hp, Hsz. split; [exact Hne|].
  exists c. pose proof (Hwf _ _ Hc).
  split; [exact Hc|]. split; [|assumption].
  rewrite Hs. apply uint64_small. unfold len in *. lia.
Qed.

Lemma Forall_assign (P Q : partitionEntry -> Prop) base es soff rel :
  (forall e e', P e -> path e' = path e -> name e' = name e ->
                size e' = size e -> Q e') ->
  Forall P es -> Forall Q (assign base es soff rel).
Proof.
  intros HPQ H. revert soff rel.
  induction H as [|e es He _ IH]; intros; cbn [assign]; constructor.
  - apply (HPQ e); [exact He|reflexivity..].
  - apply IH.
Qed.

Lemma map_path_assign base es soff rel :
  map path (assign base es soff rel) = map path es.
Proof.
  revert soff rel. induction es as [|e es IH]; intros; [reflexivity|].
  cbn [assign map path set_offsets]. rewrite IH. reflexivity.
Qed.

Lemma len_payload_region fs b es :
  Forall (copyable fs b) es -> len (payload_region fs es) = sum_sizes es.
Proof.
  induction 1 as [|e es (_ & c & Hc & Hs & _) _ IH]; [reflexivity|].
  cbn [payload_region flat_map sum_sizes]. fold (payload_region fs es).
  rewrite len_app, IH. unfold source_bytes. rewrite Hc. cbn. lia.
Qed.

Lemma payload_region_app fs l1 l2 :
  payload_region fs (l1 ++ l2) = payload_region fs l1 ++ payload_region fs l2.
Proof. unfold payload_region. apply flat_map_app. Qed.

Lemma payload_region_assign fs base es soff rel :
  payload_region fs (assign base es soff rel) = payload_region fs es.
Proof.
  revert soff rel. induction es as [|e es IH]; intros; [reflexivity|].
  cbn [assign payload_region flat_map]. fold (payload_region fs es).
  fold (payload_region fs (assign base es (next_soff soff e) (next_rel rel e))).
  rewrite IH. reflexivity.
Qed.

Lemma take_assign base es soff rel (i : nat) :
  take i (assign base es soff rel) = assign base (take i es) soff rel.
Proof.
  revert soff rel i. induction es as [|e es IH]; intros soff rel [|i];
    try reflexivity.
  cbn [assign take]. rewrite IH. reflexivity.
Qed.

(** The payload a reader finds for the entry that follows [l1], in an
    archive made of the header and the payload region. *)
Lemma archive_payload_layout fs b l1 e l2 es (i : nat) :
  es = l1 ++ e :: l2 -> i = length l1 ->
  Forall (copyable fs b) es ->
  stringTableSize es + header_padding es < 2 ^ 32 ->
  headerSize es + sum_sizes es < 2 ^ 64 ->
  let a := header_layout es ++ payload_region fs es in
  archive_payload a (Z.of_nat i) = source_bytes fs e
  /\ slice a (headerSize es + sum_sizes l1) (size e) = source_bytes fs e.
Proof.
  intros Hes Hi Hcp Hfit Hsum a.
  assert (Hcp' : Forall (copyable fs b) l1 /\ copyable fs b e
                 /\ Forall (copyable fs b) l2).
  { rewrite Hes in Hcp. apply Forall_app in Hcp as [H1 H2].
    apply Forall_cons in H2 as [H2 H3]. auto. }
  destruct Hcp' as (Hl1 & He & Hl2).
  assert (Hwf : forall l, Forall (copyable fs b) l -> Forall entry_wf l).
  { intros l Hl. eapply Forall_impl; [exact Hl|].
    intros x (_ & c & _ & Hs & Hc).
    unfold entry_wf. rewrite Hs. unfold len in *. lia. }
  pose proof (sum_sizes_nonneg l1 (Hwf _ Hl1)) as Hn1.
  pose proof (sum_sizes_nonneg l2 (Hwf _ Hl2)) as Hn2.
  assert (Hse : 0 <= size e) by (destruct He as (_ & c & _ & -> & _); unfold len; lia).
  assert (Hsplit : sum_sizes es = sum_sizes l1 + (size e + sum_sizes l2))
    by (rewrite Hes, sum_sizes_app; reflexivity).
  assert (H0 : 0 <= headerSize es)
    by (rewrite <- length_header_layout; unfold len; lia).
  assert (Hslice : slice a (headerSize es + sum_sizes l1) (size e)
                   = source_bytes fs e).
  { subst a. rewrite Hes at 2. rewrite payload_region_app.
    cbn [payload_region flat_map]. fold (payload_region fs l2).
    eapply (slice_in _ (header_layout es ++ payload_region fs l1));
      [rewrite <- !app_assoc; reflexivity| |].
    - rewrite len_app, length_header_layout, (len_payload_region fs b) by exact Hl1.
      reflexivity.
    - destruct He as (_ & c & Hc & Hs & _). unfold source_bytes.
      rewrite Hc. exact Hs. }
  split; [|exact Hslice].
  unfold archive_payload. subst a.
  destruct (archive_count_layout es (payload_region fs es) Hfit) as [_ Hstart].
  destruct (header_entry_fields l1 e l2 (payload_region fs es) es i Hes Hi)
    as (H1 & H2 & _).
  rewrite Hstart, H1, H2, rel_after_0.
  unfold uint64. rewrite Z.mod_mod by lia.
  rewrite !Z.mod_small by lia. exact Hslice.
Qed.

(** C1, for names that fit the 32-bit string table.  Let the entries be
    registered from files of [fs], none of which is the output file, so
    that the sources are at build time what they were when registered.
    When [Build] succeeds, the output file is the generated header followed
    by the payloads of the entries in the order of their offsets, that is
    sorted by name, and nothing else in the file system has changed; reading
    the [i]-th record back gives the stored name of the [i]-th entry at its
    name-table offset and, at its data offset for its recorded size, the
    bytes of its source file. *)
Theorem archive_round_trip sortSlice fuel fs b fs' b' :
  sort_contract sortSlice ->
  fs_wf fs ->
  Forall (registered fs) (partEntries b) ->
  OutputPath b ∉ map path (partEntries b) ->
  stringTableSize (partEntries b) + header_padding (partEntries b) < 2 ^ 32 ->
  Build sortSlice fuel fs b = (fs', b', Done tt) ->
  exists h out,
    partEntries b <> []
    /\ buildHeader sortSlice b = Some (h, partEntries b')
    /\ Permutation (map path (partEntries b)) (map path (partEntries b'))
    /\ StronglySorted name_le (partEntries b')
    /\ fs' = <[OutputPath b := out]> fs
    /\ out = h ++ payload_region fs (partEntries b')
    /\ forall (i : nat) e,
         partEntries b' !! i = Some e ->
         fs !! path e = Some (source_bytes fs e)
         /\ name e = basename (path e)
         /\ archive_name out (Z.of_nat i) = name e
         /\ archive_payload out (Z.of_nat i) = source_bytes fs e
         /\ slice out (dataOffset e) (size e) = source_bytes fs e
         /\ dataOffset e
            = len h + len (payload_region fs (take i (partEntries b'))).
Proof.
  intros Hc Hwf Hreg Hout Hfit Hrun.
  destruct (Build_done_inv _ _ _ _ _ _ Hrun)
    as (Hne & h & es' & p' & Hh & -> & Hnul & Hcopy).
  cbn [partEntries set_entries].
  destruct (Hc (partEntries b)) as [Hperm Hsorted].
  set (es := sortSlice (partEntries b)) in *.
  assert (Hfit' : stringTableSize es + header_padding es < 2 ^ 32)
    by (rewrite <- (stringTableSize_perm _ _ Hperm),
          <- (header_padding_perm _ _ Hperm); exact Hfit).
  pose proof (header_padding_range es) as Hp.
  pose proof Hh as Hbh.
  unfold buildHeader in Hh. fold es in Hh.
  pose proof (generateHeader_size_bound _ _ _ Hh) as Hbound.
  rewrite generateHeader_layout in Hh by lia.
  injection Hh as <- <-.
  set (es' := assign (uint64 (headerSize es)) es 0 0) in *.
  assert (Hreg' : Forall (registered fs) es)
    by (eapply Permutation_Forall; [exact Hperm|exact Hreg]).
  assert (Hcp : Forall (copyable fs b) es).
  { rewrite Forall_forall in Hreg' |- *. intros e He.
    eapply registered_copyable; [exact Hwf|apply Hreg', He| |reflexivity..].
    intros Heq. apply Hout. rewrite <- Heq.
    apply list_elem_of_fmap_2. rewrite Hperm. exact He. }
  assert (Hcp' : Forall (copyable fs (set_entries b es')) es').
  { eapply Forall_assign; [|exact Hcp].
    intros e e' (Hne' & c & Hc' & Hs & Hl) Hpe _ Hse.
    unfold copyable. cbn [OutputPath set_entries]. rewrite Hpe, Hse.
    split; [exact Hne'|eauto]. }
  rewrite length_header_layout in Hbound. unfold maxAlloc in Hbound.
  assert (H0 : 0 <= headerSize es)
    by (rewrite <- length_header_layout; unfold len; lia).
  apply (copyEntries_done _ _ fs _ _ _ (header_layout es)) in Hcopy
    as [Hfs Hsum];
    [|exact Hcp'
     |intros p Hp'; cbn [OutputPath set_entries] in Hp';
      apply lookup_insert_ne; congruence
     |apply lookup_insert_eq
     |rewrite length_header_layout; lia
     |rewrite length_header_layout; apply assign_chain;
      rewrite Z.add_0_r; reflexivity].
  cbn [OutputPath set_entries] in Hfs. rewrite insert_insert_eq in Hfs.
  rewrite length_header_layout in Hsum.
  assert (Hsum' : headerSize es + sum_sizes es < 2 ^ 64).
  { replace (sum_sizes es) with (sum_sizes es'); [exact Hsum|].
    rewrite <- (take_ge es' (length es')), <- (take_ge es (length es')) by
      (subst es'; rewrite ?length_assign; lia).
    apply sum_sizes_take_assign. }
  eexists _, _. split; [exact Hne|]. split; [exact Hbh|].
  split; [subst es'; rewrite map_path_assign; apply Permutation_map, Hperm|].
  split; [apply StronglySorted_assign, Hsorted|].
  split; [exact Hfs|]. split; [reflexivity|].
  intros i e' Hi.
  destruct (assign_fields _ _ _ _ _ _ Hi) as (e & He & Hpe & Hne' & Hse & _).
  destruct (list_elem_of_split_length _ _ _ He) as (l1 & l2 & Hsplit & Hlen).
  assert (Hreg_e : registered fs e) by (eapply Forall_lookup_1; eauto).
  assert (Hsb : source_bytes fs e' = source_bytes fs e)
    by (unfold source_bytes; rewrite Hpe; reflexivity).
  assert (Hwf' : Forall entry_wf es).
  { eapply Forall_impl; [exact Hreg'|]. intros x. apply registered_wf. }
  destruct (dataOffset_assign _ _ _ _ Hwf' H0 Hsum' Hi) as [Hd _].
  subst es'. rewrite payload_region_assign.
  destruct (archive_payload_layout fs b l1 e l2 es i Hsplit Hlen Hcp Hfit' Hsum')
    as [Hpay Hslice].
  assert (Htake : take i es = l1) by (rewrite Hsplit, Hlen; apply take_app_length).
  split.
  { destruct Hreg_e as (c & _ & Hc' & _). unfold source_bytes.
    rewrite Hpe, Hc'. reflexivity. }
  split.
  { destruct Hreg_e as (c & _ & _ & Hn & _). rewrite Hne', Hpe. exact Hn. }
  split.
  { rewrite Hne'.
    apply (archive_name_layout l1 e l2 _ es i Hsplit Hlen Hfit').
    apply (registered_no_nul fs), Hreg_e. }
  split; [rewrite Hsb; exact Hpay|].
  split.
  { rewrite Hd, Hse, Hsb, Htake. exact Hslice. }
  rewrite Hd, length_header_layout. f_equal.
  rewrite take_assign, payload_region_assign, (len_payload_region fs b);
    [reflexivity|].
  apply Forall_take, Hcp.
Qed.

(** ** The copy loop ends *)

(** With a buffer of at least one byte every round of the loop consumes a
    byte of the source, so a step budget above the length of the source
    lets the loop finish: it appends what was left of the source. *)
Lemma copyLoop_runs b file c : forall fuel fs o inPos bw p,
  path file <> OutputPath b ->
  fs !! path file = Some c -> fs !! OutputPath b = Some o ->
  0 <= inPos -> 1 <= BufferSize b -> 0 <= bw < 2 ^ 64 ->
  (length (drop (Z.to_nat inPos) c) < fuel)%nat ->
  exists p',
    copyLoop fuel b file fs inPos (len o) bw p
    = (<[OutputPath b := o ++ drop (Z.to_nat inPos) c]> fs, p',
       Done (uint64 (bw + len (drop (Z.to_nat inPos) c)))).
Proof.
  induction fuel as [|fuel IH];
    intros fs o inPos bw p Hne Hin Hout HinPos Hbuf Hbw Hfuel; [lia|].
  cbn [copyLoop]. unfold file_read. rewrite Hin. cbn [mbind option_bind].
  set (D := drop (Z.to_nat inPos) c) in *.
  set (chunk := take (Z.to_nat (BufferSize b)) D) in *.
  assert (Hcl : length chunk = Nat.min (Z.to_nat (BufferSize b)) (length D))
    by (subst chunk; apply length_take).
  destruct (len chunk =? 0) eqn:Hz.
  - apply Z.eqb_eq in Hz. unfold len in Hz.
    assert (HD : D = []) by (apply length_zero_iff_nil; lia).
    rewrite HD, app_nil_r. cbn [length len Z.of_nat]. rewrite Z.add_0_r.
    rewrite (insert_id _ _ _ Hout), uint64_small by exact Hbw. eauto.
  - apply Z.eqb_neq in Hz. unfold len in Hz.
    unfold file_write. rewrite Hout. cbn [mbind option_bind].
    replace (write_at o (Z.to_nat (len o)) chunk) with (o ++ chunk)
      by (unfold len; rewrite Nat2Z.id, write_at_end; reflexivity).
    replace (len o + len chunk) with (len (o ++ chunk)) by apply len_app.
    assert (Hdrop : drop (Z.to_nat (inPos + len chunk)) c
                    = drop (length chunk) D)
      by (subst D; rewrite drop_drop; f_equal; unfold len; lia).
    destruct (IH (<[OutputPath b := o ++ chunk]> fs) (o ++ chunk)
                (inPos + len chunk) (uint64 (bw + uint64 (len chunk)))
                (uint64 (p + uint64 (len chunk)))) as [p' Hrun].
    + exact Hne.
    + rewrite lookup_insert_ne by congruence. exact Hin.
    + apply lookup_insert_eq.
    + unfold len. lia.
    + exact Hbuf.
    + apply Z.mod_pos_bound. lia.
    + rewrite Hdrop, length_drop. lia.
    + exists p'. rewrite Hrun, Hdrop, insert_insert_eq, <- app_assoc.
      assert (HDsplit : chunk ++ drop (length chunk) D = D).
      { transitivity (take (length chunk) D ++ drop (length chunk) D);
          [|apply take_drop].
        f_equal. subst chunk. symmetry. apply take_length_take. }
      rewrite HDsplit. do 2 f_equal.
      rewrite uint64_add_l.
      replace (bw + uint64 (len chunk) + len (drop (length chunk) D))
        with (bw + len (drop (length chunk) D) + uint64 (len chunk)) by lia.
      rewrite uint64_add_r. f_equal.
      rewrite <- HDsplit at 2. rewrite len_app. lia.
Qed.

Lemma copyFileToNSP_runs fuel b fs e fs1 p o :
  copyable fs b e -> has_nul (path e) = false ->
  (forall q, q <> OutputPath b -> fs1 !! q = fs !! q) ->
  fs1 !! OutputPath b = Some o ->
  dataOffset e = len o -> len o < 2 ^ 63 ->
  1 <= BufferSize b ->
  (length (source_bytes fs e) < fuel)%nat ->
  exists p',
    copyFileToNSP fuel b e fs1 p
    = (<[OutputPath b := o ++ source_bytes fs e]> fs1, p', Done tt).
Proof.
  intros (Hne & c & Hc & Hsize & Hclen) Hnul Hsame Hout Hoff HL Hbuf Hfuel.
  unfold source_bytes in *. rewrite Hc in *. cbn [default] in *.
  unfold copyFileToNSP, Open. rewrite Hnul, (Hsame _ Hne), Hc.
  cbn [mbind option_bind].
  rewrite Hoff, int64_small by (unfold len in *; lia).
  replace (len o <? 0) with false by (symmetry; apply Z.ltb_ge; unfold len; lia).
  destruct (copyLoop_runs b e c fuel fs1 o 0 0 p) as [p' Hrun];
    [exact Hne|rewrite (Hsame _ Hne); exact Hc|exact Hout|lia|exact Hbuf|lia
    |exact Hfuel|].
  rewrite Hrun. change (Z.to_nat 0) with 0%nat. rewrite drop_0, Z.add_0_l.
  rewrite uint64_small by (unfold len in *; lia).
  rewrite Hsize, Z.eqb_refl. cbn [negb]. eauto.
Qed.

(** With enough steps for the longest source, and offsets that stay below
    2^63, the loop over the entries copies them all. *)
Lemma copyEntries_runs fuel b fs : forall todo fs1 p o,
  Forall (copyable fs b) todo ->
  Forall (fun e => has_nul (path e) = false) todo ->
  Forall (fun e => (length (source_bytes fs e) < fuel)%nat) todo ->
  (forall q, q <> OutputPath b -> fs1 !! q = fs !! q) ->
  fs1 !! OutputPath b = Some o ->
  offsets_chain (len o) todo ->
  len o + sum_sizes todo < 2 ^ 63 ->
  1 <= BufferSize b ->
  exists p',
    copyEntries fuel b todo fs1 p
    = (<[OutputPath b := o ++ payload_region fs todo]> fs1, p', Done tt).
Proof.
  induction todo as [|e todo IH];
    intros fs1 p o Hcp Hnul Hfuel Hsame Hout Hchain Hsum Hbuf.
  - cbn. rewrite app_nil_r, (insert_id _ _ _ Hout). eauto.
  - apply Forall_cons in Hcp as [He Hcp]. apply Forall_cons in Hnul as [Hn Hnul].
    apply Forall_cons in Hfuel as [Hf Hfuel]. destruct Hchain as [Hoff Hchain].
    cbn [sum_sizes] in Hsum.
    assert (Hwf : Forall entry_wf todo).
    { eapply Forall_impl; [exact Hcp|]. intros x (_ & c & _ & Hs & Hc).
      unfold entry_wf. rewrite Hs. unfold len in *. lia. }
    pose proof (sum_sizes_nonneg _ Hwf) as Hnn.
    assert (Hse : 0 <= size e /\ size e = len (source_bytes fs e)).
    { destruct He as (_ & c & Hc & Hs & _). unfold source_bytes.
      rewrite Hc, Hs. cbn. unfold len. lia. }
    rewrite uint64_small in Hoff by (unfold len in *; lia).
    destruct (copyFileToNSP_runs fuel b fs e fs1 p o He Hn Hsame Hout Hoff)
      as [p1 Hrun1]; [lia|exact Hbuf|exact Hf|].
    cbn [copyEntries]. rewrite Hrun1.
    destruct (IH (<[OutputPath b := o ++ source_bytes fs e]> fs1) p1
                (o ++ source_bytes fs e)) as [p' Hrun];
      [exact Hcp|exact Hnul|exact Hfuel
      |intros q Hq; rewrite lookup_insert_ne by congruence; auto
      |apply lookup_insert_eq
      |rewrite len_app; destruct Hse as [_ <-]; exact Hchain
      |rewrite len_app; lia|exact Hbuf|].
    exists p'. rewrite Hrun, insert_insert_eq.
    cbn [payload_region flat_map]. rewrite <- app_assoc. reflexivity.
Qed.

(** ** [generateHeader] returns *)

Lemma nameLoop_total sto es : forall h,
  0 <= sto ->
  Forall (fun e => 0 <= stringOffset e /\ sto + stringOffset e <= len h) es ->
  exists h', nameLoop sto es h = Some h'.
Proof.
  induction es as [|e es IH]; intros h Hsto Hoff; cbn [nameLoop]; [eauto|].
  apply Forall_cons in Hoff as [[He1 He2] Hes].
  unfold copy_at.
  replace ((0 <=? sto + stringOffset e) && (sto + stringOffset e <=? len h))
    with true by (symmetry; apply andb_true_iff; split; apply Z.leb_le; lia).
  cbn [mbind option_bind]. apply IH; [exact Hsto|].
  eapply Forall_impl; [exact Hes|]. cbn. intros x Hx.
  unfold len in *. rewrite length_overwrite by lia. exact Hx.
Qed.

Lemma uint32_le z : 0 <= z -> uint32 z <= z.
Proof. intros H. unfold uint32. apply Z.mod_le; lia. Qed.

Lemma assign_soff_bound base es : forall soff rel T,
  0 <= soff <= T ->
  Forall (fun e => 0 <= stringOffset e <= T + stringTableSize es)
         (assign base es soff rel).
Proof.
  induction es as [|e es IH]; intros soff rel T HT; cbn [assign]; constructor.
  - cbn [stringOffset set_offsets].
    pose proof (stringTableSize_nonneg (e :: es)). lia.
  - pose proof (slen_nonneg (name e)) as Hl.
    assert (Hnext : 0 <= next_soff soff e <= T + (slen (name e) + 1)).
    { unfold next_soff. split; [apply uint32_nonneg|].
      pose proof (uint32_nonneg (slen (name e) + 1)).
      pose proof (uint32_le (slen (name e) + 1) ltac:(lia)).
      pose proof (uint32_le (soff + uint32 (slen (name e) + 1)) ltac:(lia)).
      lia. }
    eapply Forall_impl; [apply (IH _ _ _ Hnext)|]. intros x Hx.
    cbv beta in *. rewrite stringTableSize_cons. lia.
Qed.

(** [generateHeader] panics only when the header is too large to
    allocate. *)
Lemma generateHeader_total es :
  headerSize es <= maxAlloc ->
  exists h, generateHeader es
            = Some (h, assign (uint64 (headerSize es)) es 0 0).
Proof.
  intros Hmax.
  pose proof (header_padding_range es) as Hp.
  pose proof (stringTableSize_nonneg es) as Hs.
  assert (H0 : 0 <= headerSize es)
    by (unfold headerSize, headerMetadataSize, partitionTableSize, len; lia).
  rewrite generateHeader_steps.
  replace ((0 <=? headerSize es) && (headerSize es <=? maxAlloc)) with true
    by (symmetry; apply andb_true_iff; split; apply Z.leb_le; lia).
  edestruct (nameLoop_total (headerMetadataSize + partitionTableSize es))
    as [h' Hh'];
    [| |rewrite Hh'; cbn [mbind option_bind]; eauto].
  - unfold headerMetadataSize, partitionTableSize, len. lia.
  - eapply Forall_impl; [apply (assign_soff_bound _ es 0 0 0); lia|].
    intros x Hx. cbv beta in *.
    rewrite len_app, len_app, len_prologue, len_records.
    unfold len. rewrite repeat_length.
    unfold headerMetadataSize, partitionTableSize, len. lia.
Qed.

(** ** [Build] succeeds *)

(** Registered sources that are not the output file, a valid output path,
    a buffer of at least one byte, a header that can be allocated, offsets
    below 2^63 and a step budget above the length of every source: then
    [Build] runs to the end and returns no error. *)
Lemma Build_runs sortSlice fuel fs b :
  sort_contract sortSlice ->
  fs_wf fs ->
  partEntries b <> [] ->
  Forall (registered fs) (partEntries b) ->
  OutputPath b ∉ map path (partEntries b) ->
  has_nul (OutputPath b) = false -> OutputPath b <> EmptyString ->
  1 <= BufferSize b <= maxAlloc ->
  headerSize (partEntries b) <= maxAlloc ->
  headerSize (partEntries b) + sum_sizes (partEntries b) < 2 ^ 63 ->
  Forall (fun e => (length (source_bytes fs e) < fuel)%nat) (partEntries b) ->
  exists h es',
    buildHeader sortSlice b = Some (h, es')
    /\ Build sortSlice fuel fs b
       = (<[OutputPath b := h ++ payload_region fs es']> fs,
          set_entries b es', Done tt).
Proof.
  intros Hc Hwf Hne Hreg Hout Hnul Hnonempty Hbuf Hmax Hsum Hfuel.
  destruct (Hc (partEntries b)) as [Hperm Hsorted].
  set (es := sortSlice (partEntries b)) in *.
  rewrite (headerSize_perm _ _ Hperm) in Hmax, Hsum.
  rewrite (sum_sizes_perm _ _ Hperm) in Hsum.
  destruct (generateHeader_total es Hmax) as [h Hh].
  destruct (generateHeader_inv _ _ _ Hh) as (Hlen & _ & _).
  set (es' := assign (uint64 (headerSize es)) es 0 0) in *.
  exists h, es'. split; [exact Hh|].
  assert (Hreg' : Forall (registered fs) es)
    by (eapply Permutation_Forall; [exact Hperm|exact Hreg]).
  assert (Hcp : Forall (copyable fs b) es).
  { rewrite Forall_forall in Hreg' |- *. intros e He.
    eapply registered_copyable; [exact Hwf|apply Hreg', He| |reflexivity..].
    intros Heq. apply Hout. rewrite <- Heq.
    apply list_elem_of_fmap_2. rewrite Hperm. exact He. }
  assert (Hcp' : Forall (copyable fs (set_entries b es')) es').
  { eapply Forall_assign; [|exact Hcp].
    intros e e' (Hne' & c & Hc' & Hs & Hl) Hpe _ Hse.
    unfold copyable. cbn [OutputPath set_entries]. rewrite Hpe, Hse.
    split; [exact Hne'|eauto]. }
  assert (Hnul' : Forall (fun e => has_nul (path e) = false) es').
  { eapply Forall_assign; [|exact Hreg'].
    intros e e' (c & Hn & _) Hpe _ _. rewrite Hpe. exact Hn. }
  assert (Hfuel' : Forall (fun e => (length (source_bytes fs e) < fuel)%nat) es').
  { eapply Forall_assign;
      [|eapply Permutation_Forall; [exact Hperm|exact Hfuel]].
    intros e e' He Hpe _ _. unfold source_bytes in *. rewrite Hpe. exact He. }
  unfold Build.
  destruct (partEntries b) as [|e0 l0] eqn:Hes; [congruence|].
  unfold len at 1. rewrite length_cons.
  destruct (Z.of_nat (S (length l0)) =? 0) eqn:E; [apply Z.eqb_eq in E; lia|].
  unfold buildHeader. rewrite Hes. fold es. rewrite Hh.
  cbn [OutputPath BufferSize partEntries set_entries].
  unfold Create. rewrite Hnul.
  replace (OutputPath b =? "")%string with false
    by (symmetry; apply String.eqb_neq, Hnonempty).
  cbn [orb]. unfold file_write. rewrite lookup_insert_eq.
  cbn [mbind option_bind]. rewrite Z.eqb_refl. cbn [negb].
  unfold make_bytes.
  replace ((0 <=? BufferSize b) && (BufferSize b <=? maxAlloc)) with true
    by (symmetry; apply andb_true_iff; split; apply Z.leb_le; lia).
  rewrite insert_insert_eq. change (Z.to_nat 0) with 0%nat.
  change (write_at [] 0 h) with (write_at [] (length (@nil byte)) h).
  rewrite write_at_end. cbn [app].
  destruct (copyEntries_runs fuel (set_entries b es') fs es'
              (<[OutputPath b := h]> fs) 0 h) as [p' Hrun];
    [exact Hcp'|exact Hnul'|exact Hfuel'
    |intros q Hq; cbn [OutputPath set_entries] in Hq;
     apply lookup_insert_ne; congruence
    |apply lookup_insert_eq
    |rewrite Hlen; apply assign_chain; rewrite Z.add_0_r; reflexivity
    | |cbn; lia|].
  - rewrite Hlen.
    replace (sum_sizes es') with (sum_sizes es); [exact Hsum|].
    rewrite <- (take_ge es' (length es')), <- (take_ge es (length es')) by
      (subst es'; rewrite ?length_assign; lia).
    symmetry. apply sum_sizes_take_assign.
  - rewrite Hrun. cbn [OutputPath set_entries].
    rewrite insert_insert_eq. reflexivity.
Qed.

(** ** A size mismatch *)

Lemma length_write_at o pos d : (length o <= length (write_at o pos d))%nat.
Proof.
  unfold write_at. rewrite !length_app, length_take, repeat_length, length_drop.
  lia.
Qed.

Lemma copyLoop_keeps_output b file L : forall fuel fs inPos outPos bw p fs' p' r,
  output_at_least b L fs ->
  copyLoop fuel b file fs inPos outPos bw p = (fs', p', r) ->
  output_at_least b L fs'.
Proof.
  induction fuel as [|fuel IH]; intros fs inPos outPos bw p fs' p' r Hout Hrun;
    cbn [copyLoop] in Hrun.
  - injection Hrun as <- <- <-. exact Hout.
  - destruct (file_read fs (path file) inPos (BufferSize b)) as [chunk|];
      [|injection Hrun as <- <- <-; exact Hout].
    destruct (len chunk =? 0); [injection Hrun as <- <- <-; exact Hout|].
    unfold file_write in Hrun.
    destruct Hout as (o & Ho & HL). rewrite Ho in Hrun.
    cbn [mbind option_bind] in Hrun.
    eapply IH; [|exact Hrun].
    eexists. split; [apply lookup_insert_eq|].
    pose proof (length_write_at o (Z.to_nat outPos) chunk).
    unfold len in *. lia.
Qed.

Lemma copyFileToNSP_keeps_output fuel b file L fs p fs' p' r :
  output_at_least b L fs ->
  copyFileToNSP fuel b file fs p = (fs', p', r) ->
  output_at_least b L fs'.
Proof.
  intros Hout. unfold copyFileToNSP.
  destruct (Open fs (path file)); [|intros [= <- <- <-]; exact Hout].
  destruct (int64 (dataOffset file) <? 0); [intros [= <- <- <-]; exact Hout|].
  destruct (copyLoop _ _ _ _ _ _ _ _) as [[fs2 p2] r2] eqn:Hloop.
  apply (copyLoop_keeps_output _ _ L) in Hloop; [|exact Hout].
  destruct r2 as [n| | |]; [destruct (negb (n =? size file))|..];
    intros [= <- <- <-]; exact Hloop.
Qed.

Lemma copyEntries_keeps_output fuel b L : forall es fs p fs' p' r,
  output_at_least b L fs ->
  copyEntries fuel b es fs p = (fs', p', r) ->
  output_at_least b L fs'.
Proof.
  induction es as [|e es IH]; intros fs p fs' p' r Hout Hrun;
    cbn [copyEntries] in Hrun.
  - injection Hrun as <- <- <-. exact Hout.
  - destruct (copyFileToNSP fuel b e fs p) as [[fs1 p1] r1] eqn:Hcopy.
    apply (copyFileToNSP_keeps_output _ _ _ L) in Hcopy; [|exact Hout].
    destruct r1 as [[]| | |]; [eapply IH; eauto|..];
      injection Hrun as <- <- <-; exact Hcopy.
Qed.

(** The loop over the entries stops at the first entry that fails. *)
Lemma copyEntries_app fuel b pre rest fs p :
  copyEntries fuel b (pre ++ rest) fs p
  = match copyEntries fuel b pre fs p with
    | (fs1, p1, Done _) => copyEntries fuel b rest fs1 p1
    | other => other
    end.
Proof.
  revert fs p. induction pre as [|e pre IH]; intros fs p; [reflexivity|].
  cbn [app copyEntries].
  destruct (copyFileToNSP fuel b e fs p) as [[fs1 p1] [[]| | |]];
    [apply IH|reflexivity..].
Qed.

(** C6.  Let the header be written, the entries before [file] be copied,
    and the copy loop of [file] finish after streaming [n] bytes.  If [n]
    differs from the recorded size, [Build] returns the size-mismatch error
    with the path, the recorded size and [n]; whatever entries follow are
    not touched and nothing is tried again; and the file system is the one
    the copy loop left, with the output file, header and all, still in
    place. *)
Theorem size_mismatch_aborts sortSlice fuel fs b h pre file post
    fs1 p1 fs2 p2 n :
  partEntries b <> [] ->
  buildHeader sortSlice b = Some (h, pre ++ file :: post) ->
  has_nul (OutputPath b) = false -> OutputPath b <> EmptyString ->
  0 <= BufferSize b <= maxAlloc ->
  let b' := set_entries b (pre ++ file :: post) in
  copyEntries fuel b' pre (<[OutputPath b := h]> fs) 0 = (fs1, p1, Done tt) ->
  Open fs1 (path file) = Some tt ->
  0 <= int64 (dataOffset file) ->
  copyLoop fuel b' file fs1 0 (int64 (dataOffset file)) 0 p1
  = (fs2, p2, Done n) ->
  n <> size file ->
  Build sortSlice fuel fs b
  = (fs2, b', Failed (SizeMismatch (path file) (size file) n))
  /\ (forall post',
        copyEntries fuel b' (pre ++ file :: post') (<[OutputPath b := h]> fs) 0
        = (fs2, p2, Failed (SizeMismatch (path file) (size file) n)))
  /\ output_at_least b (len h) fs2.
Proof.
  intros Hne Hh Hnul Hnonempty Hbuf b' Hpre Hopen Hseek Hloop Hn.
  assert (Hfile : copyFileToNSP fuel b' file fs1 p1
                  = (fs2, p2, Failed (SizeMismatch (path file) (size file) n))).
  { unfold copyFileToNSP. rewrite Hopen.
    replace (int64 (dataOffset file) <? 0) with false
      by (symmetry; apply Z.ltb_ge, Hseek).
    rewrite Hloop.
    replace (n =? size file) with false by (symmetry; apply Z.eqb_neq, Hn).
    reflexivity. }
  assert (Hall : forall post',
            copyEntries fuel b' (pre ++ file :: post')
              (<[OutputPath b := h]> fs) 0
            = (fs2, p2, Failed (SizeMismatch (path file) (size file) n))).
  { intros post'. rewrite copyEntries_app, Hpre. cbn [copyEntries].
    rewrite Hfile. reflexivity. }
  split; [|split; [exact Hall|]].
  - unfold Build.
    destruct (partEntries b) as [|e0 l0] eqn:Hes; [congruence|].
    unfold len at 1. rewrite length_cons.
    destruct (Z.of_nat (S (length l0)) =? 0) eqn:E;
      [apply Z.eqb_eq in E; lia|].
    rewrite Hh. cbn [OutputPath BufferSize partEntries set_entries].
    unfold Create. rewrite Hnul.
    replace (OutputPath b =? "")%string with false
      by (symmetry; apply String.eqb_neq, Hnonempty).
    cbn [orb]. unfold file_write. rewrite lookup_insert_eq.
    cbn [mbind option_bind]. rewrite Z.eqb_refl. cbn [negb].
    unfold make_bytes.
    replace ((0 <=? BufferSize b) && (BufferSize b <=? maxAlloc)) with true
      by (symmetry; apply andb_true_iff; split; apply Z.leb_le; lia).
    rewrite insert_insert_eq. change (Z.to_nat 0) with 0%nat.
    change (write_at [] 0 h) with (write_at [] (length (@nil byte)) h).
    rewrite write_at_end. cbn [app].
    fold b'. rewrite (Hall post). reflexivity.
  - apply (copyLoop_keeps_output _ _ (len h)) in Hloop; [|].
    + destruct Hloop as (o & Ho & HL). exists o. auto.
    + apply (copyEntries_keeps_output _ _ (len h)) in Hpre; [exact Hpre|].
      exists h. split; [apply lookup_insert_eq|lia].
Qed.

Lemma size_mismatch_aborts_witness :
  exists b1 fs2,
    scenario_registered = (scenario_fs, b1, None)
    /\ Build insertionSort 2 grown_fs b1
       = (fs2, set_entries b1 scenario_entries,
          Failed (SizeMismatch "a.bin" 2 3))
    /\ output_at_least b1 80 fs2.
Proof.
  exists (snd (fst scenario_registered)).
  exists (<["out.nsp"%string := scenario_header ++ [xaa; xbb; xcc]]> grown_fs).
  destruct (size_mismatch_aborts insertionSort 2 grown_fs
               (snd (fst scenario_registered)) scenario_header []
               {| path := "a.bin"; name := "a.bin"; size := 2;
                  dataOffset := 80; stringOffset := 0 |}
               [ {| path := "b.bin"; name := "b.bin"; size := 3;
                    dataOffset := 82; stringOffset := 6 |} ]
               (<["out.nsp"%string := scenario_header]> grown_fs) 0
               (<["out.nsp"%string := scenario_header ++ [xaa; xbb; xcc]]>
                  grown_fs) 3 3)
    as (H1 & _ & H3).
  - discriminate.
  - vm_compute. reflexivity.
  - reflexivity.
  - discriminate.
  - vm_compute. split; discriminate.
  - reflexivity.
  - reflexivity.
  - vm_compute. discriminate.
  - vm_compute. reflexivity.
  - discriminate.
  - split; [reflexivity|]. split; [exact H1|exact H3].
Defined.

(** ** The round trip on the scenario *)

Lemma fs_wf_empty : fs_wf ∅.
Proof. intros p c H. rewrite lookup_empty in H. discriminate. Qed.

Lemma fs_wf_insert p c fs :
  len c < 2 ^ 63 -> fs_wf fs -> fs_wf (<[p := c]> fs).
Proof.
  intros Hc Hfs q d H. destruct (decide (p = q)) as [->|Hne].
  - rewrite lookup_insert_eq in H. injection H as <-. exact Hc.
  - rewrite lookup_insert_ne in H by exact Hne. eapply Hfs, H.
Qed.

Lemma scenario_fs_wf : fs_wf scenario_fs.
Proof.
  unfold scenario_fs.
  repeat (apply fs_wf_insert; [reflexivity|]). apply fs_wf_empty.
Qed.

Lemma archive_round_trip_witness :
  exists b1 out,
    scenario_registered = (scenario_fs, b1, None)
    /\ Build insertionSort 2 scenario_fs b1
       = (<["out.nsp"%string := out]> scenario_fs,
          set_entries b1 scenario_entries, Done tt)
    /\ out = scenario_header ++ [xaa; xbb] ++ [x01; x02; x03]
    /\ archive_name out 0 = "a.bin"%string
    /\ archive_payload out 0 = [xaa; xbb].
Proof.
  exists (snd (fst scenario_registered)).
  assert (Hrun : Build insertionSort 2 scenario_fs
                   (snd (fst scenario_registered))
                 = (<["out.nsp"%string :=
                        scenario_header ++ [xaa; xbb] ++ [x01; x02; x03]]>
                      scenario_fs,
                    set_entries (snd (fst scenario_registered))
                      scenario_entries, Done tt))
    by (vm_compute; reflexivity).
  destruct (AddFiles_registered ["b.bin"; "a.bin"]%string
              scenario_fs scenario_builder scenario_fs
              (snd (fst scenario_registered)) eq_refl ltac:(constructor))
    as (_ & Hreg & _).
  assert (Hout : OutputPath (snd (fst scenario_registered))
                 ∉ map path (partEntries (snd (fst scenario_registered)))).
  { intros Hin. apply list_elem_of_In in Hin. vm_compute in Hin.
    intuition discriminate. }
  assert (Hfit : stringTableSize (partEntries (snd (fst scenario_registered)))
                 + header_padding (partEntries (snd (fst scenario_registered)))
                 < 2 ^ 32) by (vm_compute; reflexivity).
  destruct (archive_round_trip insertionSort 2 scenario_fs
              (snd (fst scenario_registered)) _ _
              insertionSort_contract scenario_fs_wf Hreg Hout Hfit Hrun)
    as (h & out & _ & _ & _ & _ & Hfs & Hout' & Hall).
  destruct (Hall 0%nat _ eq_refl) as (_ & _ & Hname & Hpay & _).
  assert (Heq : out = scenario_header ++ [xaa; xbb] ++ [x01; x02; x03]).
  { pose proof (f_equal (fun m : FS => m !! "out.nsp"%string) Hfs) as Hl.
    cbv beta in Hl.
    change (OutputPath (snd (fst scenario_registered)))
      with "out.nsp"%string in Hl.
    rewrite !lookup_insert_eq in Hl. injection Hl as <-. reflexivity. }
  exists out. rewrite Heq. rewrite Heq in Hname, Hpay.
  split; [reflexivity|]. split; [exact Hrun|]. split; [reflexivity|].
  split; [exact Hname|exact Hpay].
Defined.


(** ** A string table of more than 2^32 bytes *)

Lemma nameLoop_app sto l1 l2 h :
  nameLoop sto (l1 ++ l2) h = nameLoop sto l1 h ≫= nameLoop sto l2.
Proof.
  revert h. induction l1 as [|e l1 IH]; intros h; [reflexivity|].
  cbn [app nameLoop].
  destruct (copy_at h (sto + stringOffset e) (bytes_of (name e))) as [h1|];
    [apply IH|reflexivity].
Qed.

Lemma Some_pair_fst {A B} (a c : A) (b d : B) :
  Some (a, b) = Some (c, d) -> a = c.
Proof. congruence. Qed.

Lemma copy_at_first P (c d : byte) rest :
  copy_at (P ++ c :: rest) (len P) [d] = Some (P ++ d :: rest).
Proof.
  unfold copy_at, len. rewrite length_app, length_cons.
  replace ((0 <=? Z.of_nat (length P))
           && (Z.of_nat (length P) <=? Z.of_nat (length P + S (length rest))))
    with true by (symmetry; apply andb_true_iff; split; apply Z.leb_le; lia).
  rewrite Nat2Z.id.
  apply (f_equal Some), (overwrite_mid P [c] rest [d]). reflexivity.
Qed.

Lemma sum_sizes_repeat e n : sum_sizes (repeat e n) = Z.of_nat n * size e.
Proof. induction n as [|n IH]; cbn [repeat sum_sizes]; lia. Qed.

Lemma slen_long_name : slen long_name = 255.
Proof. reflexivity. Qed.

Section Crowd.

Variable n : nat.
Hypothesis Hn : Z.of_nat n = 2 ^ 24.

Let es : list partitionEntry := repeat crowd_entry n ++ [last_entry].

Lemma crowd_z_sizes :
  len es = 2 ^ 24 + 1 /\ stringTableSize es = 2 ^ 32 + 2
  /\ header_padding es = 6 /\ headerSize es = 4697620528
  /\ sum_sizes es = 0.
Proof.
  assert (Hlen : len es = 2 ^ 24 + 1).
  { unfold es, len. rewrite length_app, repeat_length. cbn [length]. lia. }
  assert (Hsts : stringTableSize es = 2 ^ 32 + 2).
  { unfold es. rewrite stringTableSize_app, stringTableSize_repeat, Hn.
    reflexivity. }
  assert (Hpad : header_padding es = 6).
  { unfold header_padding, partitionTableSize. rewrite Hlen, Hsts.
    reflexivity. }
  split; [exact Hlen|]. split; [exact Hsts|]. split; [exact Hpad|].
  split.
  - unfold headerSize, partitionTableSize. rewrite Hlen, Hsts, Hpad.
    reflexivity.
  - unfold es. rewrite sum_sizes_app, sum_sizes_repeat. cbn. lia.
Qed.

Lemma crowd_z_sorted : StronglySorted name_le es.
Proof.
  unfold es. clear Hn es. induction n as [|m IH]; cbn [repeat app].
  - repeat constructor.
  - constructor; [exact IH|].
    apply Forall_app. split.
    + apply Forall_forall. intros x Hx.
      apply list_elem_of_In, repeat_spec in Hx. subst x. apply name_le_refl.
    + repeat constructor.
Qed.

Lemma crowd_z_elements x : x ∈ es -> x = crowd_entry \/ x = last_entry.
Proof.
  unfold es. rewrite elem_of_app, list_elem_of_singleton.
  intros [Hx| ->]; [left|right; reflexivity].
  apply list_elem_of_In, repeat_spec in Hx. exact Hx.
Qed.

(** The list is sorted already, and the sort returns it as it is. *)
Lemma crowd_z_sort sortSlice : sort_contract sortSlice -> sortSlice es = es.
Proof.
  intros Hc. destruct (Hc es) as [Hperm Hsorted].
  eapply StronglySorted_unique_strong;
    [|exact Hsorted|exact crowd_z_sorted|symmetry; exact Hperm].
  intros x1 x2 Hx1 Hx2 H12 H21. rewrite <- Hperm in Hx1.
  apply crowd_z_elements in Hx1, Hx2.
  destruct Hx1 as [-> | ->], Hx2 as [-> | ->]; try reflexivity;
    unfold name_le in *; discriminate.
Qed.

Lemma crowd_z_last_offset base :
  assign base es 0 0
  = assign base (repeat crowd_entry n) 0 0
    ++ [set_offsets last_entry
          (uint64 (base + rel_after 0 (repeat crowd_entry n))) 0].
Proof.
  unfold es. rewrite assign_app. cbn [assign]. do 3 f_equal.
  rewrite soff_after_nowrap.
  - rewrite stringTableSize_repeat, Hn. reflexivity.
  - lia.
  - rewrite stringTableSize_repeat, Hn.
    change (slen (name crowd_entry)) with 255. lia.
  - left. destruct n; [cbn in Hn; lia|discriminate].
Qed.

(** The header of this list: the name of the last entry has been written
    over the beginning of the first name. *)
Lemma crowd_z_header h es' :
  generateHeader es = Some (h, es') ->
  exists rest, h = (prologue es ++ records es 0 0) ++ "z"%byte :: rest.
Proof.
  destruct crowd_z_sizes as (Hlen & Hsts & Hpad & Hsize & _).
  rewrite generateHeader_steps, crowd_z_last_offset, nameLoop_app.
  rewrite Hsize, Hsts, Hpad.
  replace ((0 <=? 4697620528) && (4697620528 <=? maxAlloc)) with true
    by reflexivity.
  assert (Hrep : stringTableSize (repeat crowd_entry n) = 2 ^ 32)
    by (rewrite stringTableSize_repeat, Hn; reflexivity).
  replace (Z.to_nat (2 ^ 32 + 2) + Z.to_nat 6)%nat
    with (Z.to_nat (stringTableSize (repeat crowd_entry n)) + 8)%nat
    by (rewrite Hrep; lia).
  assert (HP : len (prologue es ++ records es 0 0)
               = headerMetadataSize + partitionTableSize es).
  { rewrite len_app, len_prologue, len_records.
    unfold headerMetadataSize, partitionTableSize. lia. }
  rewrite (nameLoop_zeros _ _ (repeat crowd_entry n) _ 8 0 0);
    [|rewrite HP; lia|lia|rewrite Hrep; lia].
  cbn [mbind option_bind nameLoop stringOffset set_offsets].
  change (name (set_offsets last_entry _ 0)) with "z"%string.
  rewrite Z.add_0_r, <- HP.
  destruct n as [|m]; [cbn in Hn; lia|].
  change (name_table (repeat crowd_entry (S m)))
    with ((bytes_of long_name ++ [x00]) ++ name_table (repeat crowd_entry m)).
  change (bytes_of long_name) with ("n"%byte :: List.tl (bytes_of long_name)).
  set (P := prologue es ++ records es 0 0) in *.
  rewrite <- !app_assoc, <- app_comm_cons.
  rewrite (copy_at_first P "n"%byte "z"%byte).
  cbn [mbind option_bind]. intros Heq. apply Some_pair_fst in Heq.
  rewrite <- Heq. eexists. reflexivity.
Qed.

(** Reading the name of the first entry back from an archive that starts
    with this header does not give the name of the first entry. *)
Lemma crowd_z_name h es' tail :
  generateHeader es = Some (h, es') ->
  archive_name (h ++ tail) 0 <> long_name.
Proof.
  intros Hh. destruct (crowd_z_header _ _ Hh) as [rest Hrest].
  destruct crowd_z_sizes as (Hlen & _).
  assert (Hes : es = [] ++ crowd_entry :: (repeat crowd_entry (n - 1)
                                           ++ [last_entry])).
  { unfold es. destruct n as [|m]; [cbn in Hn; lia|].
    replace (S m - 1)%nat with m by lia. reflexivity. }
  assert (Hshape : h ++ tail
                   = prologue es ++ records es 0 0 ++ "z"%byte :: rest ++ tail)
    by (rewrite Hrest, <- !app_assoc; reflexivity).
  destruct (prologue_fields es (records es 0 0 ++ "z"%byte :: rest ++ tail))
    as (_ & Hc & _).
  destruct (record_fields [] crowd_entry _
              ("z"%byte :: rest ++ tail) es 0 Hes eq_refl)
    as (_ & _ & Hs & _).
  unfold archive_name, archive_count. rewrite Hshape.
  change (16 + 24 * 0 + 16) with (16 + 24 * Z.of_nat 0 + 16).
  rewrite Hc, Hs, Hlen. cbn [soff_after fold_left].
  change (uint32 0) with 0. change (uint32 (2 ^ 24 + 1)) with (2 ^ 24 + 1).
  rewrite (drop_in _ (prologue es ++ records es 0 0) ("z"%byte :: rest ++ tail)).
  - cbn [cstring Byte.eqb]. discriminate.
  - rewrite <- !app_assoc. reflexivity.
  - rewrite length_app, length_prologue, length_records.
    unfold len in Hlen. lia.
Qed.

End Crowd.

(** ** Registering several files *)

(** X1.  When every path can be stat-ed, [AddFiles] returns no error and appends
    one registered entry per path, in the order of the paths; the entries
    already present and the file system stay as they were. *)
Theorem AddFiles_all_registered fs b paths :
  Forall (fun p => is_Some (Stat fs p)) paths ->
  exists b' new,
    AddFiles fs b paths = (fs, b', None)
    /\ partEntries b' = partEntries b ++ new
    /\ map path new = paths
    /\ map name new = map basename paths
    /\ Forall (registered fs) new
    /\ OutputPath b' = OutputPath b /\ BufferSize b' = BufferSize b.
Proof.
  intros Hok. revert b.
  induction Hok as [|p paths [info Hp] _ IH]; intros b; cbn [AddFiles].
  - exists b, []. rewrite app_nil_r. repeat split; constructor.
  - destruct (AddFile fs b p) as [[fs1 b1] err] eqn:Hadd.
    assert (err = None) as ->.
    { unfold AddFile in Hadd. rewrite Hp in Hadd. congruence. }
    apply AddFile_registered in Hadd as (-> & e & He & Hpe & Hr & Ho & Hb).
    destruct (IH b1) as (b' & new & Hrun & Hes & Hpaths & Hnames & Hreg & Ho' & Hb').
    exists b', (e :: new). rewrite Hrun, Hes, He, <- app_assoc.
    split; [reflexivity|]. split; [reflexivity|].
    cbn [map]. rewrite Hpaths, Hnames, Hpe.
    split; [reflexivity|]. split.
    { f_equal. destruct Hr as (c & _ & _ & Hn & _). rewrite Hn, Hpe. reflexivity. }
    split; [constructor; assumption|]. split; congruence.
Qed.

Lemma AddFiles_all_registered_witness :
  exists b' new,
    AddFiles scenario_fs scenario_builder ["b.bin"; "a.bin"]%string
    = (scenario_fs, b', None)
    /\ partEntries b' = new
    /\ map name new = ["b.bin"; "a.bin"]%string.
Proof.
  destruct (AddFiles_all_registered scenario_fs scenario_builder
              ["b.bin"; "a.bin"]%string)
    as (b' & new & H1 & H2 & _ & H4 & _).
  - repeat constructor; eexists; reflexivity.
  - exists b', new. split; [exact H1|]. split; [exact H2|exact H4].
Defined.

(** X2.  [AddFiles] stops at the first path that cannot be stat-ed: it returns
    the error for that path, keeps the entries registered before it, and
    does not look at the paths after it. *)
Theorem AddFiles_stops_at_first_error fs b ok bad rest :
  Forall (fun p => is_Some (Stat fs p)) ok ->
  Stat fs bad = None ->
  exists b1,
    AddFiles fs b ok = (fs, b1, None)
    /\ AddFiles fs b (ok ++ bad :: rest) = (fs, b1, Some (AddFileError bad))
    /\ length (partEntries b1) = (length (partEntries b) + length ok)%nat.
Proof.
  intros Hok Hbad. revert b.
  induction Hok as [|p paths [info Hp] _ IH]; intros b; cbn [AddFiles app].
  - exists b. split; [reflexivity|].
    unfold AddFile. rewrite Hbad. split; [reflexivity|cbn; lia].
  - destruct (AddFile fs b p) as [[fs1 b1] err] eqn:Hadd.
    assert (err = None) as ->.
    { unfold AddFile in Hadd. rewrite Hp in Hadd. congruence. }
    apply AddFile_registered in Hadd as (-> & e & He & _).
    destruct (IH b1) as (b2 & H1 & H2 & H3).
    exists b2. split; [exact H1|]. split; [exact H2|].
    rewrite H3, He, length_app. cbn [length]. lia.
Qed.

Lemma AddFiles_stops_at_first_error_witness :
  exists b1,
    AddFiles scenario_fs scenario_builder ["b.bin"; "c.bin"; "a.bin"]%string
    = (scenario_fs, b1, Some (AddFileError "c.bin"))
    /\ length (partEntries b1) = 1%nat.
Proof.
  destruct (AddFiles_stops_at_first_error scenario_fs scenario_builder
              ["b.bin"%string] "c.bin" ["a.bin"%string])
    as (b1 & _ & H2 & H3).
  - repeat constructor; eexists; reflexivity.
  - reflexivity.
  - exists b1. split; [exact H2|exact H3].
Defined.

(** ** What the header depends on *)

Lemma map_name_assign base es : forall soff rel,
  map name (assign base es soff rel) = map name es.
Proof. induction es as [|e es IH]; intros; cbn [assign map]; [|rewrite IH]; reflexivity. Qed.

Lemma map_size_assign base es : forall soff rel,
  map size (assign base es soff rel) = map size es.
Proof. induction es as [|e es IH]; intros; cbn [assign map]; [|rewrite IH]; reflexivity. Qed.

Lemma headerSize_nonneg es : 0 <= headerSize es.
Proof.
  unfold headerSize, headerMetadataSize, partitionTableSize, len.
  pose proof (stringTableSize_nonneg es). pose proof (header_padding_range es). lia.
Qed.

(** Entry lists with the same names and sizes, entry by entry. *)
Lemma same_names_sizes es1 : forall es2,
  map name es1 = map name es2 -> map size es1 = map size es2 ->
  Forall2 (fun a b => name a = name b /\ size a = size b) es1 es2.
Proof.
  induction es1 as [|a es1 IH]; intros [|b es2] Hn Hs; try discriminate.
  - constructor.
  - cbn [map] in Hn, Hs. injection Hn as Hn1 Hn2. injection Hs as Hs1 Hs2.
    constructor; [split; assumption|apply IH; assumption].
Qed.

Lemma stringTableSize_same es1 es2 :
  Forall2 (fun a b => name a = name b /\ size a = size b) es1 es2 ->
  stringTableSize es1 = stringTableSize es2.
Proof.
  induction 1 as [|a b es1 es2 [Hn _] _ IH]; [reflexivity|].
  rewrite !stringTableSize_cons, Hn, IH. reflexivity.
Qed.

Lemma headerSize_same es1 es2 :
  Forall2 (fun a b => name a = name b /\ size a = size b) es1 es2 ->
  headerSize es1 = headerSize es2 /\ header_padding es1 = header_padding es2
  /\ len es1 = len es2.
Proof.
  intros H. pose proof (stringTableSize_same _ _ H) as Hs.
  pose proof (Forall2_length _ _ _ H) as Hl.
  assert (len es1 = len es2) as Hlen by (unfold len; lia).
  unfold headerSize, header_padding, partitionTableSize. rewrite Hs, Hlen. auto.
Qed.

Lemma records_same es1 es2 :
  Forall2 (fun a b => name a = name b /\ size a = size b) es1 es2 ->
  forall soff rel, records es1 soff rel = records es2 soff rel.
Proof.
  induction 1 as [|a b es1 es2 [Hn Hs] _ IH]; intros soff rel; [reflexivity|].
  cbn [records]. unfold next_soff, next_rel. rewrite Hn, Hs, IH. reflexivity.
Qed.

Lemma nameLoop_assign_same base1 base2 sto es1 es2 :
  Forall2 (fun a b => name a = name b /\ size a = size b) es1 es2 ->
  forall soff rel1 rel2 h,
    nameLoop sto (assign base1 es1 soff rel1) h
    = nameLoop sto (assign base2 es2 soff rel2) h.
Proof.
  induction 1 as [|a b es1 es2 [Hn Hs] _ IH]; intros soff rel1 rel2 h; [reflexivity|].
  cbn [assign nameLoop set_offsets name stringOffset]. rewrite Hn.
  destruct (copy_at h (sto + soff) (bytes_of (name b))) as [h1|]; [|reflexivity].
  cbn. unfold next_soff. rewrite Hn. apply IH.
Qed.

Lemma offsets_assign_same base es1 es2 :
  Forall2 (fun a b => name a = name b /\ size a = size b) es1 es2 ->
  forall soff rel,
    map dataOffset (assign base es1 soff rel) = map dataOffset (assign base es2 soff rel)
    /\ map stringOffset (assign base es1 soff rel)
       = map stringOffset (assign base es2 soff rel).
Proof.
  induction 1 as [|a b es1 es2 [Hn Hs] _ IH]; intros soff rel; [split; reflexivity|].
  cbn [assign map set_offsets dataOffset stringOffset].
  unfold next_soff, next_rel. rewrite Hn, Hs.
  destruct (IH (uint32 (soff + uint32 (slen (name b) + 1))) (uint64 (rel + size b)))
    as [-> ->].
  split; reflexivity.
Qed.

Lemma assign_assign base1 base2 es : forall soff1 rel1 soff rel,
  assign base2 (assign base1 es soff1 rel1) soff rel = assign base2 es soff rel.
Proof.
  induction es as [|e es IH]; intros; [reflexivity|].
  cbn [assign]. rewrite IH. reflexivity.
Qed.

Lemma prologue_same es1 es2 :
  Forall2 (fun a b => name a = name b /\ size a = size b) es1 es2 ->
  prologue es1 = prologue es2.
Proof.
  intros H. destruct (headerSize_same _ _ H) as (_ & Hp & Hl).
  unfold prologue. rewrite (stringTableSize_same _ _ H), Hp, Hl. reflexivity.
Qed.

Lemma Forall2_assign_self base es soff rel :
  Forall2 (fun a b => name a = name b /\ size a = size b)
          (assign base es soff rel) es.
Proof.
  revert soff rel. induction es as [|e es IH]; intros; cbn [assign]; constructor.
  - split; reflexivity.
  - apply IH.
Qed.

(** X3.  [generateHeader] panics only when the header cannot be allocated.  In
    every other case it returns a header of [headerSize] bytes, a multiple
    of 16, and the entries in the same order with their path, name and size
    as before. *)
Theorem generateHeader_panics_only_on_allocation es :
  match generateHeader es with
  | None => maxAlloc < headerSize es
  | Some (h, es') =>
      headerSize es <= maxAlloc
      /\ len h = headerSize es /\ len h mod 16 = 0
      /\ map path es' = map path es /\ map name es' = map name es
      /\ map size es' = map size es
  end.
Proof.
  destruct (Z_le_gt_dec (headerSize es) maxAlloc) as [Hle|Hgt].
  - destruct (generateHeader_total es Hle) as [h Hh]. rewrite Hh.
    destruct (generateHeader_inv _ _ _ Hh) as (Hlen & _ & _).
    rewrite Hlen, map_path_assign, map_name_assign, map_size_assign.
    split; [exact Hle|]. split; [reflexivity|].
    split; [apply headerSize_aligned|]. auto.
  - rewrite generateHeader_steps.
    replace (headerSize es <=? maxAlloc) with false by (symmetry; apply Z.leb_gt; lia).
    rewrite andb_false_r. lia.
Qed.

(** X4.  The header and the offsets that [generateHeader] assigns depend on the
    names and the sizes of the entries only: two entry lists that agree on
    them, whatever their paths and their earlier offsets, give the same
    header and the same offsets, or both make the allocation fail. *)
Theorem generateHeader_names_sizes es1 es2 :
  map name es1 = map name es2 -> map size es1 = map size es2 ->
  match generateHeader es1, generateHeader es2 with
  | Some (h1, r1), Some (h2, r2) =>
      h1 = h2 /\ map dataOffset r1 = map dataOffset r2
      /\ map stringOffset r1 = map stringOffset r2
  | None, None => True
  | _, _ => False
  end.
Proof.
  intros Hn Hs. pose proof (same_names_sizes _ _ Hn Hs) as H.
  destruct (headerSize_same _ _ H) as (Hh & Hp & Hl).
  rewrite !generateHeader_steps.
  unfold partitionTableSize.
  rewrite (prologue_same _ _ H), (records_same _ _ H),
    (stringTableSize_same _ _ H), Hh, Hp, Hl.
  rewrite (nameLoop_assign_same (uint64 (headerSize es2)) (uint64 (headerSize es2))
             _ _ _ H 0 0 0).
  destruct (_ && _); [|exact I].
  destruct (nameLoop _ _ _) as [h|]; cbn; [|exact I].
  split; [reflexivity|]. apply offsets_assign_same, H.
Qed.

Lemma generateHeader_names_sizes_witness :
  match generateHeader [mkEntry "x/a.bin" "a.bin" 2; mkEntry "y/b.bin" "b.bin" 3],
        generateHeader scenario_entries with
  | Some (h1, r1), Some (h2, r2) =>
      h1 = h2 /\ map dataOffset r1 = map dataOffset r2
      /\ map stringOffset r1 = map stringOffset r2
  | None, None => True
  | _, _ => False
  end.
Proof.
  apply (generateHeader_names_sizes
           [mkEntry "x/a.bin" "a.bin" 2; mkEntry "y/b.bin" "b.bin" 3]
           scenario_entries); reflexivity.
Defined.

(** Run again on the entries it returned, [generateHeader] returns the same
    header and leaves the entries as they are. *)
Lemma generateHeader_again es h es' :
  generateHeader es = Some (h, es') -> generateHeader es' = Some (h, es').
Proof.
  intros Hg. destruct (generateHeader_inv _ _ _ Hg) as (_ & Hes & _).
  pose proof (Forall2_assign_self (uint64 (headerSize es)) es 0 0) as H.
  rewrite <- Hes in H.
  destruct (headerSize_same _ _ H) as (Hh & Hp & Hl).
  rewrite generateHeader_steps in Hg |- *.
  unfold partitionTableSize in *.
  rewrite (prologue_same _ _ H), (records_same _ _ H),
    (stringTableSize_same _ _ H), Hh, Hp, Hl.
  rewrite (nameLoop_assign_same (uint64 (headerSize es)) (uint64 (headerSize es))
             _ _ _ H 0 0 0).
  destruct (_ && _); [|discriminate].
  destruct (nameLoop _ _ _) as [h1|]; cbn in Hg |- *; [|discriminate].
  injection Hg as -> _. rewrite Hes, assign_assign. reflexivity.
Qed.

(** ** [Build] step by step *)

(** [Build] once the header is there and the output path is valid. *)
Lemma Build_after_header sortSlice fuel fs b h es :
  partEntries b <> [] ->
  buildHeader sortSlice b = Some (h, es) ->
  has_nul (OutputPath b) = false -> OutputPath b <> EmptyString ->
  Build sortSlice fuel fs b
  = match make_bytes (BufferSize b) with
    | None => (<[OutputPath b := h]> fs, set_entries b es, Panicked)
    | Some _ =>
        let '(fs', _, r) :=
          copyEntries fuel (set_entries b es) es (<[OutputPath b := h]> fs) 0 in
        (fs', set_entries b es, r)
    end.
Proof.
  intros Hne Hh Hnul Hnonempty. unfold Build.
  destruct (partEntries b) as [|e0 l0] eqn:Hes; [congruence|].
  unfold len at 1. rewrite length_cons.
  destruct (Z.of_nat (S (length l0)) =? 0) eqn:E; [apply Z.eqb_eq in E; lia|].
  rewrite Hh. cbn [OutputPath BufferSize partEntries set_entries].
  unfold Create. rewrite Hnul.
  replace (OutputPath b =? "")%string with false
    by (symmetry; apply String.eqb_neq, Hnonempty).
  cbn [orb]. unfold file_write. rewrite lookup_insert_eq.
  cbn [mbind option_bind]. rewrite Z.eqb_refl. cbn [negb].
  rewrite insert_insert_eq. change (Z.to_nat 0) with 0%nat.
  change (write_at [] 0 h) with (write_at [] (length (@nil byte)) h).
  rewrite write_at_end. cbn [app]. reflexivity.
Qed.

Lemma copyLoop_frame b file : forall fuel fs inPos outPos bw p fs' p' r,
  copyLoop fuel b file fs inPos outPos bw p = (fs', p', r) ->
  forall q, q <> OutputPath b -> fs' !! q = fs !! q.
Proof.
  induction fuel as [|fuel IH]; intros fs inPos outPos bw p fs' p' r Hrun q Hq;
    cbn [copyLoop] in Hrun.
  - injection Hrun as <- <- <-. reflexivity.
  - destruct (file_read fs (path file) inPos (BufferSize b)) as [chunk|];
      [|injection Hrun as <- <- <-; reflexivity].
    destruct (len chunk =? 0); [injection Hrun as <- <- <-; reflexivity|].
    unfold file_write in Hrun.
    destruct (fs !! OutputPath b) as [o|];
      [|injection Hrun as <- <- <-; reflexivity].
    cbn [mbind option_bind] in Hrun.
    rewrite (IH _ _ _ _ _ _ _ _ Hrun q Hq). apply lookup_insert_ne. congruence.
Qed.

Lemma copyFileToNSP_frame fuel b file fs p fs' p' r :
  copyFileToNSP fuel b file fs p = (fs', p', r) ->
  forall q, q <> OutputPath b -> fs' !! q = fs !! q.
Proof.
  unfold copyFileToNSP.
  destruct (Open fs (path file)); [|intros [= <- <- <-]; reflexivity].
  destruct (int64 (dataOffset file) <? 0); [intros [= <- <- <-]; reflexivity|].
  destruct (copyLoop _ _ _ _ _ _ _ _) as [[fs2 p2] r2] eqn:Hloop.
  pose proof (copyLoop_frame _ _ _ _ _ _ _ _ _ _ _ Hloop) as Hf.
  destruct r2 as [n| | |]; [destruct (negb (n =? size file))|..];
    intros [= <- <- <-]; exact Hf.
Qed.

Lemma copyEntries_frame fuel b : forall es fs p fs' p' r,
  copyEntries fuel b es fs p = (fs', p', r) ->
  forall q, q <> OutputPath b -> fs' !! q = fs !! q.
Proof.
  induction es as [|e es IH]; intros fs p fs' p' r Hrun q Hq;
    cbn [copyEntries] in Hrun.
  - injection Hrun as <- <- <-. reflexivity.
  - destruct (copyFileToNSP fuel b e fs p) as [[fs1 p1] r1] eqn:Hcopy.
    pose proof (copyFileToNSP_frame _ _ _ _ _ _ _ _ Hcopy q Hq) as Hf.
    destruct r1 as [[]| | |];
      [rewrite (IH _ _ _ _ _ Hrun q Hq); exact Hf|..];
      injection Hrun as <- <- <-; exact Hf.
Qed.

Lemma Build_frame sortSlice fuel fs b fs' b' r :
  Build sortSlice fuel fs b = (fs', b', r) ->
  forall q, q <> OutputPath b -> fs' !! q = fs !! q.
Proof.
  unfold Build.
  destruct (len (partEntries b) =? 0); [intros [= <- <- <-]; auto|].
  destruct (buildHeader sortSlice b) as [[h es]|]; [|intros [= <- <- <-]; auto].
  cbn [OutputPath BufferSize partEntries set_entries].
  unfold Create.
  destruct (has_nul (OutputPath b) || (OutputPath b =? "")%string);
    [intros [= <- <- <-]; auto|].
  unfold file_write. rewrite lookup_insert_eq. cbn [mbind option_bind].
  rewrite insert_insert_eq.
  assert (Hins : forall q, q <> OutputPath b ->
            (<[OutputPath b := write_at [] (Z.to_nat 0) h]> fs) !! q = fs !! q)
    by (intros q Hq; apply lookup_insert_ne; congruence).
  destruct (negb (len h =? len h)); [intros [= <- <- <-]; auto|].
  destruct (make_bytes (BufferSize b)); [|intros [= <- <- <-]; auto].
  destruct (copyEntries _ _ _ _ _) as [[fs2 p2] r2] eqn:Hcopy.
  intros [= <- <- <-] q Hq.
  rewrite (copyEntries_frame _ _ _ _ _ _ _ _ Hcopy q) by exact Hq.
  apply Hins, Hq.
Qed.

Lemma map_source_assign base es : forall soff rel,
  map (fun e => (path e, name e, size e)) (assign base es soff rel)
  = map (fun e => (path e, name e, size e)) es.
Proof.
  induction es as [|e es IH]; intros; cbn [assign map]; [|rewrite IH]; reflexivity.
Qed.

(** The builder [Build] leaves behind, in each of its outcomes. *)
Lemma Build_builder sortSlice fuel fs b fs' b' r :
  Build sortSlice fuel fs b = (fs', b', r) ->
  b' = b \/ b' = set_entries b (sortSlice (partEntries b))
  \/ b' = set_entries b
            (assign (uint64 (headerSize (sortSlice (partEntries b))))
                    (sortSlice (partEntries b)) 0 0).
Proof.
  unfold Build.
  destruct (len (partEntries b) =? 0); [intros [= _ <- _]; auto|].
  destruct (buildHeader sortSlice b) as [[h es]|] eqn:Hh;
    [|intros [= _ <- _]; auto].
  unfold buildHeader in Hh. destruct (generateHeader_inv _ _ _ Hh) as (_ & -> & _).
  cbn [OutputPath BufferSize partEntries set_entries].
  destruct (Create fs (OutputPath b)) as [fs1|]; [|intros [= _ <- _]; auto].
  destruct (file_write fs1 (OutputPath b) 0 h) as [[fs2 n]|];
    [|intros [= _ <- _]; auto].
  destruct (negb (n =? len h)); [intros [= _ <- _]; auto|].
  destruct (make_bytes (BufferSize b)); [|intros [= _ <- _]; auto].
  destruct (copyEntries _ _ _ _ _) as [[fs3 p3] r3]. intros [= _ <- _]; auto.
Qed.

(** X7.  Whatever its outcome (success, error, panic, or still copying when the
    step budget ends), [Build] changes no file but the output file.  In the
    builder it changes the entry list only, and only by putting it in
    another order and assigning offsets: paths, names and sizes are the
    same as before. *)
Theorem Build_touches_only_output sortSlice fuel fs b fs' b' r :
  sort_contract sortSlice ->
  Build sortSlice fuel fs b = (fs', b', r) ->
  (forall q, q <> OutputPath b -> fs' !! q = fs !! q)
  /\ OutputPath b' = OutputPath b /\ BufferSize b' = BufferSize b
  /\ ShowProgress b' = ShowProgress b
  /\ Permutation (map (fun e => (path e, name e, size e)) (partEntries b))
                 (map (fun e => (path e, name e, size e)) (partEntries b')).
Proof.
  intros Hc Hrun. split; [exact (Build_frame _ _ _ _ _ _ _ Hrun)|].
  destruct (Hc (partEntries b)) as [Hperm _].
  destruct (Build_builder _ _ _ _ _ _ _ Hrun) as [-> | [-> | ->] ];
    cbn [OutputPath BufferSize ShowProgress partEntries set_entries].
  - auto.
  - split; [reflexivity|]. split; [reflexivity|]. split; [reflexivity|].
    apply Permutation_map, Hperm.
  - split; [reflexivity|]. split; [reflexivity|]. split; [reflexivity|].
    rewrite map_source_assign. apply Permutation_map, Hperm.
Qed.

Lemma Build_touches_only_output_witness :
  (<["out.nsp"%string := scenario_header ++ [xaa; xbb; xcc]]> grown_fs)
    !! "a.bin"%string
  = grown_fs !! "a.bin"%string
  /\ OutputPath (set_entries (snd (fst scenario_registered)) scenario_entries)
     = "out.nsp"%string.
Proof.
  destruct (Build_touches_only_output insertionSort 2 grown_fs
              (snd (fst scenario_registered))
              (<["out.nsp"%string := scenario_header ++ [xaa; xbb; xcc]]> grown_fs)
              (set_entries (snd (fst scenario_registered)) scenario_entries)
              (Failed (SizeMismatch "a.bin" 2 3)))
    as (H1 & H2 & _).
  - apply insertionSort_contract.
  - vm_compute. reflexivity.
  - split; [apply H1; discriminate|exact H2].
Defined.

Lemma Build_done_path sortSlice fuel fs b fs' b' :
  Build sortSlice fuel fs b = (fs', b', Done tt) ->
  OutputPath b <> EmptyString /\ exists buf, make_bytes (BufferSize b) = Some buf.
Proof.
  unfold Build.
  destruct (len (partEntries b) =? 0); [discriminate|].
  destruct (buildHeader sortSlice b) as [[h es]|]; [|discriminate].
  cbn [OutputPath BufferSize partEntries set_entries].
  unfold Create.
  destruct (has_nul (OutputPath b) || (OutputPath b =? "")%string) eqn:Hv;
    [discriminate|].
  apply orb_false_iff in Hv as [_ Hne]. apply String.eqb_neq in Hne.
  unfold file_write. rewrite lookup_insert_eq. cbn [mbind option_bind].
  destruct (negb (len h =? len h)); [discriminate|].
  destruct (make_bytes (BufferSize b)) as [buf|]; [|discriminate].
  intros _. split; [exact Hne|]. exists buf. reflexivity.
Qed.

Lemma registered_all_copyable fs b es :
  fs_wf fs -> Forall (registered fs) es -> OutputPath b ∉ map path es ->
  Forall (copyable fs b) es.
Proof.
  intros Hwf Hreg Hout. rewrite Forall_forall in Hreg |- *. intros e He.
  eapply registered_copyable; [exact Hwf|apply Hreg, He| |reflexivity..].
  intros Heq. apply Hout. rewrite <- Heq. apply list_elem_of_fmap_2, He.
Qed.

Lemma sum_sizes_assign base es : forall soff rel,
  sum_sizes (assign base es soff rel) = sum_sizes es.
Proof.
  induction es as [|e es IH]; intros; [reflexivity|].
  cbn [assign sum_sizes set_offsets size]. rewrite IH. reflexivity.
Qed.

Lemma offsets_chain_app_l l1 : forall L l2,
  offsets_chain L (l1 ++ l2) -> offsets_chain L l1.
Proof.
  induction l1 as [|e l1 IH]; intros L l2 H; [exact I|].
  cbn [app offsets_chain] in *. destruct H as [Hd H]. split; [exact Hd|].
  eapply IH, H.
Qed.

Lemma offsets_chain_app_r l1 : forall L l2,
  offsets_chain L (l1 ++ l2) -> offsets_chain (L + sum_sizes l1) l2.
Proof.
  induction l1 as [|e l1 IH]; intros L l2 H; cbn [app offsets_chain sum_sizes] in *.
  - rewrite Z.add_0_r. exact H.
  - destruct H as [_ H]. apply IH in H.
    replace (L + (size e + sum_sizes l1)) with (L + size e + sum_sizes l1) by lia.
    exact H.
Qed.

(** The entries [buildHeader] returns carry offsets that follow each other
    from the end of the header on. *)
Lemma buildHeader_chain sortSlice b h es :
  buildHeader sortSlice b = Some (h, es) -> offsets_chain (len h) es.
Proof.
  intros Hh. unfold buildHeader in Hh.
  destruct (generateHeader_inv _ _ _ Hh) as (Hlen & -> & _).
  rewrite Hlen. apply assign_chain. rewrite Z.add_0_r. reflexivity.
Qed.

Lemma sort_sorted_unique sortSlice l :
  sort_contract sortSlice -> StronglySorted name_le l -> NoDup (map name l) ->
  sortSlice l = l.
Proof.
  intros Hc Hs Hnd. destruct (Hc l) as [Hp Hs'].
  eapply StronglySorted_unique_strong; [|exact Hs'|exact Hs|].
  - intros x1 x2 Hx1 Hx2 H12 H21.
    assert (Hn : name x1 = name x2).
    { unfold name_le, less in *. apply ltb_false_antisym; assumption. }
    rewrite <- Hp in Hx1.
    apply list_elem_of_lookup in Hx1 as [i Hi], Hx2 as [j Hj].
    assert (i = j).
    { eapply NoDup_lookup; [exact Hnd| |].
      - rewrite list_lookup_fmap, Hi. reflexivity.
      - rewrite list_lookup_fmap, Hj. cbn. f_equal. symmetry. exact Hn. }
    subst j. congruence.
  - symmetry. exact Hp.
Qed.

(** ** The result of a successful [Build] *)

(** X5.  Registered sources that are not the output file, a valid output path,
    a buffer of at least one byte, a header that can be allocated, offsets
    below 2^63 and a step budget above the length of every source: then
    [Build] runs to the end and returns no error.  The output file is the
    header followed by the sources in name order; its header has
    [headerSize] bytes and its payload region the sum of the recorded
    sizes. *)
Theorem Build_succeeds sortSlice fuel fs b :
  sort_contract sortSlice ->
  fs_wf fs ->
  partEntries b <> [] ->
  Forall (registered fs) (partEntries b) ->
  OutputPath b ∉ map path (partEntries b) ->
  has_nul (OutputPath b) = false -> OutputPath b <> EmptyString ->
  1 <= BufferSize b <= maxAlloc ->
  headerSize (partEntries b) <= maxAlloc ->
  headerSize (partEntries b) + sum_sizes (partEntries b) < 2 ^ 63 ->
  Forall (fun e => (length (source_bytes fs e) < fuel)%nat) (partEntries b) ->
  exists h es',
    buildHeader sortSlice b = Some (h, es')
    /\ Build sortSlice fuel fs b
       = (<[OutputPath b := h ++ payload_region fs es']> fs,
          set_entries b es', Done tt)
    /\ len h = headerSize (partEntries b)
    /\ len (payload_region fs es') = sum_sizes (partEntries b)
    /\ Permutation (map path (partEntries b)) (map path es')
    /\ StronglySorted name_le es'.
Proof.
  intros Hc Hwf Hne Hreg Hout Hnul Hnonempty Hbuf Hmax Hsum Hfuel.
  destruct (Build_runs sortSlice fuel fs b Hc Hwf Hne Hreg Hout Hnul Hnonempty
              Hbuf Hmax Hsum Hfuel) as (h & es' & Hh & Hrun).
  exists h, es'. split; [exact Hh|]. split; [exact Hrun|].
  destruct (Hc (partEntries b)) as [Hperm Hsorted].
  unfold buildHeader in Hh.
  destruct (generateHeader_inv _ _ _ Hh) as (Hlen & -> & _).
  split; [rewrite Hlen; symmetry; apply headerSize_perm, Hperm|].
  split.
  { rewrite payload_region_assign, (len_payload_region fs b).
    - symmetry. apply sum_sizes_perm, Hperm.
    - eapply Permutation_Forall; [exact Hperm|].
      apply registered_all_copyable; assumption. }
  split; [rewrite map_path_assign; apply Permutation_map, Hperm|].
  apply StronglySorted_assign, Hsorted.
Qed.

Lemma Build_succeeds_witness :
  exists h es',
    Build insertionSort 4 scenario_fs (snd (fst scenario_registered))
    = (<["out.nsp"%string := h ++ payload_region scenario_fs es']> scenario_fs,
       set_entries (snd (fst scenario_registered)) es', Done tt)
    /\ len h = 80 /\ len (payload_region scenario_fs es') = 5.
Proof.
  destruct (AddFiles_registered ["b.bin"; "a.bin"]%string
              scenario_fs scenario_builder scenario_fs
              (snd (fst scenario_registered)))
    as (_ & Hreg & _); [reflexivity|constructor|].
  destruct (Build_succeeds insertionSort 4 scenario_fs
              (snd (fst scenario_registered)))
    as (h & es' & _ & H2 & H3 & H4 & _).
  - apply insertionSort_contract.
  - apply scenario_fs_wf.
  - discriminate.
  - exact Hreg.
  - intros Hin. apply list_elem_of_In in Hin. vm_compute in Hin.
    intuition discriminate.
  - reflexivity.
  - discriminate.
  - vm_compute. split; discriminate.
  - vm_compute. discriminate.
  - vm_compute. reflexivity.
  - repeat constructor.
  - exists h, es'. split; [exact H2|]. split; [exact H3|exact H4].
Defined.

(** X8.  The buffer size has no influence on the result: under the conditions
    above, two builders that differ in their buffer size only, each of at
    least one byte, leave the same file system and the same entries. *)
Theorem Build_buffer_independent sortSlice fuel fs b1 b2 :
  sort_contract sortSlice ->
  fs_wf fs ->
  partEntries b1 <> [] ->
  Forall (registered fs) (partEntries b1) ->
  OutputPath b1 ∉ map path (partEntries b1) ->
  has_nul (OutputPath b1) = false -> OutputPath b1 <> EmptyString ->
  headerSize (partEntries b1) <= maxAlloc ->
  headerSize (partEntries b1) + sum_sizes (partEntries b1) < 2 ^ 63 ->
  Forall (fun e => (length (source_bytes fs e) < fuel)%nat) (partEntries b1) ->
  OutputPath b2 = OutputPath b1 -> partEntries b2 = partEntries b1 ->
  1 <= BufferSize b1 <= maxAlloc -> 1 <= BufferSize b2 <= maxAlloc ->
  exists fs' es',
    Build sortSlice fuel fs b1 = (fs', set_entries b1 es', Done tt)
    /\ Build sortSlice fuel fs b2 = (fs', set_entries b2 es', Done tt).
Proof.
  intros Hc Hwf Hne Hreg Hout Hnul Hnonempty Hmax Hsum Hfuel Ho He Hb1 Hb2.
  destruct (Build_runs sortSlice fuel fs b1 Hc Hwf Hne Hreg Hout Hnul Hnonempty
              Hb1 Hmax Hsum Hfuel) as (h & es' & Hh & Hrun).
  destruct (Build_runs sortSlice fuel fs b2) as (h2 & es2 & Hh2 & Hrun2);
    try (rewrite ?Ho, ?He; assumption).
  unfold buildHeader in Hh, Hh2. rewrite He, Hh in Hh2. injection Hh2 as <- <-.
  rewrite Ho in Hrun2. eauto.
Qed.

Lemma Build_buffer_independent_witness :
  exists fs' es',
    Build insertionSort 4 scenario_fs (snd (fst scenario_registered))
    = (fs', set_entries (snd (fst scenario_registered)) es', Done tt)
    /\ Build insertionSort 4 scenario_fs
         {| OutputPath := "out.nsp"; BufferSize := 1; ShowProgress := false;
            ProgressUpdateFrequency := 100; lastProgressWidth := 0;
            partEntries := partEntries (snd (fst scenario_registered)) |}
       = (fs', set_entries
                 {| OutputPath := "out.nsp"; BufferSize := 1;
                    ShowProgress := false; ProgressUpdateFrequency := 100;
                    lastProgressWidth := 0;
                    partEntries := partEntries (snd (fst scenario_registered)) |}
                 es', Done tt).
Proof.
  destruct (AddFiles_registered ["b.bin"; "a.bin"]%string
              scenario_fs scenario_builder scenario_fs
              (snd (fst scenario_registered)))
    as (_ & Hreg & _); [reflexivity|constructor|].
  apply (Build_buffer_independent insertionSort 4 scenario_fs
           (snd (fst scenario_registered))).
  - apply insertionSort_contract.
  - apply scenario_fs_wf.
  - discriminate.
  - exact Hreg.
  - intros Hin. apply list_elem_of_In in Hin. vm_compute in Hin.
    intuition discriminate.
  - reflexivity.
  - discriminate.
  - vm_compute. discriminate.
  - vm_compute. reflexivity.
  - repeat constructor.
  - reflexivity.
  - reflexivity.
  - vm_compute. split; discriminate.
  - vm_compute. split; discriminate.
Defined.

(** ** Building twice *)

(** X9.  With pairwise distinct stored names, a second [Build] after a
    successful one repeats it: it succeeds again and leaves the same
    archive and the same entries.  The output file of the first run is
    truncated and written anew. *)
Theorem Build_again sortSlice fuel fs b fs1 b1 :
  sort_contract sortSlice ->
  NoDup (map name (partEntries b)) ->
  Build sortSlice fuel fs b = (fs1, b1, Done tt) ->
  Build sortSlice fuel fs1 b1 = (fs1, b1, Done tt).
Proof.
  intros Hc Hnd Hrun.
  destruct (Build_done_path _ _ _ _ _ _ Hrun) as (Hnonempty & buf & Hbuf).
  destruct (Build_done_inv _ _ _ _ _ _ Hrun)
    as (Hne & h & es & p' & Hh & -> & Hnul & Hcopy).
  destruct (Hc (partEntries b)) as [Hperm Hsorted].
  pose proof Hh as Hg. unfold buildHeader in Hg.
  destruct (generateHeader_inv _ _ _ Hg) as (_ & Hes & _).
  assert (Hfix : sortSlice es = es).
  { apply sort_sorted_unique; [exact Hc| |].
    - rewrite Hes. apply StronglySorted_assign, Hsorted.
    - rewrite Hes, map_name_assign.
      eapply NoDup_Permutation_proper; [|exact Hnd].
      symmetry. apply Permutation_map, Hperm. }
  assert (Hh1 : buildHeader sortSlice (set_entries b es) = Some (h, es)).
  { unfold buildHeader. cbn [partEntries set_entries]. rewrite Hfix.
    eapply generateHeader_again, Hg. }
  assert (Hne1 : partEntries (set_entries b es) <> []).
  { cbn [partEntries set_entries]. intros ->.
    apply Hne. apply Permutation_nil. cbn [assign] in Hes.
    rewrite Hperm. destruct (sortSlice (partEntries b)); [reflexivity|discriminate]. }
  rewrite (Build_after_header sortSlice fuel fs1 _ h es Hne1 Hh1 Hnul Hnonempty).
  cbn [OutputPath BufferSize set_entries]. rewrite Hbuf.
  replace (<[OutputPath b := h]> fs1) with (<[OutputPath b := h]> fs).
  - change (set_entries (set_entries b es) es) with (set_entries b es).
    rewrite Hcopy. reflexivity.
  - apply map_eq. intros q. destruct (decide (q = OutputPath b)) as [->|Hq].
    + rewrite !lookup_insert_eq. reflexivity.
    + rewrite !lookup_insert_ne by congruence.
      rewrite (copyEntries_frame _ _ _ _ _ _ _ _ Hcopy q) by exact Hq.
      rewrite lookup_insert_ne by congruence. reflexivity.
Qed.

Lemma Build_again_witness :
  Build insertionSort 4
    (<["out.nsp"%string := scenario_header ++ [xaa; xbb; x01; x02; x03]]> scenario_fs)
    (set_entries (snd (fst scenario_registered)) scenario_entries)
  = (<["out.nsp"%string := scenario_header ++ [xaa; xbb; x01; x02; x03]]> scenario_fs,
     set_entries (snd (fst scenario_registered)) scenario_entries, Done tt).
Proof.
  apply (Build_again insertionSort 4 scenario_fs (snd (fst scenario_registered))).
  - apply insertionSort_contract.
  - vm_compute. repeat constructor; intros Hin; apply list_elem_of_In in Hin;
      cbn in Hin; intuition discriminate.
  - vm_compute. reflexivity.
Defined.

(** ** A buffer size that cannot be allocated *)

(** X10.  With a negative buffer size, or one above the allocation limit,
    [Build] panics at [make([]byte, b.BufferSize)], and only there: by then
    the output file has been created and holds the header. *)
Theorem Build_bad_buffer sortSlice fuel fs b :
  sort_contract sortSlice ->
  partEntries b <> [] ->
  headerSize (partEntries b) <= maxAlloc ->
  has_nul (OutputPath b) = false -> OutputPath b <> EmptyString ->
  BufferSize b < 0 \/ maxAlloc < BufferSize b ->
  exists h es',
    buildHeader sortSlice b = Some (h, es')
    /\ len h = headerSize (partEntries b)
    /\ Build sortSlice fuel fs b
       = (<[OutputPath b := h]> fs, set_entries b es', Panicked).
Proof.
  intros Hc Hne Hmax Hnul Hnonempty Hbuf.
  destruct (Hc (partEntries b)) as [Hperm _].
  rewrite (headerSize_perm _ _ Hperm) in Hmax.
  destruct (generateHeader_total _ Hmax) as [h Hh].
  destruct (generateHeader_inv _ _ _ Hh) as (Hlen & _ & _).
  eexists h, _. split; [exact Hh|].
  split; [rewrite Hlen; symmetry; apply headerSize_perm, Hperm|].
  rewrite (Build_after_header sortSlice fuel fs b h _ Hne Hh Hnul Hnonempty).
  unfold make_bytes.
  replace ((0 <=? BufferSize b) && (BufferSize b <=? maxAlloc)) with false;
    [reflexivity|].
  symmetry. apply andb_false_iff.
  destruct Hbuf; [left; apply Z.leb_gt|right; apply Z.leb_gt]; lia.
Qed.

Lemma Build_bad_buffer_witness :
  exists es',
    Build insertionSort 4 scenario_fs
      {| OutputPath := "out.nsp"; BufferSize := -1; ShowProgress := false;
         ProgressUpdateFrequency := 100; lastProgressWidth := 0;
         partEntries := partEntries (snd (fst scenario_registered)) |}
    = (<["out.nsp"%string := scenario_header]> scenario_fs, es', Panicked).
Proof.
  destruct (Build_bad_buffer insertionSort 4 scenario_fs
      {| OutputPath := "out.nsp"; BufferSize := -1; ShowProgress := false;
         ProgressUpdateFrequency := 100; lastProgressWidth := 0;
         partEntries := partEntries (snd (fst scenario_registered)) |})
    as (h & es' & H1 & _ & H3).
  - apply insertionSort_contract.
  - discriminate.
  - vm_compute. discriminate.
  - reflexivity.
  - discriminate.
  - left. reflexivity.
  - vm_compute in H1. injection H1 as <- _.
    eexists. exact H3.
Defined.

(** ** Sources that cannot be copied *)

Lemma Open_present fs p c :
  has_nul p = false -> fs !! p = Some c -> Open fs p = Some tt.
Proof. intros Hn Hc. unfold Open. rewrite Hn, Hc. reflexivity. Qed.

Lemma int64_high z : 2 ^ 63 <= z < 2 ^ 64 -> int64 z < 0.
Proof.
  intros H. unfold int64.
  replace (z + 2 ^ 63) with (z - 2 ^ 63 + 1 * 2 ^ 64) by lia.
  rewrite Z.mod_add by lia. rewrite Z.mod_small by lia. lia.
Qed.

(** X13.  An entry whose data offset is 2^63 or more cannot be reached by
    [Seek], which takes an [int64]: the copy returns the seek error and
    writes nothing. *)
Theorem copy_seek_refused fuel b e fs c p :
  has_nul (path e) = false -> fs !! path e = Some c ->
  2 ^ 63 <= dataOffset e < 2 ^ 64 ->
  copyFileToNSP fuel b e fs p = (fs, p, Failed (SeekError (path e))).
Proof.
  intros Hn Hc Hd. unfold copyFileToNSP.
  rewrite (Open_present _ _ _ Hn Hc).
  replace (int64 (dataOffset e) <? 0) with true; [reflexivity|].
  symmetry. apply Z.ltb_lt, int64_high, Hd.
Qed.

Lemma copy_seek_refused_witness :
  copyFileToNSP 4 scenario_builder
    {| path := "a.bin"; name := "a.bin"; size := 2;
       dataOffset := 2 ^ 63; stringOffset := 0 |} scenario_fs 0
  = (scenario_fs, 0, Failed (SeekError "a.bin")).
Proof.
  apply (copy_seek_refused 4 scenario_builder
           {| path := "a.bin"; name := "a.bin"; size := 2;
              dataOffset := 2 ^ 63; stringOffset := 0 |}
           scenario_fs [xaa; xbb] 0).
  - reflexivity.
  - reflexivity.
  - cbn [dataOffset]. lia.
Defined.






(** ** A buffer of no bytes *)

Lemma copyLoop_zero_buffer fuel b e fs c inPos outPos bw p :
  BufferSize b = 0 -> fs !! path e = Some c ->
  copyLoop (S fuel) b e fs inPos outPos bw p = (fs, p, Done bw).
Proof.
  intros Hb Hc. cbn [copyLoop]. unfold file_read. rewrite Hc, Hb.
  cbn [mbind option_bind]. change (Z.to_nat 0) with 0%nat. rewrite take_0.
  reflexivity.
Qed.

(** X11.  With a buffer size of 0 every read returns 0 bytes and the copy loop
    ends at once.  [Build] writes the header, passes over the entries
    recorded as empty, and returns a size mismatch with 0 bytes written for
    the first entry in name order that is not: no payload is written. *)
Theorem Build_zero_buffer sortSlice fuel fs b h pre e post :
  partEntries b <> [] ->
  buildHeader sortSlice b = Some (h, pre ++ e :: post) ->
  has_nul (OutputPath b) = false -> OutputPath b <> EmptyString ->
  BufferSize b = 0 ->
  Forall (fun x => has_nul (path x) = false /\ is_Some (fs !! path x)
                   /\ size x = 0) pre ->
  has_nul (path e) = false -> is_Some (fs !! path e) -> size e <> 0 ->
  Build sortSlice (S fuel) fs b
  = (<[OutputPath b := h]> fs, set_entries b (pre ++ e :: post),
     Failed (SizeMismatch (path e) (size e) 0)).
Proof.
  intros Hne Hh Hnul Hnonempty Hbuf Hpre Hn He Hsize.
  pose proof (generateHeader_size_bound _ _ _ Hh) as Hsum. unfold maxAlloc in Hsum.
  rewrite (Build_after_header sortSlice (S fuel) fs b h _ Hne Hh Hnul Hnonempty).
  unfold make_bytes. rewrite Hbuf. cbn [Z.leb Z.compare andb].
  change (0 <=? maxAlloc) with true. cbn match.
  set (b' := set_entries b (pre ++ e :: post)).
  pose proof (buildHeader_chain _ _ _ _ Hh) as Hchain.
  assert (Hh0 : 0 <= len h) by (unfold len; lia).
  assert (Hlook : forall q, is_Some (fs !! q) ->
            exists c, (<[OutputPath b := h]> fs) !! q = Some c).
  { intros q [c Hc]. destruct (decide (q = OutputPath b)) as [->|Hq].
    - exists h. apply lookup_insert_eq.
    - exists c. rewrite lookup_insert_ne by congruence. exact Hc. }
  assert (Hstep : forall x L p,
            has_nul (path x) = false -> is_Some (fs !! path x) ->
            dataOffset x = uint64 L -> 0 <= L < 2 ^ 63 ->
            copyFileToNSP (S fuel) b' x (<[OutputPath b := h]> fs) p
            = (<[OutputPath b := h]> fs, p,
               if 0 =? size x then Done tt
               else Failed (SizeMismatch (path x) (size x) 0))).
  { intros x L p Hnx Hx Hd HL. destruct (Hlook _ Hx) as [c Hc].
    unfold copyFileToNSP. rewrite (Open_present _ _ _ Hnx Hc).
    rewrite Hd, uint64_small, int64_small by lia.
    replace (L <? 0) with false by (symmetry; apply Z.ltb_ge; lia).
    rewrite (copyLoop_zero_buffer fuel b' x _ c) by (exact Hbuf || exact Hc).
    destruct (0 =? size x); reflexivity. }
  assert (Hrun : forall l L p,
            Forall (fun x => has_nul (path x) = false /\ is_Some (fs !! path x)
                             /\ size x = 0) l ->
            offsets_chain L l -> 0 <= L < 2 ^ 63 ->
            copyEntries (S fuel) b' l (<[OutputPath b := h]> fs) p
            = (<[OutputPath b := h]> fs, p, Done tt)).
  { induction l as [|x l IH]; intros L p Hl Hch HL; [reflexivity|].
    inversion Hl as [|? ? (Hnx & Hx & Hsx) Hl']; subst.
    destruct Hch as [Hd Hch].
    rewrite Hsx, Z.add_0_r in Hch.
    change (copyEntries (S fuel) b' (x :: l) (<[OutputPath b := h]> fs) p)
      with (match copyFileToNSP (S fuel) b' x (<[OutputPath b := h]> fs) p with
            | (fs, processedSize, Done _) =>
                copyEntries (S fuel) b' l fs processedSize
            | other => other
            end).
    rewrite (Hstep x L p Hnx Hx Hd HL), Hsx. cbn [Z.eqb].
    apply (IH L); assumption. }
  assert (Hpre0 : sum_sizes pre = 0).
  { clear -Hpre. induction Hpre as [|x l (_ & _ & Hx) _ IH]; [reflexivity|].
    cbn [sum_sizes]. lia. }
  rewrite copyEntries_app, (Hrun pre (len h) 0 Hpre);
    [|eapply offsets_chain_app_l, Hchain|lia].
  apply offsets_chain_app_r in Hchain. destruct Hchain as [Hd _].
  change (copyEntries (S fuel) b' (e :: post) (<[OutputPath b := h]> fs) 0)
    with (match copyFileToNSP (S fuel) b' e (<[OutputPath b := h]> fs) 0 with
          | (fs, processedSize, Done _) =>
              copyEntries (S fuel) b' post fs processedSize
          | other => other
          end).
  rewrite (Hstep e (len h + sum_sizes pre) 0 Hn He Hd) by lia.
  replace (0 =? size e) with false by (symmetry; apply Z.eqb_neq; congruence).
  reflexivity.
Qed.

Lemma Build_zero_buffer_witness :
  Build insertionSort 1 scenario_fs
    {| OutputPath := "out.nsp"; BufferSize := 0; ShowProgress := false;
       ProgressUpdateFrequency := 100; lastProgressWidth := 0;
       partEntries := partEntries (snd (fst scenario_registered)) |}
  = (<["out.nsp"%string := scenario_header]> scenario_fs,
     {| OutputPath := "out.nsp"; BufferSize := 0; ShowProgress := false;
        ProgressUpdateFrequency := 100; lastProgressWidth := 0;
        partEntries := scenario_entries |},
     Failed (SizeMismatch "a.bin" 2 0)).
Proof.
  apply (Build_zero_buffer insertionSort 0 scenario_fs
           {| OutputPath := "out.nsp"; BufferSize := 0; ShowProgress := false;
              ProgressUpdateFrequency := 100; lastProgressWidth := 0;
              partEntries := partEntries (snd (fst scenario_registered)) |}
           scenario_header []
           {| path := "a.bin"; name := "a.bin"; size := 2;
              dataOffset := 80; stringOffset := 0 |}
           [ {| path := "b.bin"; name := "b.bin"; size := 3;
                dataOffset := 82; stringOffset := 6 |} ]).
  - discriminate.
  - vm_compute. reflexivity.
  - reflexivity.
  - discriminate.
  - reflexivity.
  - constructor.
  - reflexivity.
  - eexists. reflexivity.
  - discriminate.
Defined.

(** ** The output file registered as an input *)





(** ** The command line *)

Lemma AddFiles_fs paths : forall fs b fs' b' r,
  AddFiles fs b paths = (fs', b', r) -> fs' = fs.
Proof.
  induction paths as [|p paths IH]; intros fs b fs' b' r H; cbn [AddFiles] in H.
  - congruence.
  - unfold AddFile in H. destruct (Stat fs p); [|congruence].
    eapply IH, H.
Qed.

Lemma AddFiles_options paths : forall fs b fs' b' r,
  AddFiles fs b paths = (fs', b', r) ->
  OutputPath b' = OutputPath b /\ BufferSize b' = BufferSize b.
Proof.
  induction paths as [|p paths IH]; intros fs b fs' b' r H; cbn [AddFiles] in H.
  - injection H as _ <- _. auto.
  - unfold AddFile in H. destruct (Stat fs p); [|injection H as _ <- _; auto].
    apply IH in H. exact H.
Qed.

(** X16.  End to end: when every named file exists, none of them is the output
    file, the output path is valid, the buffer has at least one byte and
    the archive stays below 2^63 bytes, the program registers the files,
    builds the archive and ends with the success message and exit code 0.
    The output file is the header followed by the files in name order, and
    no other file has changed. *)
Theorem main_builds_archive sortSlice fuel fs fl b :
  sort_contract sortSlice -> fs_wf fs ->
  helpFlag fl = false -> versionFlag fl = false -> ncaFiles fl <> [] ->
  AddFiles fs (main_builder fl) (ncaFiles fl) = (fs, b, None) ->
  outputName fl ∉ ncaFiles fl ->
  has_nul (outputName fl) = false -> outputName fl <> EmptyString ->
  1 <= bufferSize fl <= maxAlloc ->
  headerSize (partEntries b) <= maxAlloc ->
  headerSize (partEntries b) + sum_sizes (partEntries b) < 2 ^ 63 ->
  Forall (fun p => (length (default [] (fs !! p)) < fuel)%nat) (ncaFiles fl) ->
  exists h es',
    buildHeader sortSlice b = Some (h, es')
    /\ Permutation (ncaFiles fl) (map path es')
    /\ StronglySorted name_le es'
    /\ main sortSlice fuel fs fl
       = (<[outputName fl := h ++ payload_region fs es']> fs,
          Done (SuccessfullyBuilt (outputName fl)))
    /\ exit_code (SuccessfullyBuilt (outputName fl)) = 0.
Proof.
  intros Hc Hwf Hhelp Hver Hfiles Hadd Hout Hnul Hnonempty Hbuf Hmax Hsum Hfuel.
  destruct (AddFiles_registered _ _ _ _ _ Hadd) as (_ & Hreg & Hpaths & Ho & Hb);
    [constructor|].
  cbn [main_builder partEntries OutputPath BufferSize map app] in Hpaths, Ho, Hb.
  assert (Hne : partEntries b <> []).
  { intros E. rewrite E in Hpaths. cbn in Hpaths. congruence. }
  destruct (Build_runs sortSlice fuel fs b) as (h & es' & Hh & Hrun);
    try (rewrite ?Ho, ?Hb, ?Hpaths; assumption).
  { rewrite Forall_forall in Hfuel. rewrite Forall_forall.
    intros e He. unfold source_bytes.
    apply Hfuel. rewrite <- Hpaths. apply list_elem_of_fmap_2, He. }
  destruct (Hc (partEntries b)) as [Hperm Hsorted].
  exists h, es'. split; [exact Hh|].
  unfold buildHeader in Hh. destruct (generateHeader_inv _ _ _ Hh) as (_ & Hes & _).
  split.
  { rewrite Hes, map_path_assign, <- Hpaths. apply Permutation_map, Hperm. }
  split; [rewrite Hes; apply StronglySorted_assign, Hsorted|].
  split; [|reflexivity].
  unfold main. rewrite Hhelp, Hver.
  replace (len (ncaFiles fl) =? 0) with false.
  - rewrite Hadd, Hrun, Ho. reflexivity.
  - symmetry. apply Z.eqb_neq. unfold len.
    destruct (ncaFiles fl); [congruence|cbn [length]; lia].
Qed.

Lemma main_builds_archive_witness :
  exists h es',
    main insertionSort 4 scenario_fs scenario_flags
    = (<["out.nsp"%string := h ++ payload_region scenario_fs es']> scenario_fs,
       Done (SuccessfullyBuilt "out.nsp"))
    /\ Permutation ["b.bin"; "a.bin"]%string (map path es').
Proof.
  destruct (main_builds_archive insertionSort 4 scenario_fs scenario_flags
              (snd (fst scenario_registered)))
    as (h & es' & _ & H2 & _ & H4 & _).
  - apply insertionSort_contract.
  - apply scenario_fs_wf.
  - reflexivity.
  - reflexivity.
  - discriminate.
  - reflexivity.
  - intros Hin. apply list_elem_of_In in Hin. cbn in Hin. intuition discriminate.
  - reflexivity.
  - discriminate.
  - vm_compute. split; discriminate.
  - vm_compute. discriminate.
  - vm_compute. reflexivity.
  - repeat constructor.
  - exists h, es'. split; [exact H4|exact H2].
Defined.

(** X17.  When one of the named files cannot be stat-ed, the program ends with
    the add-file error for the first such file and exit code 1, before
    the output file is created: the file system is left as it was. *)
Theorem main_missing_file sortSlice fuel fs fl ok bad rest :
  helpFlag fl = false -> versionFlag fl = false ->
  ncaFiles fl = ok ++ bad :: rest ->
  Forall (fun p => is_Some (Stat fs p)) ok -> Stat fs bad = None ->
  main sortSlice fuel fs fl = (fs, Done (FailedToAdd (AddFileError bad)))
  /\ exit_code (FailedToAdd (AddFileError bad)) = 1.
Proof.
  intros Hhelp Hver Hfiles Hok Hbad. split; [|reflexivity].
  unfold main. rewrite Hhelp, Hver, Hfiles.
  replace (len (ok ++ bad :: rest) =? 0) with false.
  - assert (H : forall b0, exists b1, AddFiles fs b0 (ok ++ bad :: rest)
                                      = (fs, b1, Some (AddFileError bad))).
    { clear Hfiles.
      induction Hok as [|p paths [info Hp] _ IH]; intros b0;
        cbn [AddFiles app]; unfold AddFile.
      + rewrite Hbad. eauto.
      + rewrite Hp. apply IH. }
    destruct (H (main_builder fl)) as [b1 ->]. reflexivity.
  - symmetry. apply Z.eqb_neq. unfold len. rewrite length_app. cbn [length]. lia.
Qed.

Lemma main_missing_file_witness :
  main insertionSort 4 scenario_fs
    {| helpFlag := false; versionFlag := false; outputName := "out.nsp";
       bufferSize := DefaultBufferSize; showProgress := false;
       ncaFiles := ["b.bin"; "c.bin"; "a.bin"]%string |}
  = (scenario_fs, Done (FailedToAdd (AddFileError "c.bin"))).
Proof.
  apply (main_missing_file insertionSort 4 scenario_fs
           {| helpFlag := false; versionFlag := false; outputName := "out.nsp";
              bufferSize := DefaultBufferSize; showProgress := false;
              ncaFiles := ["b.bin"; "c.bin"; "a.bin"]%string |}
           ["b.bin"%string] "c.bin" ["a.bin"%string]).
  - reflexivity.
  - reflexivity.
  - reflexivity.
  - repeat constructor. eexists. reflexivity.
  - reflexivity.
Defined.

(** X18.  Whatever the flags and however the run ends, the program changes no
    file other than the one named by [-o]; the files it packs are only
    read. *)
Theorem main_touches_only_output sortSlice fuel fs fl fs' r :
  main sortSlice fuel fs fl = (fs', r) ->
  forall q, q <> outputName fl -> fs' !! q = fs !! q.
Proof.
  unfold main.
  destruct (helpFlag fl); [intros [= <- <-]; reflexivity|].
  destruct (versionFlag fl); [intros [= <- <-]; reflexivity|].
  destruct (len (ncaFiles fl) =? 0); [intros [= <- <-]; reflexivity|].
  destruct (AddFiles fs (main_builder fl) (ncaFiles fl)) as [[fs1 b1] err] eqn:Hadd.
  pose proof (AddFiles_fs _ _ _ _ _ _ Hadd) as ->.
  destruct (AddFiles_options _ _ _ _ _ _ Hadd) as [Ho _].
  cbn [main_builder OutputPath] in Ho.
  destruct err; [intros [= <- <-]; reflexivity|].
  destruct (Build sortSlice fuel fs b1) as [[fs2 b2] r2] eqn:Hrun.
  pose proof (Build_frame _ _ _ _ _ _ _ Hrun) as Hframe.
  rewrite Ho in Hframe.
  destruct r2; intros [= <- <-]; exact Hframe.
Qed.

Lemma main_touches_only_output_witness :
  (<["out.nsp"%string := scenario_header ++ [xaa; xbb; x01; x02; x03]]>
     scenario_fs) !! "a.bin"%string
  = scenario_fs !! "a.bin"%string.
Proof.
  refine (main_touches_only_output insertionSort 4 scenario_fs scenario_flags
            (<["out.nsp"%string := scenario_header ++ [xaa; xbb; x01; x02; x03]]>
               scenario_fs)
            (Done (SuccessfullyBuilt "out.nsp")) _ "a.bin"%string _).
  - vm_compute. reflexivity.
  - discriminate.
Defined.

(** ** The progress bar *)

Lemma string_length_app (s1 s2 : string) :
  String.length (s1 ++ s2) = (String.length s1 + String.length s2)%nat.
Proof.
  induction s1 as [|c s1 IH]; [reflexivity|].
  exact (f_equal S IH).
Qed.

Lemma string_app_assoc (s1 s2 s3 : string) :
  ((s1 ++ s2) ++ s3 = s1 ++ (s2 ++ s3))%string.
Proof.
  induction s1 as [|c s1 IH]; [reflexivity|].
  exact (f_equal (String c) IH).
Qed.

Lemma length_repeat_string s n :
  String.length (repeat_string s n) = (n * String.length s)%nat.
Proof.
  induction n as [|n IH]; [reflexivity|].
  cbn [repeat_string]. rewrite string_length_app, IH. lia.
Qed.

Lemma binary_round_aux_sign s m e l :
  s = false -> not_negative (binary_round_aux 53 1024 s m e l).
Proof.
  intros ->. unfold binary_round_aux.
  destruct (shr_fexp 53 1024 m e l) as [mrs' e'].
  destruct (shr_fexp 53 1024 _ e' loc_Exact) as [mrs'' e''].
  destruct (shr_m mrs''); [reflexivity| |exact I].
  destruct (e'' <=? 1024 - 53); reflexivity.
Qed.

Lemma float64_of_Z_sign n : 0 <= n -> not_negative (float64_of_Z n).
Proof.
  intros Hn. unfold float64_of_Z, binary_normalize.
  destruct n as [|p|p]; [reflexivity| |lia].
  unfold binary_round. destruct (shl_align _ _ _) as [mz ez].
  apply binary_round_aux_sign. reflexivity.
Qed.

Lemma fdiv_sign x y : not_negative x -> not_negative y -> not_negative (fdiv x y).
Proof.
  unfold fdiv, SFdiv.
  destruct x as [sx|sx| |sx mx ex], y as [sy|sy| |sy my ey]; cbn;
    try (intros -> ->; reflexivity); try (intros; exact I).
  intros -> ->. destruct (SFdiv_core_binary _ _ _ _ _ _) as [[mz ez] lz].
  apply binary_round_aux_sign. reflexivity.
Qed.

Lemma fmul_sign x y : not_negative x -> not_negative y -> not_negative (fmul x y).
Proof.
  unfold fmul, SFmul.
  destruct x as [sx|sx| |sx mx ex], y as [sy|sy| |sy my ey]; cbn;
    try (intros -> ->; reflexivity); try (intros; exact I).
  intros -> ->. apply binary_round_aux_sign. reflexivity.
Qed.

Lemma ftrunc_sign f z : not_negative f -> ftrunc f = Some z -> 0 <= z.
Proof.
  destruct f as [s|s| |s m e]; unfold ftrunc, not_negative; try discriminate.
  - intros _ [= <-]. lia.
  - intros -> [= <-]. cbn [cond_Zopp].
    destruct (0 <=? e) eqn:E.
    + apply Z.leb_le in E.
      apply Z.mul_nonneg_nonneg; [lia|apply Z.pow_nonneg; lia].
    + apply Z.leb_gt in E.
      apply Z.div_pos; [lia|apply Z.pow_pos_nonneg; lia].
Qed.

(** [int(f)] of a float that is not negative is negative only when the
    conversion overflows. *)
Lemma int_of_float64_sign f :
  not_negative f -> 0 <= int_of_float64 f \/ int_of_float64 f = min_int64.
Proof.
  intros Hf. unfold int_of_float64.
  destruct (ftrunc f) as [z|] eqn:Hz; [|right; reflexivity].
  destruct ((min_int64 <=? z) && (z <? 2 ^ 63)); [|right; reflexivity].
  left. eapply ftrunc_sign; eauto.
Qed.

Lemma progress_percent_sign cur tot :
  0 <= cur -> 0 <= tot -> not_negative (progress_percent cur tot).
Proof.
  intros Hc Ht. unfold progress_percent.
  apply fdiv_sign; apply float64_of_Z_sign; [exact Hc|].
  destruct (tot =? 0); lia.
Qed.

(** X19.  For sizes and a width that are not negative, the bar has exactly
    [width] characters: [filled] times ["="], with [filled] between 0 and
    [width], then blanks.  [drawProgressBar] panics in
    [strings.Repeat] in one case only, when the conversion of
    [percent*width] to [int] overflows and yields the most negative
    integer. *)
Theorem progress_bar_width cur tot w :
  0 <= cur -> 0 <= tot -> 0 <= w ->
  match progress_bar cur tot w with
  | Some bar =>
      0 <= progress_filled cur tot w <= w
      /\ bar = (repeat_string "=" (Z.to_nat (progress_filled cur tot w))
                ++ repeat_string " " (Z.to_nat (w - progress_filled cur tot w)))%string
      /\ slen bar = w
  | None =>
      int_of_float64 (fmul (progress_percent cur tot) (float64_of_Z w))
      = min_int64
  end.
Proof.
  intros Hc Ht Hw.
  pose proof (int_of_float64_sign
                (fmul (progress_percent cur tot) (float64_of_Z w))
                (fmul_sign _ _ (progress_percent_sign _ _ Hc Ht)
                               (float64_of_Z_sign _ Hw))) as Hint.
  unfold progress_bar, Repeat.
  assert (Hle : progress_filled cur tot w <= w)
    by (unfold progress_filled; apply Z.le_min_r).
  destruct (progress_filled cur tot w <? 0) eqn:Hneg; cbn [mbind option_bind].
  - apply Z.ltb_lt in Hneg. destruct Hint as [Hint|Hint]; [|exact Hint].
    unfold progress_filled in Hneg. lia.
  - apply Z.ltb_ge in Hneg.
    replace (w - progress_filled cur tot w <? 0) with false
      by (symmetry; apply Z.ltb_ge; lia).
    cbn [mbind option_bind].
    split; [lia|]. split; [reflexivity|].
    unfold slen. rewrite string_length_app, !length_repeat_string.
    cbn [String.length]. lia.
Qed.

Lemma progress_bar_width_witness :
  match progress_bar 50 200 50 with
  | Some bar =>
      0 <= progress_filled 50 200 50 <= 50
      /\ bar = (repeat_string "=" (Z.to_nat (progress_filled 50 200 50))
                ++ repeat_string " " (Z.to_nat (50 - progress_filled 50 200 50)))%string
      /\ slen bar = 50
  | None =>
      int_of_float64 (fmul (progress_percent 50 200) (float64_of_Z 50))
      = min_int64
  end.
Proof. apply (progress_bar_width 50 200 50); lia. Defined.

(** X20.  Drawing and clearing.  A visible draw first blanks the line, as many
    columns as the builder remembered, and then prints the progress line;
    it remembers the length of that line, so that the next [clearLine], or
    the next draw, blanks exactly what is on the terminal and cannot
    panic.  With [ShowProgress] off nothing is printed and the builder
    is not changed. *)
Theorem draw_then_clear b cur tot total totalUnit w b1 out :
  0 <= lastProgressWidth b ->
  drawProgressBar b cur tot total totalUnit w = Some (b1, out) ->
  if ShowProgress b then
    exists line,
      out = (CR ++ repeat_string " " (Z.to_nat (lastProgressWidth b)) ++ CR
             ++ line)%string
      /\ lastProgressWidth b1 = slen line
      /\ clearLine b1
         = Some (set_lastProgressWidth b1 0,
                 (CR ++ repeat_string " " (String.length line) ++ CR)%string)
  else b1 = b /\ out = EmptyString.
Proof.
  intros Hw. unfold drawProgressBar.
  destruct (ShowProgress b); cbn [negb]; [|intros [= <- <-]; auto].
  destruct (progress_bar cur tot w) as [bar|]; [|discriminate].
  cbn [mbind option_bind].
  destruct (formatSize cur) as [current currentUnit].
  unfold clearLine at 1, Repeat.
  replace (lastProgressWidth b <? 0) with false
    by (symmetry; apply Z.ltb_ge, Hw).
  cbn [mbind option_bind].
  intros [= <- <-]. eexists. split.
  { rewrite !string_app_assoc. reflexivity. }
  split; [reflexivity|].
  unfold clearLine, Repeat. cbn [lastProgressWidth set_lastProgressWidth].
  unfold slen. rewrite Nat2Z.id.
  destruct (Z.of_nat _ <? 0) eqn:E; [apply Z.ltb_lt in E; lia|].
  reflexivity.
Qed.

Lemma draw_then_clear_witness :
  exists b1 out line,
    drawProgressBar progress_builder 50 200 (float64_of_Z 200) "B" 50
    = Some (b1, out)
    /\ out = (CR ++ CR ++ line)%string
    /\ clearLine b1
       = Some (set_lastProgressWidth b1 0,
               (CR ++ repeat_string " " (String.length line) ++ CR)%string).
Proof.
  destruct (drawProgressBar progress_builder 50 200 (float64_of_Z 200) "B" 50)
    as [[b1 out]|] eqn:E; [|vm_compute in E; discriminate].
  destruct (draw_then_clear progress_builder 50 200 (float64_of_Z 200) "B" 50
              b1 out) as (line & H1 & _ & H3).
  - cbn. lia.
  - exact E.
  - exists b1, out, line. split; [reflexivity|]. split; [exact H1|exact H3].
Defined.

(** ** Sizes below one thousand bytes *)

Lemma small_sizes_checked :
  forallb (fun k => negb (fge (float64_of_Z (Z.of_nat k)) (float64_of_Z 1000)))
          (seq 0 1000) = true.
Proof. vm_compute. reflexivity. Qed.

(** X21.  [formatSize] leaves a size below 1000 bytes as it is, in the unit
    ["B"]: the loop body is not entered. *)
Theorem formatSize_bytes n :
  0 <= n < 1000 -> formatSize n = (float64_of_Z n, "B"%string).
Proof.
  intros Hn. unfold formatSize. cbn [formatSize_loop].
  pose proof small_sizes_checked as H.
  rewrite forallb_forall in H.
  specialize (H (Z.to_nat n)). rewrite Z2Nat.id in H by lia.
  rewrite (proj1 (negb_true_iff _) (H ltac:(apply in_seq; lia))).
  reflexivity.
Qed.

Lemma formatSize_bytes_witness : formatSize 999 = (float64_of_Z 999, "B"%string).
Proof. apply (formatSize_bytes 999). lia. Defined.
